(** * cudants: affine registration loop and image utilities

    A shallow embedding of [cudants/registration/affine.py] and
    [cudants/utils/imageutils.py].

    - [Py]: the Python values the code computes with: exceptions, binary64
      floats (IEEE 754 through [SpecFloat]) and integer division.
    - [Torch]: tensors as a shape and an indexing function, with the torch
      operations the two files call.
    - [ImageUtils]: [downsample], [scaling_and_squaring], [image_gradient].
    - [Affine]: [AffineRegistration], [get_affine_matrix] and [optimize],
      which also reports what happened in each scale.
    - [Spec]: the properties asked of them, in the words of the
      specification.
    - [Sym]: float32 tensors and images kept as the calls that made them, to
      run the code on.
    - [ImageUtilsRest]: [apply_gaussian]; [Trace]: more ways to read what a
      run reported; [Cases]: more inputs, among them a registration in
      integers.
    The theorems follow the definitions. *)

From Stdlib Require Import String ZArith List Lia Bool Arith SpecFloat.
Import ListNotations.

Set Implicit Arguments.

(* ===================================================================== *)
(** * Python values *)
(* ===================================================================== *)

Module Py.

(** The exceptions the two files can raise, themselves or through Python and
    torch.  [ConfigurationError] is the error of the absent base class. *)
Inductive exn : Type :=
| ZeroDivisionError
| OverflowError
| IndexError
| UnboundLocalError (name : string)
| ValueError (msg : string)
| NotImplementedError (msg : string)
| RuntimeError (msg : string)
| ConfigurationError (msg : string).

Inductive result (A : Type) : Type :=
| Ok (a : A)
| Raise (e : exn).
Arguments Ok {A} a.
Arguments Raise {A} e.

Definition bind {A B} (r : result A) (k : A -> result B) : result B :=
  match r with
  | Ok a => k a
  | Raise e => Raise e
  end.

Fixpoint mapM {A B} (f : A -> result B) (l : list A) : result (list B) :=
  match l with
  | [] => Ok []
  | x :: xs =>
      match f x with
      | Raise e => Raise e
      | Ok y => match mapM f xs with
                | Raise e => Raise e
                | Ok ys => Ok (y :: ys)
                end
      end
  end.

(** ** Floats: Python's [float] is IEEE 754 binary64 *)

Definition pyfloat : Type := spec_float.

Definition prec64 : Z := 53.
Definition emax64 : Z := 1024.

(** [np.inf] *)
Definition np_inf : pyfloat := S754_infinity false.

Definition float_sub (x y : pyfloat) : pyfloat := SFsub prec64 emax64 x y.
Definition float_mul (x y : pyfloat) : pyfloat := SFmul prec64 emax64 x y.
Definition float_lt (x y : pyfloat) : bool := SFltb x y.

Definition float_is_zero (x : pyfloat) : bool :=
  match x with
  | S754_zero _ => true
  | _ => false
  end.

Definition float_is_finite (x : pyfloat) : bool :=
  match x with
  | S754_zero _ | S754_finite _ _ _ => true
  | _ => false
  end.

(** [x / y] on floats: Python raises where IEEE 754 would give an infinity
    or a NaN for a zero divisor. *)
Definition float_truediv (x y : pyfloat) : result pyfloat :=
  if float_is_zero y then Raise ZeroDivisionError
  else Ok (SFdiv prec64 emax64 x y).

(** [float(z)] for an [int]: round to nearest even; an [int] beyond the
    largest float raises. *)
Definition float_of_int (z : Z) : result pyfloat :=
  match binary_normalize prec64 emax64 z 0 false with
  | S754_infinity _ => Raise OverflowError
  | f => Ok f
  end.

(** A float literal with an integer value, as [1.0] or [-1.0]. *)
Definition float_lit (z : Z) : pyfloat :=
  binary_normalize prec64 emax64 z 0 false.

(** [0.5] *)
Definition float_half : pyfloat := S754_finite false 4503599627370496 (-53).

(** The value a float takes in a float32 tensor. *)
Definition to_float32 (x : pyfloat) : pyfloat :=
  match x with
  | S754_finite s m e => binary_round 24 128 s m e
  | _ => x
  end.

(** [int(s / scale)] for two [int]s: true division, then truncation toward
    zero.  The quotient of two integers is rounded correctly, and for
    operands of the size of an image extent (below 2^26) its truncation is
    the integer quotient, which is what is modelled here. *)
Definition int_of_truediv (s scale : Z) : result Z :=
  if (scale =? 0)%Z then Raise ZeroDivisionError
  else Ok (Z.quot s scale).

End Py.

Import Py.

Declare Scope py_scope.
Notation "x <- c ;; k" := (Py.bind c (fun x => k))
  (at level 61, c at next level, right associativity) : py_scope.
Local Open Scope py_scope.

(* ===================================================================== *)
(** * Tensors *)
(* ===================================================================== *)

(** The element arithmetic of a tensor dtype (float32 by default in torch).
    No law is assumed of it. *)
Class Scalar (R : Type) : Type := {
  Radd : R -> R -> R;
  Rmul : R -> R -> R;
  (** a Python float stored into, or multiplied with, a tensor *)
  of_float : pyfloat -> R;
  (** zero of either sign *)
  is_zero : R -> bool
}.

(** The elements of [torch.zeros] and [torch.ones]. *)
Definition R0 {R} {SR : Scalar R} : R := of_float (S754_zero false).
Definition R1 {R} {SR : Scalar R} : R := of_float (float_lit 1).

Module Torch.

Section Tensors.
Context {R : Type} {SR : Scalar R}.

(** A tensor is its shape and the element at each index; only indices within
    the shape are meaningful. *)
Record tensor : Type := mkTensor {
  shape : list nat;
  elem : list nat -> R
}.

Fixpoint in_range (shp idx : list nat) : bool :=
  match shp, idx with
  | [], [] => true
  | s :: shp', i :: idx' => (i <? s) && in_range shp' idx'
  | _, _ => false
  end.

(** Two tensors hold the same data. *)
Definition tensor_eq (a b : tensor) : Prop :=
  shape a = shape b /\
  forall idx, in_range (shape a) idx = true -> elem a idx = elem b idx.

Definition all_zero (t : tensor) : Prop :=
  forall idx, in_range (shape t) idx = true -> is_zero (elem t idx) = true.

(** [torch.zeros(shp)] *)
Definition zeros (shp : list nat) : tensor := mkTensor shp (fun _ => R0).

(** [torch.eye(n, m)] *)
Definition eye (n m : nat) : tensor :=
  mkTensor [n; m]
    (fun idx => match idx with
                | [i; j] => if i =? j then R1 else R0
                | _ => R0
                end).

(** [t.unsqueeze(0)] *)
Definition unsqueeze0 (t : tensor) : tensor :=
  mkTensor (1 :: shape t) (fun idx => elem t (tl idx)).

(** [t.repeat(n, 1, ..., 1)]: [n] copies along the first axis. *)
Definition repeat0 (n : nat) (t : tensor) : tensor :=
  mkTensor (n * hd 0 (shape t) :: tl (shape t))
    (fun idx => elem t ((hd 0 idx mod hd 0 (shape t)) :: tl idx)).

(** [t[:, 0, -1] = v] on a tensor of three axes. *)
Definition setitem_col0_last (t : tensor) (v : R) : tensor :=
  mkTensor (shape t)
    (fun idx => match idx with
                | [_; 0; j] => if j =? nth 2 (shape t) 0 - 1 then v
                               else elem t idx
                | _ => elem t idx
                end).

Fixpoint shape_eqb (s1 s2 : list nat) : bool :=
  match s1, s2 with
  | [], [] => true
  | x :: s1', y :: s2' => (x =? y) && shape_eqb s1' s2'
  | _, _ => false
  end.

Definition set_nth (k : nat) (v : nat) (l : list nat) : list nat :=
  firstn k l ++ v :: skipn (S k) l.

(** [torch.cat([a, b], dim=1)]: the sizes of every other axis must agree. *)
Definition cat1 (a b : tensor) : result tensor :=
  match shape a, shape b with
  | a0 :: a1 :: arest, b0 :: b1 :: brest =>
      if (a0 =? b0) && shape_eqb arest brest then
        Ok (mkTensor (a0 :: (a1 + b1) :: arest)
              (fun idx => let i := nth 1 idx 0 in
                          if i <? a1 then elem a idx
                          else elem b (set_nth 1 (i - a1) idx)))
      else Raise (RuntimeError "Sizes of tensors must match except in dimension 1")
  | _, _ => Raise (IndexError)
  end.

(** [torch.cat([t, torch.ones(list(t.shape[:-1]) + [1])], dim=-1)] *)
Definition cat_ones_last (t : tensor) : tensor :=
  mkTensor (removelast (shape t) ++ [last (shape t) 0 + 1])
    (fun idx => if last idx 0 <? last (shape t) 0 then elem t idx else R1).

(** [t[..., :-1]] *)
Definition drop_last (t : tensor) : tensor :=
  mkTensor (removelast (shape t) ++ [last (shape t) 0 - 1]) (elem t).

(** The sum of [f 0], ..., [f (n-1)], accumulated from the left. *)
Definition sum_upto (n : nat) (f : nat -> R) : R :=
  fold_left (fun acc d => Radd acc (f d)) (seq 0 n) R0.

(** [torch.einsum('ntd, n...d->n...t', m, x)]: for every batch item [n] and
    every position, the matrix [m[n]] applied to the vector [x[n, ...]].
    Sizes under one letter must agree (broadcasting of an axis of size 1 is
    not modelled and is rejected like any other disagreement). *)
Definition einsum_ntd (m x : tensor) : result tensor :=
  match shape m, shape x with
  | [n; t; d], n' :: rest =>
      if (n =? n') && negb (length rest =? 0) && (d =? last rest 0) then
        Ok (mkTensor (n' :: removelast rest ++ [t])
              (fun idx =>
                 sum_upto d (fun k =>
                   Rmul (elem m [hd 0 idx; last idx 0; k])
                        (elem x (removelast idx ++ [k])))))
      else Raise (RuntimeError "einsum(): operands do not broadcast")
  | _, _ => Raise (RuntimeError "einsum(): subscripts do not match operands")
  end.

(** [c * t] for a Python float [c] *)
Definition scale (c : pyfloat) (t : tensor) : tensor :=
  mkTensor (shape t) (fun idx => Rmul (of_float c) (elem t idx)).

(** [a + b]; shapes must agree (broadcasting is not modelled). *)
Definition add (a b : tensor) : result tensor :=
  if shape_eqb (shape a) (shape b) then
    Ok (mkTensor (shape a) (fun idx => Radd (elem a idx) (elem b idx)))
  else Raise (RuntimeError "The size of tensor a must match the size of tensor b").

(** [index_of j perm]: the position of [j] in [perm]. *)
Fixpoint index_of (j : nat) (perm : list nat) : nat :=
  match perm with
  | [] => 0
  | p :: ps => if p =? j then 0 else S (index_of j ps)
  end.

Definition is_permutation (perm : list nat) : bool :=
  forallb (fun j => existsb (Nat.eqb j) perm) (seq 0 (length perm)).

(** [t.permute(perm)]: axis [k] of the result is axis [perm[k]] of [t]. *)
Definition permute (perm : list nat) (t : tensor) : result tensor :=
  if (length perm =? length (shape t)) && is_permutation perm then
    Ok (mkTensor (map (fun p => nth p (shape t) 0) perm)
          (fun idx => elem t (map (fun j => nth (index_of j perm) idx 0)
                                  (seq 0 (length perm)))))
  else Raise (RuntimeError "permute(): number of dims don't match in permute").

End Tensors.

Arguments tensor R : clear implicits.

End Torch.

Import Torch.

(* ===================================================================== *)
(** * More torch operations: convolution and tensor literals *)
(* ===================================================================== *)

Module Conv.

Section Conv.
Context {R : Type} {SR : Scalar R}.

(** [torch.cuda.FloatTensor(rows)] for a list of rows (tensors live on the
    CUDA device the library targets; the device is not modelled). *)
Definition FloatTensor2 (rows : list (list pyfloat)) : tensor R :=
  mkTensor [length rows; length (hd [] rows)]
    (fun idx => match idx with
                | [i; j] => of_float (nth j (nth i rows []) (S754_zero false))
                | _ => R0
                end).

(** Every index of a shape, in row-major order. *)
Fixpoint all_indices (shp : list nat) : list (list nat) :=
  match shp with
  | [] => [[]]
  | s :: rest => flat_map (fun i => map (cons i) (all_indices rest)) (seq 0 s)
  end.

Definition sum_over {A} (l : list A) (f : A -> R) : R :=
  fold_left (fun acc x => Radd acc (f x)) l R0.

(** The output extent of each spatial axis for stride 1:
    [s + 2 * p - k + 1], provided the kernel fits the padded input. *)
Fixpoint conv_out_shape (sp ps ks : list nat) : option (list nat) :=
  match sp, ps, ks with
  | [], [], [] => Some []
  | s :: sp', p :: ps', k :: ks' =>
      if (1 <=? k) && (k <=? s + 2 * p) then
        match conv_out_shape sp' ps' ks' with
        | Some out => Some ((s + 2 * p - k + 1) :: out)
        | None => None
        end
      else None
  | _, _, _ => None
  end.

(** The input index read at output position [pos] and kernel offset [off],
    or [None] in the zero padding. *)
Fixpoint padded_index (sp ps pos off : list nat) : option (list nat) :=
  match sp, ps, pos, off with
  | s :: sp', p :: ps', x :: pos', o :: off' =>
      if (p <=? x + o) && (x + o - p <? s) then
        match padded_index sp' ps' pos' off' with
        | Some rest => Some ((x + o - p) :: rest)
        | None => None
        end
      else None
  | _, _, _, _ => Some []
  end.

(** [F.conv2d(input, weight, padding=padding)] and [F.conv3d]: the
    cross-correlation of torch, stride 1, zero padding, one group. *)
Definition conv (nd : nat) (input weight : tensor R) (padding : list nat)
  : result (tensor R) :=
  match shape input, shape weight with
  | b :: cin :: sp, cout :: cin' :: ks =>
      if (length sp =? nd) && (length padding =? nd) && (cin =? cin') then
        match conv_out_shape sp padding ks with
        | Some out =>
            Ok (mkTensor (b :: cout :: out)
                  (fun idx =>
                     match idx with
                     | n :: co :: pos =>
                         sum_over (seq 0 cin) (fun ci =>
                           sum_over (all_indices ks) (fun off =>
                             match padded_index sp padding pos off with
                             | Some src =>
                                 Rmul (elem weight (co :: ci :: off))
                                      (elem input (n :: ci :: src))
                             | None => R0
                             end))
                     | _ => R0
                     end))
        | None => Raise (RuntimeError "Kernel size can't be greater than actual input size")
        end
      else Raise (RuntimeError "Expected input and weight of matching dimensions")
  | _, _ => Raise (RuntimeError "Expected 4D or 5D input")
  end.

Definition conv2d := conv 2.
Definition conv3d := conv 3.

End Conv.

End Conv.

Import Conv.

(* ===================================================================== *)
(** * cudants/utils/imageutils.py *)
(* ===================================================================== *)

(** What torch and [cudants.losses.cc] do to an image array.  Images are
    opaque to the registration code: it only hands them to these calls, which
    are taken to succeed. *)
Class ImageOps (image kernel : Type) : Type := {
  (** [image.shape] *)
  img_shape : image -> list Z;
  (** [F.interpolate(image, size=size, mode=mode, align_corners=True)] *)
  interpolate : image -> list Z -> string -> image;
  (** [gaussian_1d(s, truncated=2)] of [cudants.losses.cc], for an element
      of the float32 tensor of sigmas *)
  gaussian_1d : pyfloat -> kernel;
  (** [separable_filtering(image, gaussians)] of [cudants.losses.cc] *)
  separable_filtering : image -> list kernel -> image
}.

(** [F.grid_sample(input, grid, align_corners=True)] on tensors. *)
Class Resampler (R : Type) : Type := {
  grid_sample : tensor R -> tensor R -> result (tensor R)
}.

Module ImageUtils.

(** ** [downsample] *)

(** [0.5 * orig_size[i] / size[i]] *)
Definition infer_sigma (orig size_i : Z) : result pyfloat :=
  o <- float_of_int orig ;;
  s <- float_of_int size_i ;;
  float_truediv (float_mul float_half o) s.

(** [[0.5 * orig_size[i] / size[i] for i in range(len(orig_size))]] *)
Fixpoint infer_sigmas (orig_size size : list Z) : result (list pyfloat) :=
  match orig_size with
  | [] => Ok []
  | o :: os =>
      match size with
      | [] => Raise IndexError
      | s :: ss =>
          x <- infer_sigma o s ;;
          xs <- infer_sigmas os ss ;;
          Ok (x :: xs)
      end
  end.

Section Downsample.
Context {image kernel : Type} {IO : ImageOps image kernel}.

Definition downsample (image_ : image) (size : list Z) (mode : string)
    (sigma : option (list pyfloat)) (gaussians : option (list kernel))
  : result image :=
  gaussians' <-
    match gaussians with
    | None =>
        sigma' <-
          match sigma with
          | None =>
              let orig_size := skipn 2 (img_shape image_) in
              infer_sigmas orig_size size
          | Some s => Ok s
          end ;;
        let sigma32 := map to_float32 sigma' in
        Ok (map gaussian_1d sigma32)
    | Some g => Ok g
    end ;;
  let image_smooth := separable_filtering image_ gaussians' in
  let image_down := interpolate image_smooth size mode in
  Ok image_down.

End Downsample.

(** ** [scaling_and_squaring] *)

Section Fields.
Context {R : Type} {SR : Scalar R} {GS : Resampler R}.

(** [1.0/2**n]: the power is an [int], converted to a float by the
    division. *)
Definition scale_factor (n : nat) : result pyfloat :=
  d <- float_of_int (2 ^ Z.of_nat n) ;;
  float_truediv (float_lit 1) d.

(** One pass of the loop body, for the two axis orders. *)
Definition squaring_step (to_img from_img : list nat) (grid v : tensor R)
  : result (tensor R) :=
  vimg <- permute to_img v ;;
  g <- add v grid ;;
  s <- grid_sample vimg g ;;
  s' <- permute from_img s ;;
  add v s'.

(** [for i in range(n): v = step(v)] *)
Fixpoint iterate (n : nat) (step : tensor R -> result (tensor R)) (v : tensor R)
  : result (tensor R) :=
  match n with
  | O => Ok v
  | S k => v' <- step v ;; iterate k step v'
  end.

Definition scaling_and_squaring (u grid : tensor R) (n : nat)
  : result (tensor R) :=
  match shape u with
  | [] => Raise IndexError
  | _ =>
      let dims := last (shape u) 0 in
      if dims =? 3 then
        c <- scale_factor n ;;
        let v := scale c u in
        iterate n (squaring_step [0; 4; 1; 2; 3] [0; 2; 3; 4; 1] grid) v
      else if dims =? 2 then
        c <- scale_factor n ;;
        let v := scale c u in
        iterate n (squaring_step [0; 3; 1; 2] [0; 2; 3; 1] grid) v
      else Raise (ValueError "Invalid dimension")
  end.

(** ** [image_gradient] *)

Definition central_difference : list (list pyfloat) :=
  [[float_lit (-1); S754_zero false; float_lit 1]].

Definition image_gradient_singlechannel (image_ : tensor R)
  : result (tensor R) :=
  let dims := length (shape image_) - 2 in
  if dims =? 2 then
    (* k = torch.cuda.FloatTensor([[-1.0, 0, 1]])[None, None] *)
    let k := unsqueeze0 (unsqueeze0 (FloatTensor2 central_difference)) in
    gradx <- conv2d image_ k [0; 1] ;;
    ky <- permute [0; 1; 3; 2] k ;;
    grady <- conv2d image_ ky [1; 0] ;;
    cat1 gradx grady
  else if dims =? 3 then
    (* k = torch.cuda.FloatTensor([[[-1.0, 0, 1]]])[None, None] *)
    let k := unsqueeze0 (unsqueeze0
               (unsqueeze0 (FloatTensor2 central_difference))) in
    gradx <- conv3d image_ k [0; 0; 1] ;;
    ky <- permute [0; 1; 2; 4; 3] k ;;
    grady <- conv3d image_ ky [0; 1; 0] ;;
    kz <- permute [0; 1; 4; 2; 3] k ;;
    gradz <- conv3d image_ kz [1; 0; 0] ;;
    xy <- cat1 gradx grady ;;
    cat1 xy gradz
  else Raise (ValueError "Invalid dimension").

Definition image_gradient (image_ : tensor R) : result (tensor R) :=
  match nth_error (shape image_) 1 with
  | None => Raise IndexError
  | Some c =>
      if c =? 1 then image_gradient_singlechannel image_
      else Raise (NotImplementedError "Multichannel images not supported yet")
  end.

End Fields.

End ImageUtils.

(* ===================================================================== *)
(** * cudants/registration/affine.py *)
(* ===================================================================== *)

(** [cudants.utils.globals] *)
Class Globals : Type := {
  MIN_IMG_SIZE : Z
}.

Module Affine.

Section Registration.
Context {R : Type} {SR : Scalar R}.
Context {image kernel : Type} {IO : ImageOps image kernel}.

(** [cudants.io.image.BatchedImages], as far as the loop reads it. *)
Record BatchedImages : Type := mkBatchedImages {
  arrays : image;                 (* calling the container *)
  batch_size : nat;               (* .size() *)
  image_dims : nat;               (* .dims *)
  torch2phy : tensor R;           (* .get_torch2phy() *)
  phy2torch : tensor R;           (* .get_phy2torch() *)
  interpolate_mode : string
}.

(** What the loop asks of torch besides tensor algebra.  The loss stands for
    [self.loss_fn], whichever of [loss_type] and [custom_loss] selected it,
    followed by [.item()]; [backward] is the gradient that [loss.backward()]
    leaves on [self.affine]; the optimizer writes the new elements into the
    parameter in place. *)
Class Session (opt_state : Type) : Type := {
  (** [F.affine_grid(theta, size, align_corners=True)] *)
  affine_grid : tensor R -> list Z -> tensor R;
  (** [F.grid_sample(input, grid, mode='bilinear', align_corners=True)] *)
  grid_sample_image : image -> tensor R -> image;
  loss_item : image -> image -> pyfloat;
  backward : BatchedImages -> tensor R -> tensor R -> image -> tensor R;
  (** [SGD([affine], lr, momentum)], [Adam([affine], lr)] *)
  SGD : pyfloat -> pyfloat -> opt_state;
  Adam : pyfloat -> opt_state;
  (** [optimizer.step()]: parameter and gradient to new elements *)
  optimizer_step : opt_state -> tensor R -> tensor R ->
                   (list nat -> R) * opt_state
}.

Context {opt_state : Type} {SS : Session opt_state} {GL : Globals}.

(** ** Construction *)

Record AbstractRegistration : Type := mkAbstractRegistration {
  scales : list Z;
  iterations : list Z;
  fixed_images : BatchedImages;
  moving_images : BatchedImages;
  tolerance : pyfloat;
  max_tolerance_iters : Z;
  tolerance_mode : string
}.

(** Modelled from the spec: [AbstractRegistration.__init__] of
    [cudants/registration/abstract.py], which is not among the sources.  It
    keeps the schedule, the images and the convergence policy, and a schedule
    whose two lists differ in length is a configuration error raised here,
    at construction. *)
Definition AbstractRegistration_init (scales_ iterations_ : list Z)
    (fixed moving : BatchedImages)
    (tolerance_ : pyfloat) (max_tolerance_iters_ : Z) (tolerance_mode_ : string)
  : result AbstractRegistration :=
  if length scales_ =? length iterations_ then
    Ok (mkAbstractRegistration scales_ iterations_ fixed moving
          tolerance_ max_tolerance_iters_ tolerance_mode_)
  else Raise (ConfigurationError "scales and iterations differ in length").

Record AffineRegistration : Type := mkAffineRegistration {
  base : AbstractRegistration;
  dims : nat;
  affine : tensor R;              (* nn.Parameter *)
  row : tensor R;
  optimizer : opt_state
}.

(** [torch.eye(dims, dims+1).unsqueeze(0).repeat(n, 1, 1)] *)
Definition eye_batch (n dims_ : nat) : tensor R :=
  repeat0 n (unsqueeze0 (eye dims_ (dims_ + 1))).

(** [self.row]: [torch.zeros((n, 1, dims+1))], then [row[:, 0, -1] = 1.0]. *)
Definition init_row (n dims_ : nat) : tensor R :=
  setitem_col0_last (zeros [n; 1; dims_ + 1]) (of_float (float_lit 1)).

(** [AffineRegistration.__init__].  The extra [optimizer_params] are taken
    empty, their default. *)
Definition AffineRegistration_init (scales_ iterations_ : list Z)
    (fixed moving : BatchedImages)
    (optimizer_ : string) (optimizer_lr optimizer_momentum : pyfloat)
    (tolerance_ : pyfloat) (max_tolerance_iters_ : Z) (tolerance_mode_ : string)
    (init_rigid : option (tensor R))
  : result AffineRegistration :=
  super <- AbstractRegistration_init scales_ iterations_ fixed moving
             tolerance_ max_tolerance_iters_ tolerance_mode_ ;;
  let dims_ := image_dims (moving_images super) in
  let affine_ :=
    match init_rigid with
    | Some a => a
    | None => eye_batch (batch_size fixed) dims_
    end in
  let row_ := init_row (batch_size fixed) dims_ in
  opt <- (if String.eqb optimizer_ "SGD" then
            Ok (SGD optimizer_lr optimizer_momentum)
          else if String.eqb optimizer_ "Adam" then
            Ok (Adam optimizer_lr)
          else Raise (ValueError "Optimizer not supported")) ;;
  Ok (mkAffineRegistration super dims_ affine_ row_ opt).

Definition get_affine_matrix (self : AffineRegistration) : result (tensor R) :=
  cat1 (affine self) (row self).

(** ** The loop *)

(** What happened, in order, while a scale was iterated: each value
    [get_affine_matrix] returned, each call of the resampler, each
    convergence test. *)
Inductive event : Type :=
| Read (param affinemat : tensor R)
| Sample (param affinemat coords : tensor R) (moved_image : image)
| Test (tol_ctr : Z) (prev_loss cur_loss : pyfloat)
       (tol_ctr' : Z) (break : bool).

Record scale_trace : Type := mkScaleTrace {
  st_scale : Z;
  st_iters : Z;
  st_size_down : list Z;
  st_fixed_image_down : image;
  st_fixed_image_coords : tensor R;
  st_events : list event
}.

(** The locals that live across iterations. *)
Record locals : Type := mkLocals {
  tol_ctr : Z;
  prev_loss : pyfloat;
  moved_image : option image      (* unbound until the first iteration *)
}.

(** The convergence test of one iteration: the new counter, and whether the
    loop breaks. *)
Definition convergence_test (mode : string) (tol : pyfloat) (max_iters : Z)
    (ctr : Z) (prev cur : pyfloat) : result (Z * bool) :=
  if String.eqb mode "atol" then
    if float_lt (float_sub prev cur) tol then
      let ctr' := (ctr + 1)%Z in
      if (ctr' >? max_iters)%Z then Ok (ctr', true) else Ok (ctr', false)
    else Ok (0%Z, false)
  else if String.eqb mode "rtol" then
    q <- float_truediv (float_sub prev cur) prev ;;
    if float_lt q tol then
      let ctr' := (ctr + 1)%Z in
      if (ctr' >? max_iters)%Z then Ok (ctr', true) else Ok (ctr', false)
    else Ok (0%Z, false)
  else Ok (ctr, false).

Definition with_step (self : AffineRegistration) (vals : list nat -> R)
    (opt : opt_state) : AffineRegistration :=
  mkAffineRegistration (base self) (dims self)
    (mkTensor (shape (affine self)) vals) (row self) opt.

(** The body of [for i in pbar]; the progress bar is display only. *)
Definition iteration (self : AffineRegistration)
    (fixed_image_coords_homo : tensor R) (fixed_image_down : image)
    (loc : locals)
  : list event * AffineRegistration * result (locals * bool) :=
  let moving := moving_images (base self) in
  match get_affine_matrix self with
  | Raise e => ([], self, Raise e)
  | Ok affinemat =>
      let read := Read (affine self) affinemat in
      match (coords <- einsum_ntd affinemat fixed_image_coords_homo ;;
             einsum_ntd (phy2torch moving) coords) with
      | Raise e => ([read], self, Raise e)
      | Ok coords =>
          let moved := grid_sample_image (arrays moving) (drop_last coords) in
          let sample :=
            Sample (affine self) affinemat (drop_last coords) moved in
          let grad :=
            backward moving (affine self) fixed_image_coords_homo
              fixed_image_down in
          let '(vals, opt) :=
            optimizer_step (optimizer self) (affine self) grad in
          let self' := with_step self vals opt in
          let cur_loss := loss_item moved fixed_image_down in
          match convergence_test (tolerance_mode (base self))
                  (tolerance (base self)) (max_tolerance_iters (base self))
                  (tol_ctr loc) (prev_loss loc) cur_loss with
          | Raise e => ([read; sample], self', Raise e)
          | Ok (ctr', break) =>
              ([read; sample;
                Test (tol_ctr loc) (prev_loss loc) cur_loss ctr' break],
               self',
               Ok (mkLocals ctr'
                     (if break then prev_loss loc else cur_loss)
                     (Some moved),
                   break))
          end
      end
  end.

(** [for i in range(iters)] with its [break]. *)
Fixpoint scale_loop (iters : nat) (self : AffineRegistration)
    (fixed_image_coords_homo : tensor R) (fixed_image_down : image)
    (loc : locals)
  : list event * AffineRegistration * result locals :=
  match iters with
  | O => ([], self, Ok loc)
  | S k =>
      match iteration self fixed_image_coords_homo fixed_image_down loc with
      | (evs, self', Raise e) => (evs, self', Raise e)
      | (evs, self', Ok (loc', true)) => (evs, self', Ok loc')
      | (evs, self', Ok (loc', false)) =>
          let '(evs', self'', r) :=
            scale_loop k self' fixed_image_coords_homo fixed_image_down loc' in
          (evs ++ evs', self'', r)
      end
  end.

(** [[max(int(s / scale), MIN_IMG_SIZE) for s in fixed_size]] *)
Definition size_down (fixed_size : list Z) (scale_ : Z) : result (list Z) :=
  mapM (fun s => q <- int_of_truediv s scale_ ;; Ok (Z.max q MIN_IMG_SIZE))
       fixed_size.

(** The body of [for scale, iters in zip(...)], up to the [append]. *)
Definition scale_body (self : AffineRegistration) (scale_ iters : Z)
    (moved : option image)
  : option scale_trace * AffineRegistration * result (option image) :=
  let fixed := fixed_images (base self) in
  let fixed_arrays := arrays fixed in
  let fixed_size := skipn 2 (img_shape fixed_arrays) in
  let init_grid := eye_batch (batch_size fixed) (dims self) in
  match size_down fixed_size scale_ with
  | Raise e => (None, self, Raise e)
  | Ok size_down_ =>
      let fixed_image_down :=
        interpolate fixed_arrays size_down_ (interpolate_mode fixed) in
      let fixed_image_coords :=
        affine_grid init_grid (img_shape fixed_image_down) in
      let fixed_image_coords_homo := cat_ones_last fixed_image_coords in
      match einsum_ntd (torch2phy fixed) fixed_image_coords_homo with
      | Raise e => (None, self, Raise e)
      | Ok fixed_image_coords_homo' =>
          let '(evs, self', r) :=
            scale_loop (Z.to_nat iters) self fixed_image_coords_homo'
              fixed_image_down (mkLocals 0%Z np_inf moved) in
          (Some (mkScaleTrace scale_ iters size_down_ fixed_image_down
                   fixed_image_coords evs),
           self',
           match r with
           | Ok loc => Ok (moved_image loc)
           | Raise e => Raise e
           end)
      end
  end.

Definition cons_opt {A} (x : option A) (l : list A) : list A :=
  match x with
  | Some a => a :: l
  | None => l
  end.

(** The scales in turn; [transformed_images] grows by one image a scale. *)
Fixpoint optimize_scales (schedule : list (Z * Z)) (self : AffineRegistration)
    (save_transformed : bool) (moved : option image)
    (transformed_images : list image)
  : list scale_trace * AffineRegistration * result (list image) :=
  match schedule with
  | [] => ([], self, Ok transformed_images)
  | (scale_, iters) :: rest =>
      match scale_body self scale_ iters moved with
      | (tr, self', Raise e) => (cons_opt tr [], self', Raise e)
      | (tr, self', Ok moved') =>
          match (if save_transformed then
                   match moved' with
                   | Some img => Ok (transformed_images ++ [img])
                   | None => Raise (UnboundLocalError "moved_image")
                   end
                 else Ok transformed_images) with
          | Raise e => (cons_opt tr [], self', Raise e)
          | Ok transformed_images' =>
              let '(trs, self'', r) :=
                optimize_scales rest self' save_transformed moved'
                  transformed_images' in
              (cons_opt tr trs, self'', r)
          end
      end
  end.

(** What a call can hand back to Python. *)
Inductive pyvalue : Type :=
| PyNone
| PyTensor (t : tensor R)
| PyImages (l : list image)
| PyPair (a b : pyvalue).

Definition optimize (self : AffineRegistration) (save_transformed : bool)
  : list scale_trace * AffineRegistration * result pyvalue :=
  let '(trs, self', r) :=
    optimize_scales (combine (scales (base self)) (iterations (base self)))
      self save_transformed None [] in
  (trs, self',
   match r with
   | Raise e => Raise e
   | Ok transformed_images =>
       if save_transformed then Ok (PyImages transformed_images)
       else Ok PyNone
   end).

(** ** Reading a trace *)

(** What no step of the loop changes: the configuration, the fixed row and
    the shape of the parameter. *)
Definition same_session (a b : AffineRegistration) : Prop :=
  base b = base a /\ dims b = dims a /\ row b = row a /\
  shape (affine b) = shape (affine a).

(** What an event records, for a scale whose grid in physical space is
    [homo]: a read is the concatenation of the parameter of that moment and
    the row; a sample is made at the coordinates the two products give; a
    test is the convergence test on the locals of that moment. *)
Definition event_ok (self : AffineRegistration) (homo : tensor R)
    (ev : event) : Prop :=
  match ev with
  | Read param m =>
      shape param = shape (affine self) /\ cat1 param (row self) = Ok m
  | Sample param m coords moved =>
      shape param = shape (affine self) /\ cat1 param (row self) = Ok m /\
      (exists c1 c2,
          einsum_ntd m homo = Ok c1 /\
          einsum_ntd (phy2torch (moving_images (base self))) c1 = Ok c2 /\
          coords = drop_last c2) /\
      moved = grid_sample_image (arrays (moving_images (base self))) coords
  | Test c p cur c' b =>
      convergence_test (tolerance_mode (base self)) (tolerance (base self))
        (max_tolerance_iters (base self)) c p cur = Ok (c', b)
  end.

(** The shapes of the data model: a parameter of shape [N, dims, dims+1], the
    row as built, physical transforms of shape [N, dims+1, dims+1], and a
    sampling grid of shape [N, ..., dims] for every target size with one
    extent per spatial axis of the fixed image. *)
Definition well_shaped (self : AffineRegistration) : Prop :=
  let fixed := fixed_images (base self) in
  let moving := moving_images (base self) in
  let n := batch_size fixed in
  let d := dims self in
  shape (affine self) = [n; d; d + 1] /\
  row self = init_row n d /\
  shape (torch2phy fixed) = [n; d + 1; d + 1] /\
  shape (phy2torch moving) = [n; d + 1; d + 1] /\
  forall size,
    length size = length (skipn 2 (img_shape (arrays fixed))) ->
    exists sp,
      shape (affine_grid (eye_batch n d)
               (img_shape (interpolate (arrays fixed) size
                             (interpolate_mode fixed))))
      = n :: sp ++ [d].

End Registration.

Arguments BatchedImages R image : clear implicits.
Arguments AbstractRegistration R image : clear implicits.
Arguments AffineRegistration R image opt_state : clear implicits.
Arguments event R image : clear implicits.
Arguments scale_trace R image : clear implicits.
Arguments pyvalue R image : clear implicits.

End Affine.

(* ===================================================================== *)
(** * What the specification says, in its own words *)
(* ===================================================================== *)

Module Spec.

Section Spec.
Context {R : Type} {SR : Scalar R}.
Context {image : Type}.

(** ** The coordinate pipeline, one point at a time *)

Definition dot (a b : list R) : R :=
  fold_left (fun acc xy => Radd acc (Rmul (fst xy) (snd xy))) (combine a b) R0.

Definition matvec (m : list (list R)) (x : list R) : list R :=
  map (fun r => dot r x) m.

(** The matrix of batch item [n] in a tensor of shape [N, T, D]. *)
Definition matrix_of (m : tensor R) (n : nat) : list (list R) :=
  map (fun t => map (fun d => elem m [n; t; d]) (seq 0 (nth 2 (shape m) 0)))
      (seq 0 (nth 1 (shape m) 0)).

(** The grid point at position [pos] (batch item and spatial position). *)
Definition point_of (grid : tensor R) (pos : list nat) : list R :=
  map (fun d => elem grid (pos ++ [d])) (seq 0 (last (shape grid) 0)).

(** Append a constant 1; apply the fixed normalized-to-physical transform,
    the affine matrix, the moving physical-to-normalized transform; drop the
    homogeneous coordinate. *)
Definition pipeline_point (moving_p2t affinemat fixed_t2p : list (list R))
    (x : list R) : list R :=
  removelast (matvec moving_p2t (matvec affinemat (matvec fixed_t2p (x ++ [R1])))).

Definition pipeline (moving_p2t affinemat fixed_t2p grid : tensor R) : tensor R :=
  mkTensor (removelast (shape grid) ++ [nth 1 (shape moving_p2t) 0 - 1])
    (fun idx =>
       let n := hd 0 idx in
       nth (last idx 0)
           (pipeline_point (matrix_of moving_p2t n) (matrix_of affinemat n)
              (matrix_of fixed_t2p n) (point_of grid (removelast idx)))
           R0).

(** ** The pipeline as one matrix *)

(** The product of two batches of matrices, [a[n] . b[n]]. *)
Definition matmul (a b : tensor R) : tensor R :=
  mkTensor [nth 0 (shape a) 0; nth 1 (shape a) 0; nth 2 (shape b) 0]
    (fun idx =>
       match idx with
       | [n; t; d] =>
           sum_upto (nth 2 (shape a) 0)
             (fun k => Rmul (elem a [n; t; k]) (elem b [n; k; d]))
       | _ => R0
       end).

(** [moving_p2t . affine . fixed_t2p] *)
Definition composed (moving_p2t affinemat fixed_t2p : tensor R) : tensor R :=
  matmul (matmul moving_p2t affinemat) fixed_t2p.

(** Arithmetic without rounding: the laws of a semiring.  The floats of a
    tensor do not have them; the integers and the rationals do. *)
Definition exact_arithmetic : Prop :=
  (forall a b c : R, Radd a (Radd b c) = Radd (Radd a b) c) /\
  (forall a b : R, Radd a b = Radd b a) /\
  (forall a : R, Radd R0 a = a) /\
  (forall a b c : R, Rmul a (Rmul b c) = Rmul (Rmul a b) c) /\
  (forall a b c : R, Rmul a (Radd b c) = Radd (Rmul a b) (Rmul a c)) /\
  (forall a b c : R, Rmul (Radd a b) c = Radd (Rmul a c) (Rmul b c)) /\
  (forall a : R, Rmul R0 a = R0) /\
  (forall a : R, Rmul a R0 = R0).

(** ** The operative matrix *)

(** Shape [batch, dims+1, dims+1], and the last row of every batch item is
    [0, ..., 0, 1]. *)
Definition homogeneous (batch dims_ : nat) (m : tensor R) : Prop :=
  shape m = [batch; dims_ + 1; dims_ + 1] /\
  forall n j, n < batch -> j < dims_ + 1 ->
    elem m [n; dims_; j] = if j =? dims_ then R1 else R0.

(** ** The convergence policy *)

(** Previous minus current, divided by previous in rtol mode. *)
Definition improvement (mode : string) (prev cur : pyfloat) : result pyfloat :=
  if String.eqb mode "rtol" then float_truediv (float_sub prev cur) prev
  else Ok (float_sub prev cur).

Definition below_tolerance (mode : string) (tol prev cur : pyfloat)
  : result bool :=
  i <- improvement mode prev cur ;; Ok (float_lt i tol).

(** A test as the loop made it: the counter and previous loss it found, the
    current loss, the counter it left, whether it stopped the scale. *)
Definition test_record : Type := Z * pyfloat * pyfloat * Z * bool.

Definition tests_of (evs : list (Affine.event R image)) : list test_record :=
  flat_map (fun ev =>
              match ev with
              | Affine.Test c p l c' b => [(c, p, l, c', b)]
              | _ => []
              end) evs.

(** The tests of a scale, as the policy prescribes them from a counter [c]
    and a previous loss [p]: the counter goes up by one when the improvement
    is below the tolerance and back to 0 otherwise; the scale stops at the
    first test that leaves the counter above [max_iters]. *)
Inductive counter_run (mode : string) (tol : pyfloat) (max_iters : Z)
  : Z -> pyfloat -> list test_record -> Prop :=
| run_done c p : counter_run mode tol max_iters c p []
| run_step c p cur b rest :
    below_tolerance mode tol p cur = Ok b ->
    (((if b then c + 1 else 0) >? max_iters)%Z = true -> rest = []) ->
    counter_run mode tol max_iters (if b then c + 1 else 0)%Z cur rest ->
    counter_run mode tol max_iters c p
      ((c, p, cur, (if b then c + 1 else 0), (if b then c + 1 else 0) >? max_iters)%Z
       :: rest).

Definition stopped (t : test_record) : bool := snd t.

(** ** What [optimize] is to return *)

(** The final affine matrix, and with it the list of moved images when the
    caller asked for them. *)
Definition returns_final_matrix (save_transformed : bool)
    (final_matrix : tensor R) (v : Affine.pyvalue R image) : Prop :=
  if save_transformed then
    exists m imgs, v = Affine.PyPair (Affine.PyTensor m) (Affine.PyImages imgs)
                   /\ tensor_eq m final_matrix
  else
    exists m, v = Affine.PyTensor m /\ tensor_eq m final_matrix.

End Spec.

Section SpecLoop.
Context {R : Type} {SR : Scalar R}.
Context {image : Type}.
Context {opt_state : Type}
        {SS : Affine.Session (R := R) (image := image) opt_state}.

(** A call of the resampler: the matrix is the parameter of that moment on
    top of the row, the coordinates are the pipeline applied to the grid of
    the scale, and the moving image is sampled there. *)
Definition sampled_through_pipeline
    (self : Affine.AffineRegistration R image opt_state) (grid : tensor R)
    (ev : Affine.event R image) : Prop :=
  match ev with
  | Affine.Sample param m coords moved =>
      let fixed := Affine.fixed_images (Affine.base self) in
      let moving := Affine.moving_images (Affine.base self) in
      cat1 param (Affine.row self) = Ok m /\
      tensor_eq coords
        (pipeline (Affine.phy2torch moving) m (Affine.torch2phy fixed) grid) /\
      moved = Affine.grid_sample_image (Affine.arrays moving) coords
  | _ => True
  end.

(** The image of the last call of the resampler among some events. *)
Fixpoint last_moved (evs : list (Affine.event R image)) : option image :=
  match evs with
  | [] => None
  | ev :: rest =>
      match last_moved rest with
      | Some img => Some img
      | None =>
          match ev with
          | Affine.Sample _ _ _ moved => Some moved
          | _ => None
          end
      end
  end.

(** The same call, with the three matrices multiplied first. *)
Definition sampled_through_composed
    (self : Affine.AffineRegistration R image opt_state) (grid : tensor R)
    (ev : Affine.event R image) : Prop :=
  match ev with
  | Affine.Sample _ m coords _ =>
      let fixed := Affine.fixed_images (Affine.base self) in
      let moving := Affine.moving_images (Affine.base self) in
      exists c,
        einsum_ntd (composed (Affine.phy2torch moving) m
                      (Affine.torch2phy fixed))
          (cat_ones_last grid) = Ok c /\
        tensor_eq coords (drop_last c)
  | _ => True
  end.

Definition is_sample (ev : Affine.event R image) : bool :=
  match ev with
  | Affine.Sample _ _ _ _ => true
  | _ => false
  end.

End SpecLoop.

Section SpecFields.
Context {R : Type} {SR : Scalar R} {GS : Resampler R}.

(** A velocity field: [B, D, H, W, 3] or [B, H, W, 2]. *)
Definition field_shape (shp : list nat) : Prop :=
  (exists b d h w, shp = [b; d; h; w; 3]) \/ (exists b h w, shp = [b; h; w; 2]).

(** ** What is asked of the arithmetic and of the resampler *)

(** A sum of zeros is a zero. *)
Definition zero_closed : Prop :=
  forall a b : R,
    is_zero a = true -> is_zero b = true -> is_zero (Radd a b) = true.

(** The factor [1.0/2**n] times a zero is a zero. *)
Definition scaling_keeps_zero (n : nat) : Prop :=
  forall c (a : R),
    ImageUtils.scale_factor n = Ok c ->
    is_zero a = true -> is_zero (Rmul (of_float c) a) = true.

(** Sampling an image on a grid of its own extent gives an image of that
    extent. *)
Definition resamples_in_place : Prop :=
  forall (img g : tensor R) b c sp,
    shape img = b :: c :: sp -> shape g = b :: sp ++ [length sp] ->
    exists t, grid_sample img g = Ok t /\ shape t = b :: c :: sp.

(** Interpolating in an all-zero image gives zeros. *)
Definition resampling_keeps_zero : Prop :=
  forall (img g t : tensor R),
    grid_sample img g = Ok t -> all_zero img -> all_zero t.

End SpecFields.

End Spec.

(* ===================================================================== *)
(** * Instances to run the code on *)
(* ===================================================================== *)

(** float32 elements, the default dtype of torch. *)
#[export] Instance float32 : Scalar spec_float := {
  Radd := SFadd 24 128;
  Rmul := SFmul 24 128;
  of_float := to_float32;
  is_zero := float_is_zero
}.

(** Integer elements, where the arithmetic is exact. *)
Definition Z_of_float (x : pyfloat) : Z :=
  match x with
  | S754_finite s m e =>
      let v := match e with
               | Zneg p => (Zpos m / 2 ^ Zpos p)%Z
               | _ => (Zpos m * 2 ^ e)%Z
               end in
      if s then (- v)%Z else v
  | _ => 0%Z
  end.

#[export] Instance exact_Z : Scalar Z := {
  Radd := Z.add;
  Rmul := Z.mul;
  of_float := Z_of_float;
  is_zero := Z.eqb 0
}.

Module Sym.

(** Images kept as the calls that made them. *)
Inductive kernel : Type :=
| Gaussian1d (sigma : pyfloat).

Inductive image : Type :=
| Arrays (name : string) (shp : list Z)
| Interpolate (input : image) (size : list Z) (mode : string)
| SeparableFiltering (input : image) (gaussians : list kernel)
| GridSample (input : image) (grid : tensor spec_float).

Fixpoint image_shape (i : image) : list Z :=
  match i with
  | Arrays _ shp => shp
  | Interpolate x size _ => firstn 2 (image_shape x) ++ size
  | SeparableFiltering x _ => image_shape x
  | GridSample x grid =>
      firstn 2 (image_shape x)
      ++ map Z.of_nat (removelast (tl (shape grid)))
  end.

#[export] Instance image_ops : ImageOps image kernel := {
  img_shape := image_shape;
  interpolate := Interpolate;
  gaussian_1d := Gaussian1d;
  separable_filtering := SeparableFiltering
}.

(** Whether a Gaussian smoothing went into an image. *)
Fixpoint smoothed (i : image) : bool :=
  match i with
  | Arrays _ _ => false
  | Interpolate x _ _ => smoothed x
  | SeparableFiltering _ _ => true
  | GridSample x _ => smoothed x
  end.

(** The position [i] of [s] samples spread over [-1, 1], ends included. *)
Definition linspace (s i : nat) : spec_float :=
  if s <=? 1 then S754_zero false
  else SFdiv 24 128
         (binary_normalize 24 128 (2 * Z.of_nat i - (Z.of_nat s - 1)) 0 false)
         (binary_normalize 24 128 (Z.of_nat s - 1) 0 false).

(** [F.affine_grid]: [theta] applied to the base grid, whose coordinates
    run over the axes from the last to the first, then a constant 1. *)
Definition affine_grid_model (theta : tensor spec_float) (size : list Z)
  : tensor spec_float :=
  let spatial := map Z.to_nat (skipn 2 size) in
  let nd := length spatial in
  mkTensor (Z.to_nat (hd 0%Z size) :: spatial ++ [nd])
    (fun idx =>
       let pos := removelast (tl idx) in
       sum_upto (nd + 1) (fun d =>
         SFmul 24 128 (elem theta [hd 0 idx; last idx 0; d])
           (if d <? nd then
              linspace (nth (nd - 1 - d) spatial 0) (nth (nd - 1 - d) pos 0)
            else R1))).

(** Plain gradient descent on a loss that is constantly 1. *)
#[export] Instance session : Affine.Session (R := spec_float) (image := image) pyfloat := {
  Affine.affine_grid := affine_grid_model;
  Affine.grid_sample_image := GridSample;
  Affine.loss_item := fun _ _ => float_lit 1;
  Affine.backward := fun _ param _ _ => zeros (shape param);
  Affine.SGD := fun lr _ => lr;
  Affine.Adam := fun lr => lr;
  Affine.optimizer_step := fun lr param grad =>
    (fun idx => SFadd 24 128 (elem param idx)
                  (SFmul 24 128 (to_float32 (SFopp lr)) (elem grad idx)),
     lr)
}.

#[export] Instance globals : Globals := { MIN_IMG_SIZE := 8 }.

(** Sampling on a grid of the extent of the input, read as the identity
    grid: every output element is the input element at its position. *)
#[export] Instance resampler : Resampler spec_float := {
  grid_sample := fun input grid =>
    match shape input, shape grid with
    | b :: c :: sp, b' :: rest =>
        if (b =? b') && shape_eqb (sp ++ [length sp]) rest then
          Ok (mkTensor (b :: c :: sp) (elem input))
        else Raise (RuntimeError "grid_sample(): grid and input do not match")
    | _, _ => Raise (RuntimeError "grid_sample(): expected 4D or 5D input")
    end
}.

(** ** A small registration: two 16 x 16 planar images *)

Definition identity_phys : tensor spec_float :=
  repeat0 1 (unsqueeze0 (eye 3 3)).

Definition fixed : Affine.BatchedImages spec_float image :=
  Affine.mkBatchedImages (Arrays "fixed" [1; 1; 16; 16]%Z) 1 2
    identity_phys identity_phys "bilinear".

Definition moving : Affine.BatchedImages spec_float image :=
  Affine.mkBatchedImages (Arrays "moving" [1; 1; 16; 16]%Z) 1 2
    identity_phys identity_phys "bilinear".

Definition tenth : pyfloat := S754_finite false 7205759403792794 (-56).

Definition built (mode : string)
  : Affine.AffineRegistration spec_float image pyfloat :=
  Affine.mkAffineRegistration
    (Affine.mkAbstractRegistration [2; 1]%Z [3; 2]%Z fixed moving
       (S754_zero false) 10%Z mode)
    2 (Affine.eye_batch 1 2) (Affine.init_row 1 2) tenth.

Definition registration (mode : string)
  : result (Affine.AffineRegistration spec_float image pyfloat) :=
  Affine.AffineRegistration_init [2; 1]%Z [3; 2]%Z fixed moving
    "SGD" tenth (S754_zero false)
    (S754_zero false) 10%Z mode None.

(** ** Velocity fields *)

Definition zero_field (shp : list nat) : tensor spec_float := zeros shp.

(** The identity grid of an image of shape [size] = [N, C, spatial...]. *)
Definition identity_grid (size : list Z) : tensor spec_float :=
  affine_grid_model
    (Affine.eye_batch (Z.to_nat (hd 0%Z size)) (length size - 2)) size.

End Sym.

(* ===================================================================== *)
(** * The rest of imageutils.py, and more ways to read a run *)
(* ===================================================================== *)

Module ImageUtilsRest.

(** Two floats are the same datum (NaN is NaN, the two zeros differ). *)
Definition float_eqb (x y : pyfloat) : bool :=
  match x, y with
  | S754_zero a, S754_zero b => Bool.eqb a b
  | S754_infinity a, S754_infinity b => Bool.eqb a b
  | S754_nan, S754_nan => true
  | S754_finite a m e, S754_finite b m' e' =>
      Bool.eqb a b && Pos.eqb m m' && Z.eqb e e'
  | _, _ => false
  end.

(** [0.5 * k] for an [int] [k]: half the downsampling factor. *)
Definition half_of (k : Z) : pyfloat := float_mul float_half (float_lit k).

(** The integers from [lo] on, [n] of them. *)
Definition Zseq (lo : Z) (n : nat) : list Z :=
  map (fun i => (lo + Z.of_nat i)%Z) (seq 0 n).

Section ApplyGaussian.
Context {image kernel : Type} {IO : ImageOps image kernel}.

(** [gaussian_1d(s, truncated=truncated)] of [cudants.losses.cc], at any
    truncation. *)
Variable gaussian_1d_truncated : pyfloat -> pyfloat -> kernel.

(** [apply_gaussian]; [sigma] is a tensor already, its elements are taken
    as they are. *)
Definition apply_gaussian (image_ : image) (sigma : list pyfloat)
    (truncated : pyfloat) : image :=
  let gaussians := map (fun s => gaussian_1d_truncated s truncated) sigma in
  let image_smooth := separable_filtering image_ gaussians in
  image_smooth.

End ApplyGaussian.

End ImageUtilsRest.

Module Trace.

Section Trace.
Context {R : Type} {SR : Scalar R}.
Context {image : Type}.
Context {opt_state : Type}
        {SS : Affine.Session (R := R) (image := image) opt_state}.

(** The parameter at each call of [get_affine_matrix] that returned. *)
Definition reads_of (evs : list (Affine.event R image)) : list (tensor R) :=
  flat_map (fun ev =>
              match ev with
              | Affine.Read param _ => [param]
              | _ => []
              end) evs.

Definition all_reads (trs : list (Affine.scale_trace R image))
  : list (tensor R) :=
  flat_map (fun st => reads_of (Affine.st_events st)) trs.

(** The parameter and the optimizer after one [optimizer.step()] on a
    gradient. *)
Definition step_of (opt : opt_state) (param grad : tensor R)
  : tensor R * opt_state :=
  (mkTensor (shape param) (fst (Affine.optimizer_step opt param grad)),
   snd (Affine.optimizer_step opt param grad)).

(** [param_chain raised s reads s']: from the parameter and optimizer [s],
    the parameters read are [reads], each the step of the one before it on
    some gradient, and [s'] is what the last step left; [raised] tells that
    the last read was not followed by a step. *)
Inductive param_chain
  : bool -> tensor R * opt_state -> list (tensor R) ->
    tensor R * opt_state -> Prop :=
| chain_end s : param_chain false s [] s
| chain_raise p opt : param_chain true (p, opt) [p] (p, opt)
| chain_step raised p opt grad rest final :
    param_chain raised (step_of opt p grad) rest final ->
    param_chain raised (p, opt) (p :: rest) final.

(** The parameter and the optimizer of a registration. *)
Definition store (self : Affine.AffineRegistration R image opt_state)
  : tensor R * opt_state :=
  (Affine.affine self, Affine.optimizer self).

(** The scale and budget of each scale that left a trace. *)
Definition schedule_of (trs : list (Affine.scale_trace R image))
  : list (Z * Z) :=
  map (fun st => (Affine.st_scale st, Affine.st_iters st)) trs.

(** What [moved_image] is bound to at the end of each scale, from its
    binding [moved] before the first: the image of the last call of the
    resampler so far. *)
Fixpoint carried (moved : option image)
    (trs : list (Affine.scale_trace R image)) : list (option image) :=
  match trs with
  | [] => []
  | st :: rest =>
      let moved' := match Spec.last_moved (Affine.st_events st) with
                    | Some img => Some img
                    | None => moved
                    end in
      moved' :: carried moved' rest
  end.

(** Events that are iterations in turn: a read, a call of the resampler
    with the parameter and the matrix just read, a test; the last iteration
    may end after the read or after the call. *)
Inductive iterations_of : list (Affine.event R image) -> Prop :=
| iters_done : iterations_of []
| iters_read param m : iterations_of [Affine.Read param m]
| iters_sample param m coords moved :
    iterations_of [Affine.Read param m; Affine.Sample param m coords moved]
| iters_next param m coords moved c p cur c' b rest :
    iterations_of rest ->
    iterations_of (Affine.Read param m :: Affine.Sample param m coords moved ::
                   Affine.Test c p cur c' b :: rest).

(** A batch of identity matrices. *)
Definition identity_batch (n d : nat) (m : tensor R) : Prop :=
  shape m = [n; d; d] /\
  forall b i j, b < n -> i < d -> j < d ->
    elem m [b; i; j] = if i =? j then R1 else R0.

End Trace.

End Trace.

Section Laws.
Context {R : Type} {SR : Scalar R}.

(** The central difference at position [x] of an axis of extent [s], for
    the values [at_] along the axis: -1 times the value before plus the
    value after, a neighbour beyond the border counting as 0. *)
Definition central (s x : nat) (at_ : nat -> R) : R :=
  Radd (if 1 <=? x then Rmul (of_float (float_lit (-1))) (at_ (x - 1))
        else R0)
       (if x + 1 <? s then at_ (x + 1) else R0).

(** Element arithmetic in which the zero of [torch.zeros] is neutral for
    the sum and absorbs in a product, and the one of [torch.ones] is
    neutral for the product. *)
Definition unital_arithmetic : Prop :=
  (forall a : R, Radd R0 a = a) /\
  (forall a : R, Radd a R0 = a) /\
  (forall a : R, Rmul R0 a = R0) /\
  (forall a : R, Rmul R1 a = a).

End Laws.

Arguments unital_arithmetic R {SR}.

(* ===================================================================== *)
(** * More cases to run the code on *)
(* ===================================================================== *)

Module Cases.

(** The registration of [Sym.built], on any schedule. *)
Definition built_with (scales_ iterations_ : list Z) (mode : string)
  : Affine.AffineRegistration spec_float Sym.image pyfloat :=
  Affine.mkAffineRegistration
    (Affine.mkAbstractRegistration scales_ iterations_ Sym.fixed Sym.moving
       (S754_zero false) 10%Z mode)
    2 (Affine.eye_batch 1 2) (Affine.init_row 1 2) Sym.tenth.

(** A matrix without a batch axis. *)
Definition flat_matrix : tensor spec_float := eye 2 3.

(** A planar velocity field that is 1.0 everywhere, and a field with last
    extent 3 on two axes only. *)
Definition ones_field : tensor spec_float :=
  mkTensor [1; 4; 4; 2] (fun _ => R1).

Definition flat_field : tensor spec_float := zeros [5; 3].

(** An image of 16 x 16 on one channel, and one of 12 x 8. *)
Definition square_image : Sym.image := Sym.Arrays "image" [1; 1; 16; 16]%Z.

Definition oblong_image : Sym.image := Sym.Arrays "image" [1; 1; 12; 8]%Z.

(** Integer images, the value at a position being the square of its number
    in row-major order. *)
Definition plane : tensor Z :=
  mkTensor [1; 1; 3; 4]
    (fun idx => let p := Z.of_nat (4 * nth 2 idx 0 + nth 3 idx 0) in
                (p * p)%Z).

Definition volume : tensor Z :=
  mkTensor [1; 1; 2; 3; 4]
    (fun idx =>
       let p := Z.of_nat (12 * nth 2 idx 0 + 4 * nth 3 idx 0 + nth 4 idx 0) in
       (p * p)%Z).

(** ** A registration in integers *)

Inductive zimage : Type :=
| ZArrays (shp : list Z)
| ZInterpolate (input : zimage) (size : list Z)
| ZSeparableFiltering (input : zimage) (gaussians : list Sym.kernel)
| ZGridSample (input : zimage) (grid : tensor Z).

Fixpoint zimage_shape (i : zimage) : list Z :=
  match i with
  | ZArrays shp => shp
  | ZInterpolate x size => firstn 2 (zimage_shape x) ++ size
  | ZSeparableFiltering x _ => zimage_shape x
  | ZGridSample x grid =>
      firstn 2 (zimage_shape x)
      ++ map Z.of_nat (removelast (tl (shape grid)))
  end.

#[export] Instance zimage_ops : ImageOps zimage Sym.kernel := {
  img_shape := zimage_shape;
  interpolate := fun x size _ => ZInterpolate x size;
  gaussian_1d := Sym.Gaussian1d;
  separable_filtering := ZSeparableFiltering
}.

(** A grid in whole pixels: [theta] applied to the position numbers along
    the axes, from the last to the first, then a constant 1. *)
Definition pixel_grid (theta : tensor Z) (size : list Z) : tensor Z :=
  let spatial := map Z.to_nat (skipn 2 size) in
  let nd := length spatial in
  mkTensor (Z.to_nat (hd 0%Z size) :: spatial ++ [nd])
    (fun idx =>
       let pos := removelast (tl idx) in
       sum_upto (nd + 1) (fun d =>
         Z.mul (elem theta [hd 0 idx; last idx 0; d])
           (if d <? nd then Z.of_nat (nth (nd - 1 - d) pos 0) else 1%Z))).

(** A loss that is constantly 1 and an optimizer that adds the gradient,
    which is 0. *)
#[export] Instance zsession
  : Affine.Session (R := Z) (image := zimage) unit := {
  Affine.affine_grid := pixel_grid;
  Affine.grid_sample_image := ZGridSample;
  Affine.loss_item := fun _ _ => float_lit 1;
  Affine.backward := fun _ param _ _ => zeros (shape param);
  Affine.SGD := fun _ _ => tt;
  Affine.Adam := fun _ => tt;
  Affine.optimizer_step := fun _ param grad =>
    (fun idx => Z.add (elem param idx) (elem grad idx), tt)
}.

Definition zidentity : tensor Z := repeat0 1 (unsqueeze0 (eye 3 3)).

Definition zimages : Affine.BatchedImages Z zimage :=
  Affine.mkBatchedImages (ZArrays [1; 1; 16; 16]%Z) 1 2
    zidentity zidentity "bilinear".

Definition zbuilt : Affine.AffineRegistration Z zimage unit :=
  Affine.mkAffineRegistration
    (Affine.mkAbstractRegistration [2; 1]%Z [2; 1]%Z zimages zimages
       (S754_zero false) 10%Z "atol")
    2 (Affine.eye_batch 1 2) (Affine.init_row 1 2) tt.

End Cases.

(* ===================================================================== *)
(** * Properties of the registration loop *)
(* ===================================================================== *)

Import Affine.

Section LoopFacts.
Context {R : Type} {SR : Scalar R}.
Context {image kernel : Type} {IO : ImageOps image kernel}.
Context {opt_state : Type} {SS : Session (R := R) (image := image) opt_state}.
Context {GL : Globals}.

Lemma same_session_refl (a : AffineRegistration R image opt_state) :
  same_session a a.
Proof. repeat split. Qed.

Lemma same_session_trans (a b c : AffineRegistration R image opt_state) :
  same_session a b -> same_session b c -> same_session a c.
Proof.
  intros (H1 & H2 & H3 & H4) (K1 & K2 & K3 & K4).
  repeat split; congruence.
Qed.

Lemma with_step_same_session (self : AffineRegistration R image opt_state)
    vals opt :
  same_session self (with_step self vals opt).
Proof. repeat split. Qed.

Lemma iteration_same_session self homo fd loc evs self' r :
  iteration self homo fd loc = (evs, self', r) -> same_session self self'.
Proof.
  unfold iteration.
  destruct (get_affine_matrix self) as [m|e].
  2:{ intros H; inversion H; subst; apply same_session_refl. }
  destruct (Py.bind _ _) as [c|e].
  2:{ intros H; inversion H; subst; apply same_session_refl. }
  destruct (optimizer_step _ _ _) as [vals opt].
  destruct (convergence_test _ _ _ _ _ _) as [[c' b]|e];
    intros H; inversion H; subst; apply with_step_same_session.
Qed.

Lemma scale_loop_same_session iters :
  forall self homo fd loc evs self' r,
    scale_loop iters self homo fd loc = (evs, self', r) ->
    same_session self self'.
Proof.
  induction iters as [|k IH]; intros self homo fd loc evs self' r; simpl.
  - intros H; inversion H; subst; apply same_session_refl.
  - destruct (iteration self homo fd loc) as [[evs1 self1] r1] eqn:E1.
    pose proof (iteration_same_session _ _ _ _ E1) as S1.
    destruct r1 as [[loc1 [|]]|e].
    + intros H; inversion H; subst; exact S1.
    + destruct (scale_loop k self1 homo fd loc1) as [[evs2 self2] r2] eqn:E2.
      intros H; inversion H; subst.
      eapply same_session_trans; [exact S1 | eapply IH; exact E2].
    + intros H; inversion H; subst; exact S1.
Qed.

(** A scale that left a trace ran the loop from a counter of 0 and a previous
    loss of +infinity, on the grid of the image interpolated to the target
    size. *)
Lemma scale_body_trace self scale_ iters moved st self' r :
  scale_body self scale_ iters moved = (Some st, self', r) ->
  let fixed := fixed_images (base self) in
  st_scale st = scale_ /\ st_iters st = iters /\
  size_down (skipn 2 (img_shape (arrays fixed))) scale_ = Ok (st_size_down st) /\
  st_fixed_image_down st =
    interpolate (arrays fixed) (st_size_down st) (interpolate_mode fixed) /\
  st_fixed_image_coords st =
    affine_grid (eye_batch (batch_size fixed) (dims self))
      (img_shape (st_fixed_image_down st)) /\
  exists homo r',
    einsum_ntd (torch2phy fixed) (cat_ones_last (st_fixed_image_coords st))
      = Ok homo /\
    scale_loop (Z.to_nat iters) self homo (st_fixed_image_down st)
      (mkLocals 0%Z np_inf moved) = (st_events st, self', r') /\
    r = match r' with Ok loc => Ok (moved_image loc) | Raise e => Raise e end.
Proof.
  unfold scale_body.
  destruct (size_down _ scale_) as [sz|e]; [|discriminate].
  destruct (einsum_ntd _ _) as [homo|e] eqn:Eh; [|discriminate].
  destruct (scale_loop _ _ _ _ _) as [[evs s1] r1] eqn:El.
  intros H; inversion H; subst; simpl.
  repeat split; try reflexivity.
  exists homo, r1. repeat split; assumption.
Qed.

Lemma scale_body_same_session self scale_ iters moved tr self' r :
  scale_body self scale_ iters moved = (tr, self', r) ->
  same_session self self'.
Proof.
  unfold scale_body.
  destruct (size_down _ scale_) as [sz|e].
  2:{ intros H; inversion H; subst; apply same_session_refl. }
  destruct (einsum_ntd _ _) as [homo|e].
  2:{ intros H; inversion H; subst; apply same_session_refl. }
  destruct (scale_loop _ _ _ _ _) as [[evs s1] r1] eqn:El.
  intros H; inversion H; subst.
  eapply scale_loop_same_session; exact El.
Qed.

Lemma cons_opt_app {A} (x : option A) (l l' : list A) :
  cons_opt x (l ++ l') = cons_opt x l ++ l'.
Proof. destruct x; reflexivity. Qed.

(** Every scale trace of a run is the trace of one pass of the scale body,
    on a pair of the schedule; a pass that raised ended the run, with the
    same exception, and its trace is the last. *)
Lemma optimize_scales_traces schedule :
  forall (self : AffineRegistration R image opt_state) save moved timgs
         trs self' r,
    optimize_scales schedule self save moved timgs = (trs, self', r) ->
    same_session self self' /\
    forall st, In st trs ->
      exists self_k moved_k self_k' r_k,
        same_session self self_k /\
        In (st_scale st, st_iters st) schedule /\
        scale_body self_k (st_scale st) (st_iters st) moved_k
          = (Some st, self_k', r_k) /\
        (forall e, r_k = Raise e ->
           r = Raise e /\ exists front, trs = front ++ [st]).
Proof.
  induction schedule as [|[sc it] rest IH];
    intros self save moved timgs trs self' r; simpl.
  - intros H; inversion H; subst. split; [apply same_session_refl|].
    intros st [].
  - destruct (scale_body self sc it moved) as [[tr s1] r1] eqn:Eb.
    pose proof (scale_body_same_session _ _ _ _ Eb) as S1.
    assert (Hhead : forall st, In st (cons_opt tr []) ->
              tr = Some st /\
              same_session self self /\
              In (st_scale st, st_iters st) ((sc, it) :: rest) /\
              scale_body self (st_scale st) (st_iters st) moved
                = (Some st, s1, r1)).
    { intros st Hin. destruct tr as [st0|]; simpl in Hin; [|contradiction].
      destruct Hin as [<-|[]].
      destruct (scale_body_trace _ _ _ _ Eb) as (Hs & Hi & _).
      rewrite Hs, Hi. split; [reflexivity|].
      split; [apply same_session_refl|].
      split; [left; reflexivity | exact Eb]. }
    destruct r1 as [moved'|e].
    2:{ intros H; inversion H; subst. split; [exact S1|].
        intros st Hin. destruct (Hhead st Hin) as (-> & A1 & A2 & A3).
        exists self, moved, self', (Raise e).
        split; [exact A1|]. split; [exact A2|]. split; [exact A3|].
        intros e' He'. injection He' as <-.
        split; [reflexivity | exists []; reflexivity]. }
    destruct (if save then _ else _) as [timgs'|e].
    2:{ intros H; inversion H; subst. split; [exact S1|].
        intros st Hin. destruct (Hhead st Hin) as (-> & A1 & A2 & A3).
        exists self, moved, self', (Ok moved').
        split; [exact A1|]. split; [exact A2|]. split; [exact A3|].
        intros e' He'. discriminate He'. }
    destruct (optimize_scales rest s1 save moved' timgs') as [[trs2 s2] r2] eqn:Er.
    intros H; inversion H; subst.
    destruct (IH _ _ _ _ _ _ _ Er) as [S2 Htr].
    split; [eapply same_session_trans; eassumption|].
    intros st Hin.
    assert (Hcase : In st (cons_opt tr []) \/ In st trs2).
    { destruct tr; simpl in *; tauto. }
    destruct Hcase as [Hin1|Hin2].
    + destruct (Hhead st Hin1) as (-> & A1 & A2 & A3).
      exists self, moved, s1, (Ok moved').
      split; [exact A1|]. split; [exact A2|]. split; [exact A3|].
      intros e' He'. discriminate He'.
    + destruct (Htr st Hin2) as (sk & mk & sk' & rk & Hsk & Hsched & Hbody & Hr).
      exists sk, mk, sk', rk. split; [eapply same_session_trans; eassumption|].
      split; [right; exact Hsched|]. split; [exact Hbody|].
      intros e' He'. destruct (Hr e' He') as (-> & front & ->).
      split; [reflexivity|]. exists (cons_opt tr front).
      apply cons_opt_app.
Qed.

Lemma optimize_traces (self : AffineRegistration R image opt_state)
    save trs self' r :
  optimize self save = (trs, self', r) ->
  same_session self self' /\
  forall st, In st trs ->
    exists self_k moved_k self_k' r_k,
      same_session self self_k /\
      In (st_scale st, st_iters st)
         (combine (scales (base self)) (iterations (base self))) /\
      scale_body self_k (st_scale st) (st_iters st) moved_k
        = (Some st, self_k', r_k) /\
      (forall e, r_k = Raise e ->
         r = Raise e /\ exists front, trs = front ++ [st]).
Proof.
  unfold optimize.
  destruct (optimize_scales _ _ _ _ _) as [[trs1 s1] r1] eqn:E.
  intros H; inversion H; subst.
  destruct (optimize_scales_traces _ _ _ _ _ E) as [S Htr].
  split; [exact S|]. intros st Hin.
  destruct (Htr st Hin) as (sk & mk & sk' & rk & A1 & A2 & A3 & A4).
  exists sk, mk, sk', rk. split; [exact A1|]. split; [exact A2|].
  split; [exact A3|].
  intros e He. destruct (A4 e He) as (-> & Hfront).
  split; [reflexivity | exact Hfront].
Qed.

End LoopFacts.

(** ** Events *)

Section EventFacts.
Context {R : Type} {SR : Scalar R}.
Context {image kernel : Type} {IO : ImageOps image kernel}.
Context {opt_state : Type} {SS : Session (R := R) (image := image) opt_state}.
Context {GL : Globals}.

Lemma event_ok_same_session (a b : AffineRegistration R image opt_state)
    homo ev :
  same_session a b -> event_ok a homo ev -> event_ok b homo ev.
Proof.
  intros (Hb & _ & Hr & Hs).
  destruct ev; simpl; rewrite ?Hb, ?Hr, ?Hs; auto.
Qed.

Lemma iteration_events (self : AffineRegistration R image opt_state)
    homo fd loc evs self' r :
  iteration self homo fd loc = (evs, self', r) ->
  Forall (event_ok self homo) evs.
Proof.
  unfold iteration.
  destruct (get_affine_matrix self) as [m|e] eqn:Em.
  2:{ intros H; inversion H; subst; constructor. }
  assert (Hread : event_ok self homo (Read (affine self) m)).
  { simpl. split; [reflexivity | exact Em]. }
  destruct (Py.bind _ _) as [c|e] eqn:Ec.
  2:{ intros H; inversion H; subst. constructor; [exact Hread | constructor]. }
  assert (Hsample : event_ok self homo
            (Sample (affine self) m (drop_last c)
               (grid_sample_image (arrays (moving_images (base self)))
                  (drop_last c)))).
  { simpl. repeat split; try assumption.
    unfold Py.bind in Ec.
    destruct (einsum_ntd m homo) as [c1|] eqn:E1; [|discriminate].
    exists c1, c. repeat split; assumption. }
  destruct (optimizer_step _ _ _) as [vals opt].
  destruct (convergence_test _ _ _ _ _ _) as [[c' b]|e] eqn:Et;
    intros H; inversion H; subst.
  - constructor; [exact Hread|]. constructor; [exact Hsample|].
    constructor; [exact Et | constructor].
  - constructor; [exact Hread|]. constructor; [exact Hsample | constructor].
Qed.

Lemma scale_loop_events iters :
  forall (self : AffineRegistration R image opt_state) homo fd loc evs self' r,
    scale_loop iters self homo fd loc = (evs, self', r) ->
    Forall (event_ok self homo) evs.
Proof.
  induction iters as [|k IH]; intros self homo fd loc evs self' r; simpl.
  - intros H; inversion H; subst; constructor.
  - destruct (iteration self homo fd loc) as [[evs1 self1] r1] eqn:E1.
    pose proof (iteration_events _ _ _ _ E1) as F1.
    pose proof (iteration_same_session _ _ _ _ E1) as S1.
    destruct r1 as [[loc1 [|]]|e].
    + intros H; inversion H; subst; exact F1.
    + destruct (scale_loop k self1 homo fd loc1) as [[evs2 self2] r2] eqn:E2.
      intros H; inversion H; subst.
      apply Forall_app. split; [exact F1|].
      eapply Forall_impl; [|eapply IH; exact E2].
      intros ev Hev. eapply event_ok_same_session; [|exact Hev].
      destruct S1 as (Hb & Hd & Hr & Hs). repeat split; congruence.
    + intros H; inversion H; subst; exact F1.
Qed.

(** Every event of every scale of a run is as [event_ok] says, for the
    physical-space grid of its scale. *)
Lemma optimize_events (self : AffineRegistration R image opt_state)
    save trs self' r :
  optimize self save = (trs, self', r) ->
  forall st, In st trs ->
    exists homo,
      einsum_ntd (torch2phy (fixed_images (base self)))
        (cat_ones_last (st_fixed_image_coords st)) = Ok homo /\
      Forall (event_ok self homo) (st_events st).
Proof.
  intros Hopt st Hin.
  destruct (optimize_traces _ _ Hopt) as [_ Htr].
  destruct (Htr st Hin) as (sk & mk & sk' & rk & Hsk & _ & Hbody & _).
  destruct (scale_body_trace _ _ _ _ Hbody)
    as (_ & _ & _ & _ & _ & homo & r' & Hh & Hloop & _).
  exists homo. destruct Hsk as (Hb & Hd & Hr & Hs).
  split; [rewrite <- Hb; exact Hh|].
  eapply Forall_impl; [|eapply scale_loop_events; exact Hloop].
  intros ev Hev. eapply event_ok_same_session; [|exact Hev].
  repeat split; congruence.
Qed.

End EventFacts.

(** ** Tensor algebra *)

Section TensorFacts.
Context {R : Type} {SR : Scalar R}.

Lemma shape_eqb_eq (s1 s2 : list nat) : shape_eqb s1 s2 = true <-> s1 = s2.
Proof.
  revert s2. induction s1 as [|x s1 IH]; intros [|y s2]; simpl;
    try (split; [discriminate | discriminate]); try tauto.
  rewrite andb_true_iff, Nat.eqb_eq, IH.
  split; [intros [-> ->]; reflexivity | intros H; inversion H; auto].
Qed.

Lemma cat1_inv (a b m : tensor R) :
  cat1 a b = Ok m ->
  exists a0 a1 ar b1,
    shape a = a0 :: a1 :: ar /\ shape b = a0 :: b1 :: ar /\
    shape m = a0 :: (a1 + b1) :: ar /\
    forall idx, elem m idx =
      if nth 1 idx 0 <? a1 then elem a idx
      else elem b (set_nth 1 (nth 1 idx 0 - a1) idx).
Proof.
  unfold cat1.
  destruct (shape a) as [|a0 [|a1 ar]]; try discriminate.
  destruct (shape b) as [|b0 [|b1 br]]; try discriminate.
  destruct ((a0 =? b0) && shape_eqb ar br) eqn:E; [|discriminate].
  apply andb_true_iff in E. destruct E as [E0 Er].
  apply Nat.eqb_eq in E0. apply shape_eqb_eq in Er. subst.
  intros H; inversion H; subst; simpl.
  exists b0, a1, br, b1. repeat split; reflexivity.
Qed.

Lemma cat1_ok (a b : tensor R) a0 a1 ar b1 :
  shape a = a0 :: a1 :: ar -> shape b = a0 :: b1 :: ar ->
  exists m, cat1 a b = Ok m.
Proof.
  intros Ha Hb. unfold cat1. rewrite Ha, Hb.
  rewrite Nat.eqb_refl. simpl.
  replace (shape_eqb ar ar) with true
    by (symmetry; apply shape_eqb_eq; reflexivity).
  eexists; reflexivity.
Qed.

Lemma init_row_elem batch dims_ n j :
  elem (init_row batch dims_) [n; 0; j] = if j =? dims_ then R1 else R0.
Proof.
  unfold init_row, setitem_col0_last; simpl.
  replace (dims_ + 1 - 1) with dims_ by lia. reflexivity.
Qed.

(** Concatenating a parameter of shape [batch, dims, dims+1] with the row
    gives the homogeneous matrix. *)
Lemma cat1_init_row_homogeneous batch dims_ (param m : tensor R) :
  shape param = [batch; dims_; dims_ + 1] ->
  cat1 param (init_row batch dims_) = Ok m ->
  Spec.homogeneous batch dims_ m.
Proof.
  intros Hs Hc.
  destruct (cat1_inv _ _ Hc) as (a0 & a1 & ar & b1 & Ha & Hb & Hm & He).
  rewrite Hs in Ha. inversion Ha; subst a0 a1 ar.
  unfold init_row in Hb; simpl in Hb. inversion Hb; subst b1.
  split; [exact Hm|].
  intros n j _ _. rewrite He. cbn [nth].
  rewrite Nat.ltb_irrefl, Nat.sub_diag.
  unfold set_nth; cbn [firstn skipn app].
  apply (init_row_elem batch dims_ n j).
Qed.

End TensorFacts.

(** ** The affine parameter store *)

Section StoreFacts.
Context {R : Type} {SR : Scalar R}.
Context {image kernel : Type} {IO : ImageOps image kernel}.
Context {opt_state : Type} {SS : Session (R := R) (image := image) opt_state}.
Context {GL : Globals}.

Lemma eye_batch_shape n d : shape (eye_batch (R := R) n d) = [n; d; d + 1].
Proof. unfold eye_batch; simpl. rewrite Nat.mul_1_r. reflexivity. Qed.

(** What [__init__] establishes. *)
Lemma init_inv scales_ iterations_ (fixed moving : BatchedImages R image)
    optimizer_ lr momentum tol max_iters mode init_rigid
    (self : AffineRegistration R image opt_state) :
  AffineRegistration_init scales_ iterations_ fixed moving optimizer_ lr
    momentum tol max_iters mode init_rigid = Ok self ->
  base self = mkAbstractRegistration scales_ iterations_ fixed moving tol
                max_iters mode /\
  length scales_ = length iterations_ /\
  dims self = image_dims moving /\
  row self = init_row (batch_size fixed) (image_dims moving) /\
  affine self = match init_rigid with
                | Some a => a
                | None => eye_batch (batch_size fixed) (image_dims moving)
                end.
Proof.
  unfold AffineRegistration_init, AbstractRegistration_init.
  destruct (length scales_ =? length iterations_) eqn:El; [|discriminate].
  apply Nat.eqb_eq in El. simpl.
  destruct (String.eqb optimizer_ "SGD");
    [|destruct (String.eqb optimizer_ "Adam"); [|discriminate]];
    simpl; intros H; inversion H; subst; simpl; auto.
Qed.

(** C6.  A registration built with the identity, or with an initial matrix
    of shape [batch, dims, dims+1], is run.  Every matrix that
    [get_affine_matrix] returns during the run, and the one it returns before
    and after, has shape [batch, dims+1, dims+1] and the last row
    [0, ..., 0, 1] in every batch item.  Each is the concatenation of the
    parameter of that moment with the row, and the row the run leaves is the
    row it found: the optimizer is handed the parameter alone. *)
Theorem current_matrix_homogeneous
    scales_ iterations_ (fixed moving : BatchedImages R image)
    optimizer_ lr momentum tol max_iters mode init_rigid
    (self self' : AffineRegistration R image opt_state) save trs r :
  AffineRegistration_init scales_ iterations_ fixed moving optimizer_ lr
    momentum tol max_iters mode init_rigid = Ok self ->
  (forall a, init_rigid = Some a ->
     shape a = [batch_size fixed; image_dims moving; image_dims moving + 1]) ->
  optimize self save = (trs, self', r) ->
  (forall st param m,
      In st trs -> In (Read param m) (st_events st) ->
      Spec.homogeneous (batch_size fixed) (image_dims moving) m /\
      cat1 param (row self) = Ok m) /\
  row self' = row self /\
  (exists m, get_affine_matrix self = Ok m /\
             Spec.homogeneous (batch_size fixed) (image_dims moving) m) /\
  (exists m, get_affine_matrix self' = Ok m /\
             Spec.homogeneous (batch_size fixed) (image_dims moving) m).
Proof.
  intros Hinit Hrigid Hopt.
  destruct (init_inv _ _ _ _ _ _ _ _ _ _ _ Hinit) as (Hb & _ & Hd & Hr & Ha).
  assert (Hshape : shape (affine self)
                   = [batch_size fixed; image_dims moving; image_dims moving + 1]).
  { rewrite Ha. destruct init_rigid as [a|].
    - apply Hrigid; reflexivity.
    - apply eye_batch_shape. }
  destruct (optimize_traces _ _ Hopt) as [(_ & _ & Hr' & Hs') _].
  assert (Hread : forall (s : AffineRegistration R image opt_state),
            row s = row self -> shape (affine s) = shape (affine self) ->
            exists m, get_affine_matrix s = Ok m /\
                      Spec.homogeneous (batch_size fixed) (image_dims moving) m).
  { intros s Hrs Hss. unfold get_affine_matrix.
    destruct (cat1_ok (affine s) (row s) (b1 := 1)
                (a0 := batch_size fixed) (a1 := image_dims moving)
                (ar := [image_dims moving + 1])) as [m Hm].
    - rewrite Hss; exact Hshape.
    - rewrite Hrs, Hr; reflexivity.
    - exists m. split; [exact Hm|].
      eapply cat1_init_row_homogeneous; [|rewrite <- Hr, <- Hrs; exact Hm].
      rewrite Hss; exact Hshape. }
  split; [|split; [|split]].
  - intros st param m Hst Hin.
    destruct (optimize_events _ _ Hopt st Hst) as (homo & _ & Hev).
    rewrite Forall_forall in Hev. specialize (Hev _ Hin). simpl in Hev.
    destruct Hev as [Hsp Hc]. split; [|exact Hc].
    eapply cat1_init_row_homogeneous; [|rewrite <- Hr; exact Hc].
    rewrite Hsp; exact Hshape.
  - exact Hr'.
  - apply Hread; reflexivity.
  - apply Hread; assumption.
Qed.

End StoreFacts.

(** ** The coordinate pipeline *)

Section PipelineFacts.
Context {R : Type} {SR : Scalar R}.

Lemma fold_left_ext_in {A B} (f g : A -> B -> A) (l : list B) :
  (forall a x, In x l -> f a x = g a x) ->
  forall a, fold_left f l a = fold_left g l a.
Proof.
  induction l as [|x l IH]; intros H a; simpl; [reflexivity|].
  rewrite (H a x) by (left; reflexivity).
  apply IH. intros a' y Hy. apply H. right; exact Hy.
Qed.

Lemma sum_upto_ext d (f g : nat -> R) :
  (forall k, k < d -> f k = g k) -> sum_upto d f = sum_upto d g.
Proof.
  intros H. unfold sum_upto. apply fold_left_ext_in.
  intros a x Hin. apply in_seq in Hin. rewrite H by lia. reflexivity.
Qed.

Lemma dot_sum_from (f : nat -> R) (v : list R) :
  forall s acc,
    fold_left (fun acc xy => Radd acc (Rmul (fst xy) (snd xy)))
      (combine (map f (seq s (length v))) v) acc
    = fold_left (fun acc k => Radd acc (Rmul (f k) (nth (k - s) v R0)))
        (seq s (length v)) acc.
Proof.
  induction v as [|a v IH]; intros s acc; simpl; [reflexivity|].
  rewrite IH, Nat.sub_diag.
  apply fold_left_ext_in. intros a0 x Hin. apply in_seq in Hin.
  replace (x - s) with (S (x - S s)) by lia. reflexivity.
Qed.

Lemma dot_sum (f : nat -> R) (v : list R) d :
  length v = d ->
  Spec.dot (map f (seq 0 d)) v = sum_upto d (fun k => Rmul (f k) (nth k v R0)).
Proof.
  intros <-. unfold Spec.dot, sum_upto. rewrite dot_sum_from.
  apply fold_left_ext_in. intros a x _. rewrite Nat.sub_0_r. reflexivity.
Qed.

Lemma nth_map_seq {A} (F : nat -> A) n t d :
  t < n -> nth t (map F (seq 0 n)) d = F t.
Proof.
  intros H. rewrite (nth_indep _ d (F 0))
    by (rewrite length_map, length_seq; exact H).
  rewrite map_nth, seq_nth by exact H. reflexivity.
Qed.

Lemma matrix_of_length (m : tensor R) n b t d :
  shape m = [b; t; d] -> length (Spec.matrix_of m n) = t.
Proof.
  intros H. unfold Spec.matrix_of. rewrite H; simpl.
  rewrite length_map, length_seq. reflexivity.
Qed.

Lemma matvec_length (m : list (list R)) v :
  length (Spec.matvec m v) = length m.
Proof. unfold Spec.matvec. apply length_map. Qed.

(** Row [t] of a matrix-vector product, as the sum the einsum forms. *)
Lemma matvec_matrix_of (m : tensor R) n v b t d k :
  shape m = [b; t; d] -> length v = d -> k < t ->
  nth k (Spec.matvec (Spec.matrix_of m n) v) R0
  = sum_upto d (fun j => Rmul (elem m [n; k; j]) (nth j v R0)).
Proof.
  intros Hs Hv Hk. unfold Spec.matvec, Spec.matrix_of. rewrite Hs; simpl.
  rewrite map_map, nth_map_seq by exact Hk.
  apply dot_sum; exact Hv.
Qed.

Lemma nth_removelast {A} (l : list A) k d :
  k < length l - 1 -> nth k (removelast l) d = nth k l d.
Proof.
  revert k. induction l as [|a l IH]; intros k H; simpl in *; [lia|].
  destruct l as [|b l]; [simpl in H; lia|].
  destruct k as [|k]; [reflexivity|].
  simpl. apply IH. simpl in *. lia.
Qed.

Lemma einsum_ntd_inv (m x out : tensor R) :
  einsum_ntd m x = Ok out ->
  exists n t d rest,
    shape m = [n; t; d] /\ shape x = n :: rest /\ rest <> [] /\
    last rest 0 = d /\
    shape out = n :: removelast rest ++ [t] /\
    forall idx, elem out idx =
      sum_upto d (fun k => Rmul (elem m [hd 0 idx; last idx 0; k])
                                (elem x (removelast idx ++ [k]))).
Proof.
  unfold einsum_ntd.
  destruct (shape m) as [|n [|t [|d [|]]]]; try discriminate.
  destruct (shape x) as [|n' rest]; try discriminate.
  destruct ((n =? n') && negb (length rest =? 0) && (d =? last rest 0)) eqn:E;
    [|discriminate].
  apply andb_true_iff in E. destruct E as [E E3].
  apply andb_true_iff in E. destruct E as [E1 E2].
  apply Nat.eqb_eq in E1, E3. subst n'.
  intros H; inversion H; subst; simpl.
  exists n, t, (last rest 0), rest. repeat split; try reflexivity.
  intros ->. discriminate.
Qed.

Lemma in_range_length (shp idx : list nat) :
  in_range shp idx = true -> length idx = length shp.
Proof.
  revert idx. induction shp as [|s shp IH]; intros [|i idx]; simpl;
    try discriminate; [reflexivity|].
  intros H. apply andb_true_iff in H. destruct H as [_ H].
  f_equal. apply IH; exact H.
Qed.

Lemma in_range_last (shp idx : list nat) :
  shp <> [] -> in_range shp idx = true -> last idx 0 < last shp 0.
Proof.
  revert idx. induction shp as [|s shp IH]; intros [|i idx] Hne; simpl;
    try discriminate; [congruence|].
  intros H. apply andb_true_iff in H. destruct H as [Hi H].
  apply Nat.ltb_lt in Hi.
  destruct shp as [|s' shp]; destruct idx as [|i' idx]; simpl in H;
    try discriminate; [exact Hi|].
  apply IH; [discriminate | exact H].
Qed.

Lemma hd_removelast_app (idx : list nat) k :
  2 <= length idx -> hd 0 (removelast idx ++ [k]) = hd 0 idx.
Proof.
  destruct idx as [|a [|b idx]]; simpl; intros H; solve [lia | reflexivity].
Qed.

(** The three products of the loop on the homogenized grid are the pipeline
    of the specification, point by point: no law of the arithmetic is used,
    the sums are the same sums in the same order. *)
Lemma einsum_chain_pipeline (p2t a t2p grid homo c1 c2 : tensor R) :
  einsum_ntd t2p (cat_ones_last grid) = Ok homo ->
  einsum_ntd a homo = Ok c1 ->
  einsum_ntd p2t c1 = Ok c2 ->
  tensor_eq (drop_last c2) (Spec.pipeline p2t a t2p grid).
Proof.
  intros E1 E2 E3.
  destruct (einsum_ntd_inv _ _ E1)
    as (n1 & t1 & d1 & r1 & Ht2p & Hx1 & Hne1 & Hd1 & Hhomo & Eh).
  destruct (einsum_ntd_inv _ _ E2)
    as (n2 & t2 & d2 & r2 & Ha & Hx2 & Hne2 & Hd2 & Hc1 & Ec1).
  destruct (einsum_ntd_inv _ _ E3)
    as (n3 & t3 & d3 & r3 & Hp2t & Hx3 & Hne3 & Hd3 & Hc2 & Ec2).
  simpl in Hx1.
  (* the grid has a batch axis and a coordinate axis *)
  destruct (removelast (shape grid)) as [|g0 rg] eqn:Hrg.
  { simpl in Hx1. inversion Hx1; subst. congruence. }
  simpl in Hx1. inversion Hx1; subst g0 r1. clear Hx1.
  rewrite removelast_last in Hhomo. rewrite last_last in Hd1.
  rewrite Hhomo in Hx2. inversion Hx2; subst n2 r2. clear Hx2.
  rewrite removelast_last in Hc1. rewrite last_last in Hd2.
  rewrite Hc1 in Hx3. inversion Hx3; subst n3 r3. clear Hx3.
  rewrite removelast_last in Hc2. rewrite last_last in Hd3.
  subst d1 d2 d3.
  assert (Hshape : shape (drop_last c2) = (n1 :: rg) ++ [t3 - 1]).
  { simpl. rewrite Hc2.
    change (n1 :: rg ++ [t3]) with ((n1 :: rg) ++ [t3]).
    rewrite removelast_last, last_last. reflexivity. }
  split.
  - rewrite Hshape. unfold Spec.pipeline; simpl shape.
    rewrite Hrg, Hp2t. reflexivity.
  - intros idx Hin. rewrite Hshape in Hin.
    pose proof (in_range_length _ _ Hin) as Hlen.
    rewrite length_app in Hlen; simpl in Hlen.
    assert (Hlast : last idx 0 < t3 - 1).
    { pose proof (@in_range_last ((n1 :: rg) ++ [t3 - 1]) idx) as L.
      rewrite last_last in L. apply L; [|exact Hin].
      destruct rg; discriminate. }
    assert (Hhd : forall k, hd 0 (removelast idx ++ [k]) = hd 0 idx).
    { intros k. apply hd_removelast_app. lia. }
    unfold Spec.pipeline, Spec.pipeline_point, drop_last; simpl elem.
    set (n := hd 0 idx). set (pre := removelast idx).
    set (v0 := Spec.point_of grid pre ++ [R1]).
    set (v1 := Spec.matvec (Spec.matrix_of t2p n) v0).
    set (v2 := Spec.matvec (Spec.matrix_of a n) v1).
    assert (L0 : length v0 = last (shape grid) 0 + 1).
    { unfold v0, Spec.point_of.
      rewrite length_app, length_map, length_seq. reflexivity. }
    assert (L1 : length v1 = t1).
    { unfold v1. rewrite matvec_length. eapply matrix_of_length; exact Ht2p. }
    assert (L2 : length v2 = t2).
    { unfold v2. rewrite matvec_length. eapply matrix_of_length; exact Ha. }
    rewrite nth_removelast
      by (rewrite matvec_length, (matrix_of_length _ _ Hp2t); exact Hlast).
    rewrite (matvec_matrix_of _ _ _ Hp2t L2) by lia.
    rewrite Ec2. fold n pre.
    apply sum_upto_ext. intros k3 Hk3. f_equal.
    unfold v2. rewrite (matvec_matrix_of _ _ _ Ha L1) by exact Hk3.
    rewrite Ec1. unfold pre. rewrite Hhd, last_last, removelast_last.
    fold n pre.
    apply sum_upto_ext. intros k2 Hk2. f_equal.
    unfold v1. rewrite (matvec_matrix_of _ _ _ Ht2p L0) by exact Hk2.
    rewrite Eh. unfold pre. rewrite Hhd, last_last, removelast_last.
    fold n pre.
    apply sum_upto_ext. intros k1 Hk1. f_equal.
    unfold cat_ones_last; simpl elem. rewrite last_last.
    unfold v0, Spec.point_of.
    destruct (k1 <? last (shape grid) 0) eqn:Hlt.
    + apply Nat.ltb_lt in Hlt.
      rewrite app_nth1 by (rewrite length_map, length_seq; exact Hlt).
      rewrite nth_map_seq by exact Hlt. reflexivity.
    + apply Nat.ltb_ge in Hlt.
      rewrite app_nth2 by (rewrite length_map, length_seq; exact Hlt).
      rewrite length_map, length_seq.
      replace (k1 - last (shape grid) 0) with 0 by lia. reflexivity.
Qed.

End PipelineFacts.

(** ** The scales of a run *)

Section ScaleFacts.
Context {R : Type} {SR : Scalar R}.
Context {image kernel : Type} {IO : ImageOps image kernel}.
Context {opt_state : Type} {SS : Session (R := R) (image := image) opt_state}.
Context {GL : Globals}.


(** The downsampled fixed image of every scale is the fixed image
    interpolated, corner-aligned, to the target size, in the mode of the
    container, and nothing else. *)
Lemma scale_init_interpolates
    (self : AffineRegistration R image opt_state) (save : bool) :
  Forall (fun st =>
            size_down (skipn 2 (img_shape (arrays (fixed_images (base self)))))
              (st_scale st) = Ok (st_size_down st) /\
            In (st_scale st) (scales (base self)) /\
            st_fixed_image_down st
            = interpolate (arrays (fixed_images (base self)))
                (st_size_down st)
                (interpolate_mode (fixed_images (base self))))
         (fst (fst (optimize self save))).
Proof.
  destruct (optimize self save) as [[trs self'] r] eqn:Hopt; simpl.
  apply Forall_forall. intros st Hst.
  destruct (optimize_traces _ _ Hopt) as [_ Htr].
  destruct (Htr st Hst) as (sk & mk & sk' & rk & (Hb & _) & Hsched & Hbody & _).
  destruct (scale_body_trace _ _ _ _ Hbody) as (_ & _ & Hsz & Hfd & _).
  simpl in Hsz, Hfd. rewrite Hb in Hsz, Hfd.
  split; [exact Hsz|]. split; [|exact Hfd].
  eapply in_combine_l; exact Hsched.
Qed.

(** C3, as the code has it.  At the start of every scale the downsampled
    fixed image is the full-resolution fixed image interpolated,
    corner-aligned, to the target size in the interpolation mode of the
    container: interpolation alone, without Gaussian smoothing. *)
Theorem fixed_image_down_by_interpolation
    (self : AffineRegistration R image opt_state) (save : bool) :
  Forall (fun st =>
            st_fixed_image_down st
            = interpolate (arrays (fixed_images (base self)))
                (st_size_down st)
                (interpolate_mode (fixed_images (base self))))
         (fst (fst (optimize self save))).
Proof.
  eapply Forall_impl; [|apply scale_init_interpolates].
  intros st (_ & _ & H). exact H.
Qed.

Lemma int_of_truediv_floor (s scale_ : Z) :
  (0 <= s)%Z -> (0 < scale_)%Z -> int_of_truediv s scale_ = Ok (s / scale_)%Z.
Proof.
  intros Hs Hc. unfold int_of_truediv.
  destruct (Z.eqb_spec scale_ 0); [lia|].
  rewrite Z.quot_div_nonneg by lia. reflexivity.
Qed.

Lemma size_down_floor (fixed_size : list Z) (scale_ : Z) :
  (0 < scale_)%Z -> Forall (fun s => (0 <= s)%Z) fixed_size ->
  size_down fixed_size scale_
  = Ok (map (fun s => Z.max (s / scale_) MIN_IMG_SIZE) fixed_size).
Proof.
  intros Hc. unfold size_down.
  induction 1 as [|s l Hs _ IH]; simpl; [reflexivity|].
  rewrite int_of_truediv_floor by assumption. simpl.
  rewrite IH. reflexivity.
Qed.


End ScaleFacts.

(** ** The convergence policy *)

Section ConvergenceFacts.
Context {R : Type} {SR : Scalar R}.
Context {image kernel : Type} {IO : ImageOps image kernel}.
Context {opt_state : Type} {SS : Session (R := R) (image := image) opt_state}.
Context {GL : Globals}.

Lemma float_lt_inf (tol : pyfloat) : float_lt np_inf tol = false.
Proof. destruct tol as [s|s| |s m e]; try destruct s; reflexivity. Qed.

Lemma float_lt_nan (tol : pyfloat) : float_lt S754_nan tol = false.
Proof. destruct tol; reflexivity. Qed.

Lemma float_sub_inf (cur : pyfloat) :
  float_sub np_inf cur = np_inf \/ float_sub np_inf cur = S754_nan.
Proof. destruct cur as [s|[|]| |s m e]; simpl; auto. Qed.

(** Against a previous loss of +infinity no improvement is below the
    tolerance, whatever the mode, the loss and the tolerance. *)
Lemma below_tolerance_first mode tol cur :
  Spec.below_tolerance mode tol np_inf cur = Ok false.
Proof.
  unfold Spec.below_tolerance, Spec.improvement.
  destruct (String.eqb mode "rtol").
  - unfold float_truediv; simpl float_is_zero; cbv iota.
    destruct (float_sub_inf cur) as [-> | ->]; simpl;
      rewrite float_lt_nan; reflexivity.
  - unfold Py.bind.
    destruct (float_sub_inf cur) as [-> | ->];
      rewrite ?float_lt_inf, ?float_lt_nan; reflexivity.
Qed.

(** The test of the loop is the test of the policy. *)
Lemma convergence_test_policy mode tol max_iters c p cur :
  mode = "atol"%string \/ mode = "rtol"%string ->
  (0 <= max_iters)%Z ->
  convergence_test mode tol max_iters c p cur
  = match Spec.below_tolerance mode tol p cur with
    | Ok b => Ok ((if b then c + 1 else 0)%Z,
                  ((if b then c + 1 else 0) >? max_iters)%Z)
    | Raise e => Raise e
    end.
Proof.
  intros Hmode Hmax.
  assert (Hz : (0 >? max_iters)%Z = false) by lia.
  unfold convergence_test, Spec.below_tolerance, Spec.improvement.
  destruct Hmode as [-> | ->]; simpl.
  - destruct (float_lt (float_sub p cur) tol); [|rewrite Hz; reflexivity].
    destruct (c + 1 >? max_iters)%Z; reflexivity.
  - destruct (float_truediv (float_sub p cur) p) as [q|e]; simpl;
      [|reflexivity].
    destruct (float_lt q tol); [|rewrite Hz; reflexivity].
    destruct (c + 1 >? max_iters)%Z; reflexivity.
Qed.

Lemma tests_of_app (evs evs' : list (event R image)) :
  Spec.tests_of (evs ++ evs') = Spec.tests_of evs ++ Spec.tests_of evs'.
Proof. unfold Spec.tests_of. apply flat_map_app. Qed.

(** An iteration that returns made one test, on the locals it found; one
    that raises made none. *)
Lemma iteration_tests (self : AffineRegistration R image opt_state)
    homo fd loc evs self' r :
  iteration self homo fd loc = (evs, self', r) ->
  match r with
  | Ok (loc', b) =>
      exists cur,
        Spec.tests_of evs
        = [(tol_ctr loc, prev_loss loc, cur, tol_ctr loc', b)] /\
        convergence_test (tolerance_mode (base self)) (tolerance (base self))
          (max_tolerance_iters (base self)) (tol_ctr loc) (prev_loss loc) cur
        = Ok (tol_ctr loc', b) /\
        prev_loss loc' = (if b then prev_loss loc else cur)
  | Raise _ => Spec.tests_of evs = []
  end.
Proof.
  unfold iteration.
  destruct (get_affine_matrix self) as [m|e].
  2:{ intros H; inversion H; subst; reflexivity. }
  destruct (Py.bind _ _) as [c|e].
  2:{ intros H; inversion H; subst; reflexivity. }
  destruct (optimizer_step _ _ _) as [vals opt].
  destruct (convergence_test _ _ _ _ _ _) as [[c' b]|e] eqn:Et;
    intros H; inversion H; subst; simpl; [|reflexivity].
  eexists. repeat split. exact Et.
Qed.

Lemma scale_loop_tests mode tol max_iters iters :
  mode = "atol"%string \/ mode = "rtol"%string ->
  (0 <= max_iters)%Z ->
  forall (self : AffineRegistration R image opt_state) homo fd loc evs self' r,
    tolerance_mode (base self) = mode ->
    tolerance (base self) = tol ->
    max_tolerance_iters (base self) = max_iters ->
    scale_loop iters self homo fd loc = (evs, self', r) ->
    Spec.counter_run mode tol max_iters (tol_ctr loc) (prev_loss loc)
      (Spec.tests_of evs) /\
    length (Spec.tests_of evs) <= iters /\
    (forall loc', r = Ok loc' ->
       existsb Spec.stopped (Spec.tests_of evs) = true \/
       length (Spec.tests_of evs) = iters).
Proof.
  intros Hmode Hmax.
  induction iters as [|k IH];
    intros self homo fd loc evs self' r Hm Ht Hx; simpl.
  - intros H; inversion H; subst; simpl.
    split; [constructor|]. split; [lia|]. intros; right; reflexivity.
  - destruct (iteration self homo fd loc) as [[evs1 self1] r1] eqn:E1.
    pose proof (iteration_tests _ _ _ _ E1) as T1.
    pose proof (iteration_same_session _ _ _ _ E1) as (Hb & _).
    destruct r1 as [[loc1 b]|e].
    + destruct T1 as (cur & Hts & Hct & Hprev).
      rewrite Hm, Ht, Hx, (convergence_test_policy _ _ _ _ Hmode Hmax) in Hct.
      destruct (Spec.below_tolerance mode tol (prev_loss loc) cur)
        as [bl|e] eqn:Ebl; [|discriminate].
      injection Hct as Hc Hstop.
      rewrite <- Hc, <- Hstop in Hts.
      destruct b.
      * intros H; injection H as <- <- <-. rewrite Hts.
        split; [apply Spec.run_step; [exact Ebl | reflexivity | constructor]|].
        split; [simpl; lia|].
        intros _ _; left. simpl. unfold Spec.stopped; simpl.
        rewrite Hstop. reflexivity.
      * destruct (scale_loop k self1 homo fd loc1) as [[evs2 self2] r2] eqn:E2.
        intros H; injection H as <- <- <-.
        destruct (IH self1 homo fd loc1 evs2 self2 r2) as (Hrun & Hlen & Hall);
          try congruence.
        rewrite tests_of_app, Hts. simpl.
        split.
        { apply Spec.run_step; [exact Ebl | rewrite Hstop; discriminate |].
          rewrite Hc, <- Hprev. exact Hrun. }
        split; [lia|].
        intros loc' Hr. destruct (Hall loc' Hr) as [Hs | Hl].
        { left. rewrite Hs. apply orb_true_r. }
        { right. rewrite Hl. reflexivity. }
    + intros H; injection H as <- <- <-. rewrite T1. simpl.
      split; [constructor|]. split; [lia|]. intros; discriminate.
Qed.

End ConvergenceFacts.

Section ConvergenceTheorems.
Context {R : Type} {SR : Scalar R}.
Context {image kernel : Type} {IO : ImageOps image kernel}.
Context {opt_state : Type} {SS : Session (R := R) (image := image) opt_state}.
Context {GL : Globals}.


(** C5.  In rtol mode, when the previous loss is a zero (of either sign),
    the convergence test raises ZeroDivisionError, for every tolerance,
    limit, counter and current loss; and an iteration of the loop entered
    with such a previous loss does not return: it raises, and what it raises
    is that error once the resampler has been called. *)
Theorem rtol_zero_previous_loss_raises
    (self : AffineRegistration R image opt_state) homo fd loc k :
  tolerance_mode (base self) = "rtol"%string ->
  float_is_zero (prev_loss loc) = true ->
  (forall tol max_iters ctr cur,
      convergence_test "rtol" tol max_iters ctr (prev_loss loc) cur
      = Raise ZeroDivisionError) /\
  exists e,
    snd (scale_loop (S k) self homo fd loc) = Raise e /\
    (existsb Spec.is_sample (fst (fst (scale_loop (S k) self homo fd loc)))
     = true -> e = ZeroDivisionError).
Proof.
  intros Hmode Hzero.
  assert (Htest : forall tol max_iters ctr cur,
             convergence_test "rtol" tol max_iters ctr (prev_loss loc) cur
             = Raise ZeroDivisionError).
  { intros. unfold convergence_test; simpl. unfold float_truediv.
    rewrite Hzero. reflexivity. }
  split; [exact Htest|].
  simpl. unfold iteration.
  destruct (get_affine_matrix self) as [m|e].
  2:{ exists e. split; [reflexivity | discriminate]. }
  destruct (Py.bind _ _) as [c|e].
  2:{ exists e. split; [reflexivity | discriminate]. }
  destruct (optimizer_step _ _ _) as [vals opt].
  rewrite Hmode, Htest. exists ZeroDivisionError. split; reflexivity.
Qed.

End ConvergenceTheorems.

(** ** Construction and return *)

Section ReturnFacts.
Context {R : Type} {SR : Scalar R}.
Context {image kernel : Type} {IO : ImageOps image kernel}.
Context {opt_state : Type} {SS : Session (R := R) (image := image) opt_state}.
Context {GL : Globals}.

(** C7.  A schedule whose two lists differ in length is rejected when the
    registration is constructed: the constructor raises the configuration
    error of the base class, whatever the other arguments, so no
    registration exists on which [optimize] could pair the lists. *)
Theorem mismatched_schedule_is_rejected
    scales_ iterations_ (fixed moving : BatchedImages R image)
    optimizer_ lr momentum tol max_iters mode init_rigid :
  length scales_ <> length iterations_ ->
  AffineRegistration_init (opt_state := opt_state) scales_ iterations_
    fixed moving optimizer_ lr momentum tol max_iters mode init_rigid
  = Raise (ConfigurationError "scales and iterations differ in length").
Proof.
  intros Hne. unfold AffineRegistration_init, AbstractRegistration_init.
  destruct (Nat.eqb_spec (length scales_) (length iterations_)) as [E|_];
    [contradiction | reflexivity].
Qed.

(** On a registration that was constructed, the loop pairs every scale with
    its budget: nothing is cut off. *)
Lemma constructed_schedule_is_whole
    scales_ iterations_ (fixed moving : BatchedImages R image)
    optimizer_ lr momentum tol max_iters mode init_rigid
    (self : AffineRegistration R image opt_state) :
  AffineRegistration_init scales_ iterations_ fixed moving optimizer_ lr
    momentum tol max_iters mode init_rigid = Ok self ->
  combine (scales (base self)) (iterations (base self))
  = combine scales_ iterations_ /\
  map fst (combine scales_ iterations_) = scales_ /\
  map snd (combine scales_ iterations_) = iterations_.
Proof.
  intros H.
  destruct (init_inv _ _ _ _ _ _ _ _ _ _ _ H) as (Hb & Hlen & _).
  rewrite Hb; simpl. split; [reflexivity|].
  clear H Hb. revert iterations_ Hlen.
  induction scales_ as [|s l IH]; intros [|i l'] Hlen; simpl in *;
    try discriminate; [split; reflexivity|].
  injection Hlen as Hlen. destruct (IH _ Hlen) as [H1 H2].
  rewrite H1, H2. split; reflexivity.
Qed.

Lemma einsum_ntd_ok (m x : tensor R) n t d sp :
  shape m = [n; t; d] -> shape x = n :: sp ++ [d] ->
  exists out, einsum_ntd m x = Ok out /\ shape out = n :: sp ++ [t].
Proof.
  intros Hm Hx. unfold einsum_ntd. rewrite Hm, Hx.
  rewrite Nat.eqb_refl, last_last, Nat.eqb_refl.
  replace (length (sp ++ [d]) =? 0) with false
    by (symmetry; apply Nat.eqb_neq; rewrite length_app; simpl; lia).
  simpl. eexists. split; [reflexivity|]. simpl.
  rewrite removelast_last. reflexivity.
Qed.

Lemma last_moved_app (a b : list (event R image)) :
  Spec.last_moved (a ++ b)
  = match Spec.last_moved b with
    | Some img => Some img
    | None => Spec.last_moved a
    end.
Proof.
  induction a as [|ev a IH]; simpl.
  - destruct (Spec.last_moved b); reflexivity.
  - rewrite IH. destruct (Spec.last_moved b); reflexivity.
Qed.

Lemma convergence_test_returns mode tol max_iters c p cur :
  mode <> "rtol"%string ->
  exists c' b, convergence_test mode tol max_iters c p cur = Ok (c', b).
Proof.
  intros Hmode. unfold convergence_test.
  destruct (String.eqb mode "atol").
  - destruct (float_lt _ _); [destruct (_ >? _)%Z|]; eauto.
  - destruct (String.eqb_spec mode "rtol"); [contradiction | eauto].
Qed.

(** On well-shaped data and outside rtol mode an iteration returns, having
    called the resampler. *)
Lemma iteration_returns (self : AffineRegistration R image opt_state)
    homo fd loc n d sp :
  shape (affine self) = [n; d; d + 1] ->
  row self = init_row n d ->
  shape (phy2torch (moving_images (base self))) = [n; d + 1; d + 1] ->
  shape homo = n :: sp ++ [d + 1] ->
  tolerance_mode (base self) <> "rtol"%string ->
  exists evs self' loc' b img,
    iteration self homo fd loc = (evs, self', Ok (loc', b)) /\
    moved_image loc' = Some img /\ Spec.last_moved evs = Some img.
Proof.
  intros Ha Hr Hp Hh Hmode. unfold iteration, get_affine_matrix.
  destruct (cat1_ok (affine self) (row self) (a0 := n) (a1 := d)
              (ar := [d + 1]) (b1 := 1)) as [m Hm];
    [exact Ha | rewrite Hr; reflexivity |].
  rewrite Hm.
  assert (Hms : shape m = [n; d + 1; d + 1]).
  { rewrite Hr in Hm.
    apply (cat1_init_row_homogeneous (batch := n) (dims_ := d) _ Ha Hm). }
  destruct (@einsum_ntd_ok m homo n (d + 1) (d + 1) sp Hms Hh)
    as (c1 & E1 & Hc1).
  destruct (@einsum_ntd_ok _ c1 n (d + 1) (d + 1) sp Hp Hc1)
    as (c2 & E2 & Hc2).
  unfold Py.bind at 1. rewrite E1, E2.
  destruct (optimizer_step _ _ _) as [vals opt].
  destruct (@convergence_test_returns (tolerance_mode (base self))
              (tolerance (base self))
              (max_tolerance_iters (base self)) (tol_ctr loc) (prev_loss loc)
              (loss_item
                 (grid_sample_image (arrays (moving_images (base self)))
                    (drop_last c2)) fd) Hmode) as (c' & b & Ht).
  rewrite Ht. do 5 eexists. split; [reflexivity|]. split; reflexivity.
Qed.

Lemma scale_loop_returns iters :
  forall (self : AffineRegistration R image opt_state) homo fd loc n d sp,
    shape (affine self) = [n; d; d + 1] ->
    row self = init_row n d ->
    shape (phy2torch (moving_images (base self))) = [n; d + 1; d + 1] ->
    shape homo = n :: sp ++ [d + 1] ->
    tolerance_mode (base self) <> "rtol"%string ->
    exists evs self' loc',
      scale_loop iters self homo fd loc = (evs, self', Ok loc') /\
      moved_image loc'
      = match Spec.last_moved evs with
        | Some img => Some img
        | None => moved_image loc
        end /\
      (1 <= iters -> exists img, Spec.last_moved evs = Some img).
Proof.
  induction iters as [|k IH]; intros self homo fd loc n d sp Ha Hr Hp Hh Hmode.
  - simpl. do 3 eexists. split; [reflexivity|]. split; [reflexivity | lia].
  - simpl.
    destruct (@iteration_returns self homo fd loc n d sp Ha Hr Hp Hh Hmode)
      as (evs1 & self1 & loc1 & b & img & E1 & Hmv & Hlast).
    rewrite E1.
    destruct b.
    + do 3 eexists. split; [reflexivity|]. rewrite Hlast.
      split; [exact Hmv | eauto].
    + destruct (iteration_same_session _ _ _ _ E1) as (Hb1 & _ & Hr1 & Hs1).
      destruct (IH self1 homo fd loc1 n d sp) as (evs2 & self2 & loc2 & E2 & Hmv2 & _);
        try congruence.
      rewrite E2. do 3 eexists. split; [reflexivity|].
      rewrite last_moved_app, Hlast. rewrite Hmv2, Hmv.
      split; [destruct (Spec.last_moved evs2); reflexivity|].
      intros _. destruct (Spec.last_moved evs2); eauto.
Qed.

End ReturnFacts.

Section ReturnTheorems.
Context {R : Type} {SR : Scalar R}.
Context {image kernel : Type} {IO : ImageOps image kernel}.
Context {opt_state : Type} {SS : Session (R := R) (image := image) opt_state}.
Context {GL : Globals}.

Lemma well_shaped_same_session (a b : AffineRegistration R image opt_state) :
  same_session a b -> well_shaped a -> well_shaped b.
Proof.
  intros (Hb & Hd & Hr & Hs). unfold well_shaped.
  rewrite Hb, Hd, Hr, Hs. auto.
Qed.

Lemma size_down_ok (fixed_size : list Z) (scale_ : Z) :
  scale_ <> 0%Z ->
  exists sz, size_down fixed_size scale_ = Ok sz /\
             length sz = length fixed_size.
Proof.
  intros Hne. unfold size_down.
  induction fixed_size as [|s l (sz & E & Hl)]; cbn [mapM].
  - exists []. split; reflexivity.
  - unfold int_of_truediv at 1.
    destruct (Z.eqb_spec scale_ 0) as [|_]; [contradiction|].
    cbn [Py.bind]. rewrite E. eexists. split; [reflexivity|].
    simpl. rewrite Hl. reflexivity.
Qed.

Lemma cat_ones_last_shape (grid : tensor R) n sp d :
  shape grid = n :: sp ++ [d] ->
  shape (cat_ones_last grid) = n :: sp ++ [d + 1].
Proof.
  intros H. unfold cat_ones_last; simpl. rewrite H.
  change (n :: sp ++ [d]) with ((n :: sp) ++ [d]).
  rewrite removelast_last, last_last. reflexivity.
Qed.

(** On well-shaped data, outside rtol mode and for a scale factor that is
    not 0, the body of a scale returns and leaves a trace. *)
Lemma scale_body_returns (self : AffineRegistration R image opt_state)
    scale_ iters moved :
  well_shaped self ->
  tolerance_mode (base self) <> "rtol"%string ->
  scale_ <> 0%Z ->
  exists st self' moved',
    scale_body self scale_ iters moved = (Some st, self', Ok moved') /\
    moved' = match Spec.last_moved (st_events st) with
             | Some img => Some img
             | None => moved
             end /\
    ((1 <= iters)%Z -> exists img, Spec.last_moved (st_events st) = Some img).
Proof.
  intros (Ha & Hr & Ht & Hp & Hg) Hmode Hne. unfold scale_body.
  destruct (size_down_ok
              (skipn 2 (img_shape (arrays (fixed_images (base self))))) Hne)
    as (sz & Esz & Hlen).
  rewrite Esz.
  destruct (Hg sz Hlen) as (sp & Hgrid).
  pose proof (@cat_ones_last_shape _ _ _ _ Hgrid) as Hhomo0.
  edestruct einsum_ntd_ok as (homo & Eh & Hhomo); [exact Ht | exact Hhomo0 |].
  rewrite Eh.
  edestruct scale_loop_returns
    with (iters := Z.to_nat iters) (self := self) (homo := homo)
         (fd := interpolate (arrays (fixed_images (base self))) sz
                  (interpolate_mode (fixed_images (base self))))
         (loc := mkLocals 0%Z np_inf moved)
    as (evs & self' & loc' & El & Hmv & Hsome);
    [exact Ha | exact Hr | exact Hp | exact Hhomo | exact Hmode |].
  rewrite El. do 3 eexists. split; [reflexivity|]. simpl.
  split; [exact Hmv|]. intros Hi. apply Hsome. lia.
Qed.

(** On well-shaped data, outside rtol mode, with scale factors that are not 0
    and budgets of at least one iteration, the scales run to the end: asked
    to keep them, the loop collects the last moved image of every scale, in
    order; the scales themselves run the same either way. *)
Lemma optimize_scales_returns schedule :
  forall (self : AffineRegistration R image opt_state) moved timgs timgs',
    well_shaped self ->
    tolerance_mode (base self) <> "rtol"%string ->
    Forall (fun p => fst p <> 0%Z /\ (1 <= snd p)%Z) schedule ->
    exists trs self' imgs,
      optimize_scales schedule self true moved timgs
        = (trs, self', Ok (timgs ++ imgs)) /\
      optimize_scales schedule self false moved timgs'
        = (trs, self', Ok timgs') /\
      map Some imgs = map (fun st => Spec.last_moved (st_events st)) trs /\
      length imgs = length schedule.
Proof.
  induction schedule as [|[sc it] rest IH];
    intros self moved timgs timgs' Hws Hmode Hall; simpl.
  - exists [], self, []. rewrite app_nil_r. repeat split; reflexivity.
  - inversion Hall as [|p l [Hsc Hit] Hrest]; subst. simpl in Hsc, Hit.
    destruct (@scale_body_returns self sc it moved Hws Hmode Hsc)
      as (st & self1 & moved1 & Eb & Hmv & Hsome).
    rewrite Eb.
    destruct (Hsome Hit) as [img Himg]. rewrite Himg in Hmv. subst moved1.
    pose proof (scale_body_same_session _ _ _ _ Eb) as S1.
    destruct (IH self1 (Some img) (timgs ++ [img]) timgs')
      as (trs & self2 & imgs & Et & Ef & Hmap & Hlen);
      [eapply well_shaped_same_session; eassumption
      | destruct S1 as (Hb & _); rewrite Hb; exact Hmode
      | exact Hrest |].
    rewrite Et, Ef. exists (st :: trs), self2, (img :: imgs).
    rewrite <- app_assoc. simpl.
    split; [reflexivity|]. split; [reflexivity|].
    split; [rewrite Himg, Hmap; reflexivity | rewrite Hlen; reflexivity].
Qed.

(** However the scales ran, a run that returns has collected one image per
    scale if it was asked to, and none otherwise. *)
Lemma optimize_scales_count schedule :
  forall (self : AffineRegistration R image opt_state) save moved timgs
         trs self' imgs,
    optimize_scales schedule self save moved timgs = (trs, self', Ok imgs) ->
    length imgs = length timgs + (if save then length schedule else 0).
Proof.
  induction schedule as [|[sc it] rest IH];
    intros self save moved timgs trs self' imgs; simpl.
  - intros H; injection H as _ _ <-. destruct save; lia.
  - destruct (scale_body self sc it moved) as [[tr s1] [moved'|e]];
      [|discriminate].
    destruct save.
    + destruct moved' as [img|]; [|discriminate].
      destruct (optimize_scales rest s1 true (Some img) (timgs ++ [img]))
        as [[trs2 s2] r2] eqn:Er.
      intros H; injection H as _ _ ->.
      rewrite (IH _ _ _ _ _ _ _ Er), length_app. simpl. lia.
    + destruct (optimize_scales rest s1 false moved' timgs)
        as [[trs2 s2] r2] eqn:Er.
      intros H; injection H as _ _ ->.
      rewrite (IH _ _ _ _ _ _ _ Er). lia.
Qed.

(** C2, as the code has it.  On a well-shaped registration whose schedule
    lists have one length, whenever [optimize] returns, it returns the list
    of moved images, one per scale, if it was asked for the intermediate
    results, and None otherwise; the final affine matrix is not part of the
    return value: it stays in the registration, where [get_affine_matrix]
    reads it.  And it does return, each image being the last moved image of
    its scale, outside rtol mode with scale factors that are not 0 and
    budgets of at least one iteration. *)
Theorem optimize_returns_images_or_none
    (self : AffineRegistration R image opt_state) :
  well_shaped self ->
  length (scales (base self)) = length (iterations (base self)) ->
  (forall save trs self' v,
      optimize self save = (trs, self', Ok v) ->
      (if save
       then exists imgs, v = PyImages imgs /\
                         length imgs = length (scales (base self))
       else v = PyNone) /\
      exists m, get_affine_matrix self' = Ok m /\
                Spec.homogeneous (batch_size (fixed_images (base self)))
                  (dims self) m) /\
  (tolerance_mode (base self) <> "rtol"%string ->
   Forall (fun sc => sc <> 0%Z) (scales (base self)) ->
   Forall (fun it => (1 <= it)%Z) (iterations (base self)) ->
   exists trs self' imgs,
     optimize self true = (trs, self', Ok (PyImages imgs)) /\
     optimize self false = (trs, self', Ok PyNone) /\
     map Some imgs = map (fun st => Spec.last_moved (st_events st)) trs).
Proof.
  intros Hws Hlen.
  assert (Hfinal : forall self' : AffineRegistration R image opt_state,
             same_session self self' ->
             exists m, get_affine_matrix self' = Ok m /\
                       Spec.homogeneous
                         (batch_size (fixed_images (base self))) (dims self) m).
  { intros self' S.
    destruct (@well_shaped_same_session _ _ S Hws) as (Ha' & Hr' & _).
    destruct S as (Hb & Hd & _). rewrite Hb, Hd in Ha', Hr'.
    destruct (cat1_ok (affine self') (row self') (b1 := 1) Ha') as [m Hm];
      [rewrite Hr'; reflexivity|].
    exists m. split; [exact Hm|].
    rewrite Hr' in Hm. eapply cat1_init_row_homogeneous; eassumption. }
  split.
  - intros save trs self' v. unfold optimize.
    destruct (optimize_scales _ _ _ _ _) as [[trs1 s1] [imgs|e]] eqn:E;
      [|discriminate].
    pose proof (optimize_scales_count _ _ _ _ _ E) as Hcount.
    destruct (optimize_scales_traces _ _ _ _ _ E) as [S _].
    rewrite length_combine, Hlen, Nat.min_id in Hcount. simpl in Hcount.
    destruct save; intros H; injection H as <- <- <-.
    + split; [|apply Hfinal; exact S].
      exists imgs. split; [reflexivity|]. rewrite Hcount, Hlen. reflexivity.
    + split; [reflexivity | apply Hfinal; exact S].
  - intros Hmode Hsc Hit. unfold optimize.
    assert (Hall : Forall (fun p => fst p <> 0%Z /\ (1 <= snd p)%Z)
                     (combine (scales (base self)) (iterations (base self)))).
    { apply Forall_forall. intros [s i] Hin. simpl.
      rewrite Forall_forall in Hsc, Hit. split.
      - apply Hsc. eapply in_combine_l; exact Hin.
      - apply Hit. eapply in_combine_r; exact Hin. }
    destruct (@optimize_scales_returns _ self None [] [] Hws Hmode Hall)
      as (trs & self' & imgs & Et & Ef & Hmap & _).
    rewrite Et, Ef. simpl.
    exists trs, self', imgs.
    split; [reflexivity|]. split; [reflexivity | exact Hmap].
Qed.

End ReturnTheorems.

(** ** The pipeline as one matrix, in exact arithmetic *)

Section ExactFacts.
Context {R : Type} {SR : Scalar R}.
Hypothesis exact : Spec.exact_arithmetic (R := R).

Lemma sum_upto_S n (f : nat -> R) :
  sum_upto (S n) f = Radd (sum_upto n f) (f n).
Proof.
  unfold sum_upto. rewrite seq_S, fold_left_app. reflexivity.
Qed.

Lemma sum_upto_zero n : sum_upto n (fun _ => R0) = R0 :> R.
Proof.
  destruct exact as (_ & _ & H0 & _).
  induction n as [|n IH]; [reflexivity|].
  rewrite sum_upto_S, IH. apply H0.
Qed.

Lemma sum_upto_add n (f g : nat -> R) :
  sum_upto n (fun i => Radd (f i) (g i))
  = Radd (sum_upto n f) (sum_upto n g).
Proof.
  destruct exact as (Ha & Hc & H0 & _).
  induction n as [|n IH].
  - unfold sum_upto; simpl. symmetry; apply H0.
  - rewrite !sum_upto_S, IH.
    rewrite <- !Ha. f_equal.
    rewrite !Ha. rewrite (Hc (f n) (sum_upto n g)). reflexivity.
Qed.

Lemma sum_upto_mul_l n c (f : nat -> R) :
  Rmul c (sum_upto n f) = sum_upto n (fun i => Rmul c (f i)).
Proof.
  destruct exact as (_ & _ & _ & _ & Hl & _ & _ & Hz).
  induction n as [|n IH].
  - unfold sum_upto; simpl. apply Hz.
  - rewrite !sum_upto_S, Hl, IH. reflexivity.
Qed.

Lemma sum_upto_mul_r n c (f : nat -> R) :
  Rmul (sum_upto n f) c = sum_upto n (fun i => Rmul (f i) c).
Proof.
  destruct exact as (_ & _ & _ & _ & _ & Hr & Hz & _).
  induction n as [|n IH].
  - unfold sum_upto; simpl. apply Hz.
  - rewrite !sum_upto_S, Hr, IH. reflexivity.
Qed.

Lemma sum_upto_exchange n m (F : nat -> nat -> R) :
  sum_upto n (fun i => sum_upto m (fun j => F i j))
  = sum_upto m (fun j => sum_upto n (fun i => F i j)).
Proof.
  induction n as [|n IH].
  - unfold sum_upto at 1; simpl. symmetry.
    rewrite <- (sum_upto_zero m) at 1. reflexivity.
  - rewrite sum_upto_S, IH, <- sum_upto_add.
    apply sum_upto_ext. intros j _. rewrite sum_upto_S. reflexivity.
Qed.

(** Applying [b] and then [a] is applying their product. *)
Lemma einsum_matmul (a b x y z : tensor R) n t k d :
  shape a = [n; t; k] -> shape b = [n; k; d] ->
  einsum_ntd b x = Ok y -> einsum_ntd a y = Ok z ->
  exists z', einsum_ntd (Spec.matmul a b) x = Ok z' /\ tensor_eq z' z.
Proof.
  intros Ha Hb Ey Ez.
  destruct (einsum_ntd_inv _ _ Ey)
    as (n1 & t1 & d1 & r1 & Hb' & Hx & Hne & Hd & Hy & Eyel).
  rewrite Hb in Hb'. injection Hb' as <- <- <-.
  destruct (einsum_ntd_inv _ _ Ez)
    as (n2 & t2 & d2 & r2 & Ha' & Hy' & Hne2 & Hd2 & Hz & Ezel).
  rewrite Ha in Ha'. injection Ha' as <- <- <-.
  rewrite Hy in Hy'. injection Hy' as <-.
  rewrite removelast_last in Hz.
  assert (Hm : shape (Spec.matmul a b) = [n; t; d]).
  { unfold Spec.matmul; simpl. rewrite Ha, Hb. reflexivity. }
  assert (Hlen : (length r1 =? 0) = false).
  { apply Nat.eqb_neq. destruct r1; [congruence | discriminate]. }
  unfold einsum_ntd at 1. rewrite Hm, Hx, Nat.eqb_refl, Hlen, Hd, Nat.eqb_refl.
  simpl. eexists. split; [reflexivity|].
  split; [simpl; rewrite Hz; reflexivity|].
  intros idx Hin. cbn [shape elem] in Hin |- *.
  pose proof (in_range_length _ _ Hin) as Hl.
  cbn [length] in Hl. rewrite length_app in Hl; cbn [length] in Hl.
  assert (Hhd : forall q, hd 0 (removelast idx ++ [q]) = hd 0 idx).
  { intros q. apply hd_removelast_app. lia. }
  rewrite Ezel, Ha. simpl nth.
  destruct exact as (_ & _ & _ & Hassoc & _).
  transitivity
    (sum_upto d (fun j =>
       sum_upto k (fun q =>
         Rmul (elem a [hd 0 idx; last idx 0; q])
              (Rmul (elem b [hd 0 idx; q; j])
                    (elem x (removelast idx ++ [j])))))).
  { apply sum_upto_ext. intros j _.
    rewrite sum_upto_mul_r. apply sum_upto_ext. intros q _.
    symmetry. apply Hassoc. }
  rewrite sum_upto_exchange.
  apply sum_upto_ext. intros q _.
  rewrite Eyel, Hhd, last_last, removelast_last.
  rewrite sum_upto_mul_l. reflexivity.
Qed.

Lemma in_range_last_le (pre idx : list nat) t t' :
  t <= t' -> in_range (pre ++ [t]) idx = true ->
  in_range (pre ++ [t']) idx = true.
Proof.
  intros Hle. revert idx.
  induction pre as [|s pre IH]; intros [|i idx]; simpl; try discriminate.
  - destruct idx; [|rewrite andb_false_r; discriminate].
    rewrite !andb_true_r, !Nat.ltb_lt. lia.
  - rewrite !andb_true_iff. intros [Hi H]. split; [exact Hi | apply IH; exact H].
Qed.

Lemma drop_last_tensor_eq (a b : tensor R) :
  tensor_eq a b -> tensor_eq (drop_last a) (drop_last b).
Proof.
  intros [Hs He]. split; [simpl; rewrite Hs; reflexivity|].
  intros idx Hin. simpl in *. apply He.
  destruct (shape a) as [|s0 rest] eqn:Hsa; [destruct idx; discriminate|].
  rewrite (app_removelast_last 0 (l := s0 :: rest)) by discriminate.
  eapply in_range_last_le; [|exact Hin]. lia.
Qed.

End ExactFacts.

Section ExactTheorems.
Context {R : Type} {SR : Scalar R}.
Context {image kernel : Type} {IO : ImageOps image kernel}.
Context {opt_state : Type} {SS : Session (R := R) (image := image) opt_state}.
Context {GL : Globals}.

(** In exact arithmetic the coordinates handed to the resampler are the one
    matrix [moving_p2t . affine . fixed_t2p] applied to the homogenized
    grid, the last component dropped. *)
Lemma coordinates_by_composed_matrix
    (self : AffineRegistration R image opt_state) (save : bool) :
  Spec.exact_arithmetic (R := R) ->
  Forall (fun st =>
            Forall (Spec.sampled_through_composed self
                      (st_fixed_image_coords st))
                   (st_events st))
         (fst (fst (optimize self save))).
Proof.
  intros exact.
  destruct (optimize self save) as [[trs self'] r] eqn:Hopt; simpl.
  apply Forall_forall. intros st Hst.
  destruct (optimize_events _ _ Hopt st Hst) as (homo & Hh & Hev).
  eapply Forall_impl; [|exact Hev].
  intros [param m|param m coords moved|c p l c' b] Hok; simpl; auto.
  simpl in Hok.
  destruct Hok as (_ & _ & (c1 & c2 & E2 & E3 & ->) & _).
  destruct (einsum_ntd_inv _ _ Hh)
    as (n1 & t1 & d1 & r1 & Ht & _ & _ & _ & Hsh & _).
  destruct (einsum_ntd_inv _ _ E2)
    as (n2 & t2 & d2 & r2 & Hm & Hx2 & _ & Hd2 & Hsc1 & _).
  rewrite Hsh in Hx2. injection Hx2 as Hn2 Hr2. subst n2 r2.
  rewrite last_last in Hd2. subst d2.
  rewrite removelast_last in Hsc1.
  destruct (einsum_ntd_inv _ _ E3)
    as (n3 & t3 & d3 & r3 & Hp & Hx3 & _ & Hd3 & _).
  rewrite Hsc1 in Hx3. injection Hx3 as Hn3 Hr3. subst n3 r3.
  rewrite last_last in Hd3. subst d3.
  edestruct (einsum_matmul exact) as (z1 & Ez1 & Hz1);
    [exact Hp | exact Hm | exact E2 | exact E3 |].
  assert (Hpm : shape (Spec.matmul
                         (phy2torch (moving_images (base self))) m)
                = [n1; t3; t1]).
  { unfold Spec.matmul; simpl. rewrite Hp, Hm. reflexivity. }
  edestruct (einsum_matmul exact) as (z2 & Ez2 & Hz2);
    [exact Hpm | exact Ht | exact Hh | exact Ez1 |].
  exists z2. split; [exact Ez2|].
  apply drop_last_tensor_eq.
  destruct Hz1 as [S1 E1]. destruct Hz2 as [S2 E2'].
  split; [congruence|].
  intros idx Hin. rewrite <- E1 by (rewrite S1; exact Hin).
  symmetry. apply E2'. rewrite S2, S1. exact Hin.
Qed.

End ExactTheorems.

(* ===================================================================== *)
(** * Properties of the image utilities *)
(* ===================================================================== *)

Import ImageUtils.

Section FieldFacts.
Context {R : Type} {SR : Scalar R} {GS : Resampler R}.

Lemma in_range_spec (shp idx : list nat) :
  in_range shp idx = true <->
  length idx = length shp /\
  forall j, j < length shp -> nth j idx 0 < nth j shp 0.
Proof.
  revert idx. induction shp as [|s shp IH]; intros [|i idx]; simpl.
  - split; [intros _; split; [reflexivity | intros j Hj; lia] | reflexivity].
  - split; [discriminate | intros [H _]; discriminate].
  - split; [discriminate | intros [H _]; discriminate].
  - rewrite andb_true_iff, Nat.ltb_lt, IH. split.
    + intros (Hi & Hl & Hn). split; [lia|].
      intros [|j] Hj; [exact Hi | apply Hn; lia].
    + intros (Hl & Hn). split; [apply (Hn 0); lia|].
      split; [lia|]. intros j Hj. apply (Hn (S j)). lia.
Qed.

Lemma index_of_spec (j : nat) (perm : list nat) :
  In j perm -> index_of j perm < length perm /\ nth (index_of j perm) perm 0 = j.
Proof.
  induction perm as [|p ps IH]; simpl; [contradiction|].
  intros Hin. destruct (Nat.eqb_spec p j) as [->|Hne].
  - split; [lia | reflexivity].
  - destruct Hin as [Heq|Hin]; [contradiction|].
    destruct (IH Hin) as [H1 H2]. split; [lia | exact H2].
Qed.

Lemma is_permutation_in (perm : list nat) j :
  is_permutation perm = true -> j < length perm -> In j perm.
Proof.
  unfold is_permutation. rewrite forallb_forall. intros H Hj.
  specialize (H j). rewrite existsb_exists in H.
  destruct H as (x & Hx & Heq); [apply in_seq; lia|].
  apply Nat.eqb_eq in Heq. subst x. exact Hx.
Qed.

Lemma permute_inv (perm : list nat) (t t' : tensor R) :
  permute perm t = Ok t' ->
  length perm = length (shape t) /\ is_permutation perm = true /\
  shape t' = map (fun p => nth p (shape t) 0) perm /\
  forall idx, elem t' idx
              = elem t (map (fun j => nth (index_of j perm) idx 0)
                            (seq 0 (length perm))).
Proof.
  unfold permute.
  destruct ((length perm =? length (shape t)) && is_permutation perm) eqn:E;
    [|discriminate].
  apply andb_true_iff in E. destruct E as [E1 E2]. apply Nat.eqb_eq in E1.
  intros H; inversion H; subst; simpl. repeat split; assumption.
Qed.

Lemma permute_ok (perm : list nat) (t : tensor R) :
  length perm = length (shape t) -> is_permutation perm = true ->
  exists t', permute perm t = Ok t'.
Proof.
  intros H1 H2. unfold permute. rewrite H1, Nat.eqb_refl, H2. simpl.
  eexists; reflexivity.
Qed.

(** Permuting the axes moves elements, it makes none. *)
Lemma permute_all_zero (perm : list nat) (t t' : tensor R) :
  permute perm t = Ok t' -> all_zero t -> all_zero t'.
Proof.
  intros Hp Hz. destruct (permute_inv _ _ Hp) as (Hlen & Hperm & Hs & He).
  intros idx Hin. rewrite He. apply Hz.
  rewrite Hs in Hin. apply in_range_spec in Hin.
  rewrite length_map in Hin. destruct Hin as [Hl Hn].
  apply in_range_spec. rewrite length_map, length_seq. split; [exact Hlen|].
  intros j Hj. rewrite <- Hlen in Hj.
  rewrite (nth_indep _ 0 (nth (index_of 0 perm) idx 0))
    by (rewrite length_map, length_seq; exact Hj).
  rewrite (map_nth (fun j => nth (index_of j perm) idx 0)).
  rewrite seq_nth by exact Hj. simpl.
  destruct (index_of_spec j perm (is_permutation_in _ Hperm Hj)) as [Hk Hnth].
  specialize (Hn _ Hk).
  rewrite (nth_indep (map (fun p => nth p (shape t) 0) perm) 0
             (nth 0 (shape t) 0)) in Hn
    by (rewrite length_map; exact Hk).
  rewrite (map_nth (fun p => nth p (shape t) 0)) in Hn.
  rewrite Hnth in Hn. exact Hn.
Qed.

Lemma add_inv (a b c : tensor R) :
  add a b = Ok c ->
  shape a = shape b /\ shape c = shape a /\
  forall idx, elem c idx = Radd (elem a idx) (elem b idx).
Proof.
  unfold add. destruct (shape_eqb (shape a) (shape b)) eqn:E; [|discriminate].
  apply shape_eqb_eq in E. intros H; inversion H; subst; simpl. auto.
Qed.

Lemma add_ok (a b : tensor R) :
  shape a = shape b -> exists c, add a b = Ok c.
Proof.
  intros H. unfold add.
  replace (shape_eqb (shape a) (shape b)) with true
    by (symmetry; apply shape_eqb_eq; exact H).
  eexists; reflexivity.
Qed.

Lemma iterate_invariant (P : tensor R -> Prop) (step : tensor R -> result (tensor R)) :
  (forall v, P v -> exists v', step v = Ok v' /\ P v') ->
  forall n v, P v -> exists v', iterate n step v = Ok v' /\ P v'.
Proof.
  intros Hstep. induction n as [|n IH]; intros v Hv; simpl.
  - exists v. split; [reflexivity | exact Hv].
  - destruct (Hstep v Hv) as (v1 & E1 & H1). rewrite E1. simpl.
    apply IH; exact H1.
Qed.

End FieldFacts.

(** The power of two is a float, and so is its inverse, up to [2**1023]. *)
Lemma scale_factor_ok (n : nat) :
  n < 1024 ->
  exists c, scale_factor n = Ok c /\ float_is_finite c = true /\
            float_is_zero c = false.
Proof.
  intros Hn.
  assert (Hall : forallb (fun k => match scale_factor k with
                                   | Ok c => float_is_finite c
                                             && negb (float_is_zero c)
                                   | Raise _ => false
                                   end) (seq 0 1024) = true)
    by (vm_compute; reflexivity).
  rewrite forallb_forall in Hall.
  specialize (Hall n). rewrite in_seq in Hall.
  destruct (scale_factor n) as [c|e]; [|discriminate Hall; lia].
  exists c. split; [reflexivity|].
  apply andb_true_iff in Hall; [|lia].
  destruct Hall as [H1 H2]. split; [exact H1|].
  destruct (float_is_zero c); [discriminate | reflexivity].
Qed.

Section FieldTheorems.
Context {R : Type} {SR : Scalar R} {GS : Resampler R}.

Lemma scale_all_zero (c : pyfloat) (u : tensor R) n :
  Spec.scaling_keeps_zero n -> scale_factor n = Ok c ->
  all_zero u -> all_zero (scale c u).
Proof.
  intros Hs Hc Hz idx Hin. simpl. apply (Hs c _ Hc). apply Hz. exact Hin.
Qed.

(** One squaring step keeps an all-zero field all-zero, and its shape. *)
Lemma squaring_step_zero (to_img from_img : list nat) (grid v : tensor R)
    b c sp :
  Spec.zero_closed -> Spec.resamples_in_place -> Spec.resampling_keeps_zero ->
  shape v = b :: sp ++ [c] -> c = length sp -> shape grid = shape v ->
  length to_img = length (shape v) -> is_permutation to_img = true ->
  map (fun p => nth p (shape v) 0) to_img = b :: c :: sp ->
  length from_img = length (b :: c :: sp) -> is_permutation from_img = true ->
  map (fun p => nth p (b :: c :: sp) 0) from_img = shape v ->
  all_zero v ->
  exists v', squaring_step to_img from_img grid v = Ok v' /\
             shape v' = shape v /\ all_zero v'.
Proof.
  intros Hadd Hshape Hzero Hv Hc Hg Hl1 Hp1 Hm1 Hl2 Hp2 Hm2 Hz.
  unfold squaring_step.
  destruct (permute_ok to_img v Hl1 Hp1) as [vimg Evimg].
  destruct (permute_inv _ _ Evimg) as (_ & _ & Hsimg & _).
  rewrite Evimg; cbn [Py.bind].
  destruct (add_ok v grid (eq_sym Hg)) as [g Eg].
  destruct (add_inv _ _ Eg) as (_ & Hsg & _).
  rewrite Eg; cbn [Py.bind].
  rewrite Hm1 in Hsimg.
  destruct (Hshape vimg g b c sp Hsimg) as (s & Es & Hss).
  { rewrite Hsg, Hv, Hc. reflexivity. }
  rewrite Es; cbn [Py.bind].
  assert (Zs : all_zero s).
  { eapply Hzero; [exact Es|]. eapply permute_all_zero; eassumption. }
  destruct (permute_ok from_img s) as [s' Es'];
    [rewrite Hss; exact Hl2 | exact Hp2 |].
  destruct (permute_inv _ _ Es') as (_ & _ & Hss' & _).
  rewrite Es'; cbn [Py.bind].
  rewrite Hss, Hm2 in Hss'.
  destruct (add_ok v s' (eq_sym Hss')) as [v' Ev'].
  destruct (add_inv _ _ Ev') as (_ & Hsv' & Hev').
  exists v'. split; [exact Ev'|]. split; [exact Hsv'|].
  intros idx Hin. rewrite Hev'. rewrite Hsv' in Hin. apply Hadd.
  - apply Hz; exact Hin.
  - eapply permute_all_zero; [exact Es' | exact Zs |].
    rewrite Hss'. exact Hin.
Qed.

(** C8, as the code has it.  For every step count from 0 to 1023, both
    dimensionalities, every all-zero velocity field and every grid of the
    shape of the field, [scaling_and_squaring] returns an all-zero
    displacement field of that shape: given that a sum of zeros and the
    factor times a zero are zeros, and that the resampler keeps the extent
    and gives zeros on an all-zero image. *)
Theorem scaling_and_squaring_zero (u grid : tensor R) (n : nat) :
  Spec.zero_closed -> Spec.scaling_keeps_zero n ->
  Spec.resamples_in_place -> Spec.resampling_keeps_zero ->
  n < 1024 ->
  Spec.field_shape (shape u) -> shape grid = shape u -> all_zero u ->
  exists v, scaling_and_squaring u grid n = Ok v /\
            shape v = shape u /\ all_zero v.
Proof.
  intros Hadd Hscale Hshape Hzero Hn Hfield Hg Hz.
  destruct (scale_factor_ok Hn) as (c & Ec & _).
  pose proof (scale_all_zero Hscale Ec Hz) as Hz0.
  unfold scaling_and_squaring.
  destruct Hfield as [(b & d & h & w & Hu) | (b & h & w & Hu)];
    rewrite Hu; cbn [last Nat.eqb]; rewrite Ec; cbn [Py.bind].
  - destruct (@iterate_invariant R
                (fun v => shape v = shape u /\ all_zero v)
                (squaring_step [0; 4; 1; 2; 3] [0; 2; 3; 4; 1] grid))
      with (n := n) (v := scale c u) as (v & Ev & Hv & Zv).
    + intros v [Hv Zv].
      destruct (@squaring_step_zero [0; 4; 1; 2; 3] [0; 2; 3; 4; 1] grid v
                  b 3 [d; h; w] Hadd Hshape Hzero)
        as (v' & Ev' & Hv' & Zv');
        try (rewrite Hv, Hu; reflexivity); try reflexivity;
        [congruence | exact Zv |].
      exists v'. split; [exact Ev'|]. split; [congruence | exact Zv'].
    + split; [reflexivity | exact Hz0].
    + exists v. split; [exact Ev|]. split; [congruence | exact Zv].
  - destruct (@iterate_invariant R
                (fun v => shape v = shape u /\ all_zero v)
                (squaring_step [0; 3; 1; 2] [0; 2; 3; 1] grid))
      with (n := n) (v := scale c u) as (v & Ev & Hv & Zv).
    + intros v [Hv Zv].
      destruct (@squaring_step_zero [0; 3; 1; 2] [0; 2; 3; 1] grid v
                  b 2 [h; w] Hadd Hshape Hzero)
        as (v' & Ev' & Hv' & Zv');
        try (rewrite Hv, Hu; reflexivity); try reflexivity;
        [congruence | exact Zv |].
      exists v'. split; [exact Ev'|]. split; [congruence | exact Zv'].
    + split; [reflexivity | exact Hz0].
    + exists v. split; [exact Ev|]. split; [congruence | exact Zv].
Qed.

End FieldTheorems.

Section GradientTheorems.
Context {R : Type} {SR : Scalar R} {GS : Resampler R}.

Lemma conv_ok nd (input weight : tensor R) padding b cin sp cout ks out :
  shape input = b :: cin :: sp -> shape weight = cout :: cin :: ks ->
  length sp = nd -> length padding = nd ->
  conv_out_shape sp padding ks = Some out ->
  exists t, conv nd input weight padding = Ok t /\ shape t = b :: cout :: out.
Proof.
  intros Hi Hw Hs Hp Ho. unfold conv. rewrite Hi, Hw, Hs, Hp, Ho.
  rewrite !Nat.eqb_refl. simpl. eexists. split; reflexivity.
Qed.

(** A kernel of three taps along one axis and one tap along the others,
    padded by one along that axis, keeps every extent of at least 1. *)
Lemma conv_out_shape_same (sp ps ks : list nat) :
  Forall (fun s => 1 <= s) sp ->
  Forall2 (fun p k => (p = 0 /\ k = 1) \/ (p = 1 /\ k = 3)) ps ks ->
  length sp = length ps ->
  conv_out_shape sp ps ks = Some sp.
Proof.
  intros Hsp Hpk. revert sp Hsp.
  induction Hpk as [|p k ps ks Hpk _ IH]; intros [|s sp] Hsp Hlen;
    cbn [conv_out_shape length] in *; try discriminate; [reflexivity|].
  inversion Hsp as [|? ? Hs Hsp']; subst.
  rewrite IH by (assumption || lia).
  replace ((1 <=? k) && (k <=? s + 2 * p)) with true
    by (symmetry; apply andb_true_iff; split; apply Nat.leb_le; lia).
  do 2 f_equal. lia.
Qed.

Ltac taps :=
  repeat (apply Forall2_cons;
          [solve [left; split; reflexivity | right; split; reflexivity]|]);
  apply Forall2_nil.


End GradientTheorems.

(* ===================================================================== *)
(** * The code at work *)
(* ===================================================================== *)

Import Sym.

Local Open Scope string_scope.

(** ** The registration of two 16 x 16 images *)

Lemma registration_built mode : registration mode = Ok (built mode).
Proof. reflexivity. Qed.

Lemma built_well_shaped mode : well_shaped (built mode).
Proof.
  unfold well_shaped; simpl.
  repeat (split; [reflexivity|]).
  intros size Hlen. exists (map Z.to_nat size).
  rewrite length_map, Hlen. reflexivity.
Qed.

(** The run has five iterations, each with its call of the resampler. *)
Example built_run_samples :
  map (fun st => length (filter Spec.is_sample (st_events st)))
      (fst (fst (optimize (built "atol") false)))
  = [3; 2].
Proof. vm_compute. reflexivity. Qed.

(** C2, as stated, fails: not asked for intermediate results, the run
    returns None, which is not the final affine matrix. *)
Lemma optimize_returns_none_not_matrix :
  snd (optimize (built "atol") false) = Ok PyNone /\
  forall m v, snd (optimize (built "atol") false) = Ok v ->
              ~ Spec.returns_final_matrix false m v.
Proof.
  assert (H : snd (optimize (built "atol") false) = Ok PyNone)
    by (vm_compute; reflexivity).
  split; [exact H|].
  intros m v Hv. rewrite H in Hv. injection Hv as <-.
  intros (m' & Hm & _). discriminate Hm.
Qed.

Lemma optimize_returns_images_or_none_witness :
  well_shaped (built "atol") /\
  length (scales (base (built "atol")))
  = length (iterations (base (built "atol"))) /\
  exists trs self' imgs,
    optimize (built "atol") true = (trs, self', Ok (PyImages imgs)) /\
    optimize (built "atol") false = (trs, self', Ok PyNone) /\
    map Some imgs = map (fun st => Spec.last_moved (st_events st)) trs.
Proof.
  split; [apply built_well_shaped|]. split; [reflexivity|].
  destruct (optimize_returns_images_or_none (self := built "atol")
              (built_well_shaped "atol") eq_refl) as [_ H].
  apply H.
  - discriminate.
  - repeat constructor; discriminate.
  - repeat constructor; discriminate.
Defined.

(** C3, as stated, fails: on the first scale the loop holds the fixed image
    interpolated to 8 x 8; [downsample] to that size would have smoothed it
    first, and gives another image. *)
Lemma fixed_image_down_is_not_downsample :
  match fst (fst (optimize (built "atol") false)) with
  | st :: _ =>
      exists d,
        downsample (arrays fixed) (st_size_down st) "bilinear" None None
        = Ok d /\
        st_fixed_image_down st <> d /\
        smoothed (st_fixed_image_down st) = false /\ smoothed d = true
  | [] => False
  end.
Proof.
  vm_compute. eexists. split; [reflexivity|].
  split; [discriminate|]. split; reflexivity.
Qed.


Lemma rtol_zero_previous_loss_raises_witness :
  tolerance_mode (base (built "rtol")) = "rtol" /\
  float_is_zero (prev_loss (mkLocals 3%Z (S754_zero false) (@None image))) = true /\
  convergence_test "rtol" tenth 10 3 (S754_zero false) (float_lit 1)
  = Raise ZeroDivisionError.
Proof.
  split; [reflexivity|]. split; [reflexivity|].
  destruct (rtol_zero_previous_loss_raises (built "rtol")
              (zeros [1; 8; 8; 3]) (arrays fixed)
              (mkLocals 3%Z (S754_zero false) None) 0 eq_refl eq_refl)
    as [H _].
  apply (H tenth 10%Z 3%Z (float_lit 1)).
Defined.

Lemma current_matrix_homogeneous_witness :
  registration "atol" = Ok (built "atol") /\
  (forall a, @None (tensor spec_float) = Some a -> shape a = [1; 2; 3]) /\
  exists m, get_affine_matrix (built "atol") = Ok m /\
            Spec.homogeneous 1 2 m.
Proof.
  split; [reflexivity|]. split; [discriminate|].
  destruct (@current_matrix_homogeneous spec_float _ image kernel _ pyfloat
              _ _ [2; 1]%Z [3; 2]%Z fixed moving "SGD" tenth
              (S754_zero false) (S754_zero false) 10%Z "atol" None
              (built "atol") (snd (fst (optimize (built "atol") false)))
              false (fst (fst (optimize (built "atol") false)))
              (snd (optimize (built "atol") false))
              (registration_built "atol"))
    as (_ & _ & H & _).
  - discriminate.
  - destruct (optimize (built "atol") false) as [[trs self'] r]. reflexivity.
  - exact H.
Defined.

Lemma mismatched_schedule_is_rejected_witness :
  length [2; 1]%Z <> length [3]%Z /\
  AffineRegistration_init (opt_state := pyfloat) [2; 1]%Z [3]%Z fixed moving
    "SGD" tenth (S754_zero false) (S754_zero false) 10%Z "atol" None
  = Raise (ConfigurationError "scales and iterations differ in length").
Proof.
  split; [discriminate|].
  apply mismatched_schedule_is_rejected. discriminate.
Defined.


(** The integers meet the laws of exact arithmetic. *)
Lemma exact_Z_arithmetic : Spec.exact_arithmetic (R := Z).
Proof.
  unfold Spec.exact_arithmetic, R0; simpl.
  repeat split; intros; lia.
Qed.

(** ** Fields and gradients in float32 *)

Lemma float32_zero_closed : Spec.zero_closed (R := spec_float).
Proof.
  intros [s1|s1| |s1 m1 e1] [s2|s2| |s2 m2 e2]; try discriminate.
  intros _ _. destruct s1, s2; reflexivity.
Qed.

Lemma float32_scaling_keeps_zero : Spec.scaling_keeps_zero (R := spec_float) 6.
Proof.
  intros c a Hc Ha. vm_compute in Hc. injection Hc as <-.
  destruct a as [s| | |]; try discriminate. reflexivity.
Qed.

Lemma resampler_in_place : Spec.resamples_in_place (R := spec_float).
Proof.
  intros img g b c sp Hi Hg. simpl. rewrite Hi, Hg, Nat.eqb_refl.
  replace (shape_eqb (sp ++ [length sp]) (sp ++ [length sp])) with true
    by (symmetry; apply shape_eqb_eq; reflexivity).
  simpl. eexists. split; reflexivity.
Qed.

Lemma resampler_keeps_zero : Spec.resampling_keeps_zero (R := spec_float).
Proof.
  intros img g t. simpl.
  destruct (shape img) as [|b [|c sp]] eqn:Hi; try discriminate.
  destruct (shape g) as [|b' rest]; try discriminate.
  destruct ((b =? b')%nat && shape_eqb (sp ++ [length sp]) rest);
    [|discriminate].
  intros H; injection H as <-. intros Hz idx Hin. simpl in *.
  apply Hz. rewrite Hi. exact Hin.
Qed.

(** C8, as stated, fails: with 1024 squaring steps the factor [1.0/2**n]
    cannot be formed, the power being beyond the floats, and no field is
    returned for the all-zero planar field on its identity grid. *)
Lemma scaling_and_squaring_1024_raises :
  all_zero (zero_field [1; 4; 4; 2]) /\
  shape (identity_grid [1; 2; 4; 4]%Z) = shape (zero_field [1; 4; 4; 2]) /\
  scaling_and_squaring (zero_field [1; 4; 4; 2])
    (identity_grid [1; 2; 4; 4]%Z) 1024
  = Raise OverflowError.
Proof.
  split; [intros idx _; reflexivity|].
  split; [reflexivity|].
  vm_compute. reflexivity.
Qed.

Lemma scaling_and_squaring_zero_witness :
  6 < 1024 /\
  Spec.field_shape (shape (zero_field [1; 4; 4; 2])) /\
  shape (identity_grid [1; 2; 4; 4]%Z) = shape (zero_field [1; 4; 4; 2]) /\
  all_zero (zero_field [1; 4; 4; 2]) /\
  exists v,
    scaling_and_squaring (zero_field [1; 4; 4; 2])
      (identity_grid [1; 2; 4; 4]%Z) 6 = Ok v /\
    shape v = [1; 4; 4; 2] /\ all_zero v.
Proof.
  assert (Hn : 6 < 1024) by (repeat constructor).
  assert (Hf : Spec.field_shape (shape (zero_field [1; 4; 4; 2])))
    by (right; exists 1, 4, 4; reflexivity).
  assert (Hz : all_zero (zero_field [1; 4; 4; 2]))
    by (intros idx _; reflexivity).
  split; [exact Hn|]. split; [exact Hf|]. split; [reflexivity|].
  split; [exact Hz|].
  apply (@scaling_and_squaring_zero spec_float float32 resampler
           (zero_field [1; 4; 4; 2]) (identity_grid [1; 2; 4; 4]%Z) 6
           float32_zero_closed float32_scaling_keeps_zero resampler_in_place
           resampler_keeps_zero Hn Hf eq_refl Hz).
Defined.


Local Close Scope string_scope.

(* ===================================================================== *)
(** * More properties of the registration loop *)
(* ===================================================================== *)

Import Trace.

(** ** Construction *)

Section ConstructionMore.
Context {R : Type} {SR : Scalar R}.
Context {image kernel : Type} {IO : ImageOps image kernel}.
Context {opt_state : Type} {SS : Session (R := R) (image := image) opt_state}.
Context {GL : Globals}.

(** X1.  Once the base class has accepted the arguments, the optimizer name
    decides the outcome of the constructor: 'SGD' gives a registration with
    the SGD optimizer on the learning rate and the momentum, 'Adam' one with
    the Adam optimizer on the learning rate alone (the momentum is not passed
    on), and every other name raises ValueError. *)
Theorem optimizer_name_decides
    scales_ iterations_ (fixed moving : BatchedImages R image)
    optimizer_ lr momentum tol max_iters mode init_rigid super :
  AbstractRegistration_init scales_ iterations_ fixed moving tol max_iters
    mode = Ok super ->
  (optimizer_ = "SGD"%string ->
   exists self : AffineRegistration R image opt_state,
     AffineRegistration_init scales_ iterations_ fixed moving optimizer_ lr
       momentum tol max_iters mode init_rigid = Ok self /\
     optimizer self = SGD lr momentum) /\
  (optimizer_ = "Adam"%string ->
   exists self : AffineRegistration R image opt_state,
     AffineRegistration_init scales_ iterations_ fixed moving optimizer_ lr
       momentum tol max_iters mode init_rigid = Ok self /\
     optimizer self = Adam lr) /\
  (optimizer_ <> "SGD"%string -> optimizer_ <> "Adam"%string ->
   AffineRegistration_init (opt_state := opt_state) scales_ iterations_
     fixed moving optimizer_ lr momentum tol max_iters mode init_rigid
   = Raise (ValueError "Optimizer not supported")).
Proof.
  intros Hsuper. unfold AffineRegistration_init. rewrite Hsuper.
  cbn [Py.bind].
  split; [|split].
  - intros ->. simpl. eexists. split; reflexivity.
  - intros ->. simpl. eexists. split; reflexivity.
  - intros H1 H2.
    destruct (String.eqb_spec optimizer_ "SGD"); [contradiction|].
    destruct (String.eqb_spec optimizer_ "Adam"); [contradiction|].
    reflexivity.
Qed.

Lemma eye_batch_elem n d b i j :
  elem (eye_batch (R := R) n d) [b; i; j] = if i =? j then R1 else R0.
Proof. reflexivity. Qed.

(** X2.  A registration constructed without [init_rigid] starts at the
    identity: the first matrix [get_affine_matrix] returns has shape [N,
    dims+1, dims+1], where N is the batch size of the fixed images and dims
    the dimension of the moving images, with 1 on the diagonal and 0
    elsewhere. *)
Theorem default_matrix_is_identity
    scales_ iterations_ (fixed moving : BatchedImages R image)
    optimizer_ lr momentum tol max_iters mode
    (self : AffineRegistration R image opt_state) :
  AffineRegistration_init scales_ iterations_ fixed moving optimizer_ lr
    momentum tol max_iters mode None = Ok self ->
  exists m, get_affine_matrix self = Ok m /\
            identity_batch (batch_size fixed) (image_dims moving + 1) m.
Proof.
  intros Hinit.
  destruct (init_inv _ _ _ _ _ _ _ _ _ _ _ Hinit) as (_ & _ & _ & Hr & Ha).
  unfold get_affine_matrix. rewrite Hr, Ha.
  set (n := batch_size fixed). set (d := image_dims moving).
  unfold cat1. cbn [shape eye_batch repeat0 unsqueeze0 eye init_row
                    setitem_col0_last zeros hd tl].
  rewrite Nat.mul_1_r, Nat.eqb_refl. cbn [shape_eqb].
  rewrite Nat.eqb_refl. cbn [andb].
  eexists. split; [reflexivity|].
  split; [reflexivity|].
  intros b i j Hb Hi Hj. cbn [elem nth].
  destruct (Nat.ltb_spec i d) as [Hlt|Hge].
  - reflexivity.
  - assert (i = d) by lia. subst i.
    unfold set_nth. cbn [firstn skipn app]. rewrite Nat.sub_diag.
    rewrite (init_row_elem n d b j), (Nat.eqb_sym j d). reflexivity.
Qed.


End ConstructionMore.

(** ** The parameter along a run *)

Section ChainFacts.
Context {R : Type} {SR : Scalar R}.
Context {image kernel : Type} {IO : ImageOps image kernel}.
Context {opt_state : Type} {SS : Session (R := R) (image := image) opt_state}.
Context {GL : Globals}.

Lemma reads_of_app (a b : list (event R image)) :
  reads_of (a ++ b) = reads_of a ++ reads_of b.
Proof. unfold reads_of. apply flat_map_app. Qed.

Lemma all_reads_cons_opt (tr : option (scale_trace R image)) trs :
  all_reads (cons_opt tr trs) = all_reads (cons_opt tr []) ++ all_reads trs.
Proof.
  destruct tr as [st|]; simpl; [|reflexivity].
  rewrite app_nil_r. reflexivity.
Qed.

Lemma param_chain_app (s1 s2 s3 : tensor R * opt_state) l1 l2 raised :
  param_chain false s1 l1 s2 -> param_chain raised s2 l2 s3 ->
  param_chain raised s1 (l1 ++ l2) s3.
Proof.
  intros H1 H2. remember false as f eqn:Ef.
  induction H1 as [s|p opt|r p opt grad rest final H IH]; simpl.
  - exact H2.
  - discriminate.
  - subst r. eapply chain_step. apply IH; [reflexivity | exact H2].
Qed.

Lemma iteration_chain (self : AffineRegistration R image opt_state)
    homo fd loc evs self' r :
  iteration self homo fd loc = (evs, self', r) ->
  exists raised,
    param_chain raised (store self) (reads_of evs) (store self') /\
    (raised = true -> exists e, r = Raise e).
Proof.
  unfold iteration.
  destruct (get_affine_matrix self) as [m|e].
  2:{ intros H; injection H as <- <- <-. exists false.
      split; [constructor | discriminate]. }
  destruct (Py.bind _ _) as [c|e].
  2:{ intros H; injection H as <- <- <-. exists true.
      split; [apply chain_raise | eauto]. }
  destruct (optimizer_step _ _ _) as [vals opt] eqn:Es.
  match type of Es with
  | optimizer_step ?o ?p ?g = _ =>
      assert (Hstep : store (with_step self vals opt) = step_of o p g)
        by (unfold step_of, store, with_step; rewrite Es; reflexivity)
  end.
  destruct (convergence_test _ _ _ _ _ _) as [[c' b]|e];
    intros H; injection H as <- <- <-; exists false;
    (split; [|discriminate]); simpl reads_of; rewrite Hstep;
    eapply chain_step; apply chain_end.
Qed.

Lemma scale_loop_chain iters :
  forall (self : AffineRegistration R image opt_state) homo fd loc evs self' r,
    scale_loop iters self homo fd loc = (evs, self', r) ->
    exists raised,
      param_chain raised (store self) (reads_of evs) (store self') /\
      (raised = true -> exists e, r = Raise e).
Proof.
  induction iters as [|k IH]; intros self homo fd loc evs self' r; simpl.
  - intros H; injection H as <- <- <-. exists false.
    split; [constructor | discriminate].
  - destruct (iteration self homo fd loc) as [[evs1 self1] r1] eqn:E1.
    destruct (iteration_chain _ _ _ _ E1) as (ra & Hc & Hra).
    destruct r1 as [[loc1 [|]]|e].
    + intros H; injection H as <- <- <-. exists ra. split; [exact Hc|].
      intros ->. destruct (Hra eq_refl) as [e He]; discriminate.
    + destruct (scale_loop k self1 homo fd loc1) as [[evs2 self2] r2] eqn:E2.
      intros H; injection H as <- <- <-.
      destruct (IH _ _ _ _ _ _ _ E2) as (rb & Hc2 & Hrb).
      exists rb. split; [|exact Hrb].
      rewrite reads_of_app. apply param_chain_app with (s2 := store self1);
        [|exact Hc2].
      destruct ra; [destruct (Hra eq_refl); discriminate | exact Hc].
    + intros H; injection H as <- <- <-. exists ra. split; [exact Hc|].
      intros _. eauto.
Qed.

Lemma scale_body_chain (self : AffineRegistration R image opt_state)
    sc it moved tr self' r :
  scale_body self sc it moved = (tr, self', r) ->
  exists raised,
    param_chain raised (store self) (all_reads (cons_opt tr [])) (store self') /\
    (raised = true -> exists e, r = Raise e).
Proof.
  unfold scale_body.
  destruct (size_down _ sc) as [sz|e].
  2:{ intros H; injection H as <- <- <-. exists false.
      split; [constructor | discriminate]. }
  destruct (einsum_ntd _ _) as [homo|e].
  2:{ intros H; injection H as <- <- <-. exists false.
      split; [constructor | discriminate]. }
  destruct (scale_loop _ _ _ _ _) as [[evs s1] r1] eqn:El.
  intros H; injection H as <- <- <-.
  destruct (scale_loop_chain _ _ _ _ _ El) as (ra & Hc & Hra).
  exists ra. simpl. rewrite app_nil_r. split; [exact Hc|].
  intros Ht. destruct (Hra Ht) as [e ->]. eauto.
Qed.

Lemma optimize_scales_chain schedule :
  forall (self : AffineRegistration R image opt_state) save moved timgs
         trs self' r,
    optimize_scales schedule self save moved timgs = (trs, self', r) ->
    exists raised,
      param_chain raised (store self) (all_reads trs) (store self') /\
      (raised = true -> exists e, r = Raise e).
Proof.
  induction schedule as [|[sc it] rest IH];
    intros self save moved timgs trs self' r; simpl.
  - intros H; injection H as <- <- <-. exists false.
    split; [constructor | discriminate].
  - destruct (scale_body self sc it moved) as [[tr s1] r1] eqn:Eb.
    destruct (scale_body_chain _ _ _ _ Eb) as (ra & Hc & Hra).
    destruct r1 as [moved'|e].
    2:{ intros H; injection H as <- <- <-. exists ra.
        split; [exact Hc | eauto]. }
    assert (Hfalse : ra = false).
    { destruct ra; [destruct (Hra eq_refl); discriminate | reflexivity]. }
    subst ra.
    destruct (if save then _ else _) as [timgs'|e].
    2:{ intros H; injection H as <- <- <-. exists false.
        split; [exact Hc | discriminate]. }
    destruct (optimize_scales rest s1 save moved' timgs')
      as [[trs2 s2] r2] eqn:Er.
    intros H; injection H as <- <- <-.
    destruct (IH _ _ _ _ _ _ _ Er) as (rb & Hc2 & Hrb).
    exists rb. split; [|exact Hrb].
    rewrite all_reads_cons_opt.
    apply param_chain_app with (s2 := store s1); assumption.
Qed.

(** X4.  The parameter is never put back: along a whole run, across iterations
    and across scales, each parameter [get_affine_matrix] reads is the
    optimizer step of the one read before it, with the optimizer in the state
    the step before left it; the first is the parameter of the registration at
    the call, and the run leaves the step of the last.  Only an exception
    between a read and its step (which ends the run) leaves the last parameter
    read in place. *)
Theorem parameter_carried_through_run
    (self : AffineRegistration R image opt_state) (save : bool) :
  exists raised,
    param_chain raised (store self)
      (all_reads (fst (fst (optimize self save))))
      (store (snd (fst (optimize self save)))) /\
    (raised = true -> exists e, snd (optimize self save) = Raise e).
Proof.
  unfold optimize.
  destruct (optimize_scales _ _ _ _ _) as [[trs s1] r1] eqn:E.
  destruct (optimize_scales_chain _ _ _ _ _ E) as (ra & Hc & Hra).
  exists ra. simpl. split; [exact Hc|].
  intros Ht. destruct (Hra Ht) as [e ->]. eauto.
Qed.

End ChainFacts.

(** ** The schedule *)

Section ScheduleFacts.
Context {R : Type} {SR : Scalar R}.
Context {image kernel : Type} {IO : ImageOps image kernel}.
Context {opt_state : Type} {SS : Session (R := R) (image := image) opt_state}.
Context {GL : Globals}.

(** The body of a scale that returns has left a trace. *)
Lemma scale_body_ok_trace (self : AffineRegistration R image opt_state)
    sc it moved tr self' moved' :
  scale_body self sc it moved = (tr, self', Ok moved') ->
  exists st, tr = Some st.
Proof.
  unfold scale_body.
  destruct (size_down _ sc) as [sz|e]; [|discriminate].
  destruct (einsum_ntd _ _) as [homo|e]; [|discriminate].
  destruct (scale_loop _ _ _ _ _) as [[evs s1] r1].
  intros H; injection H as <- _ _. eauto.
Qed.

Lemma schedule_of_cons_opt (self : AffineRegistration R image opt_state)
    sc it moved tr self' r :
  scale_body self sc it moved = (tr, self', r) ->
  schedule_of (cons_opt tr []) = [] \/ schedule_of (cons_opt tr []) = [(sc, it)].
Proof.
  intros Eb. destruct tr as [st|]; [right | left; reflexivity].
  destruct (scale_body_trace _ _ _ _ Eb) as (Hs & Hi & _).
  simpl. rewrite Hs, Hi. reflexivity.
Qed.

Lemma optimize_scales_schedule schedule :
  forall (self : AffineRegistration R image opt_state) save moved timgs
         trs self' r,
    optimize_scales schedule self save moved timgs = (trs, self', r) ->
    (exists rest, schedule = schedule_of trs ++ rest) /\
    (forall v, r = Ok v -> schedule_of trs = schedule).
Proof.
  induction schedule as [|[sc it] rest IH];
    intros self save moved timgs trs self' r; simpl.
  - intros H; injection H as <- <- <-.
    split; [exists []; reflexivity | reflexivity].
  - destruct (scale_body self sc it moved) as [[tr s1] r1] eqn:Eb.
    pose proof (schedule_of_cons_opt _ _ _ _ Eb) as Hhead.
    destruct r1 as [moved'|e].
    2:{ intros H; injection H as <- <- <-. split; [|discriminate].
        destruct Hhead as [-> | ->]; eexists; reflexivity. }
    destruct (scale_body_ok_trace _ _ _ _ Eb) as [st ->].
    destruct Hhead as [Hhead|Hhead]; [discriminate|].
    simpl in Hhead. injection Hhead as Hs Hi.
    destruct (if save then _ else _) as [timgs'|e].
    2:{ intros H; injection H as <- <- <-. split; [|discriminate].
        simpl. rewrite Hs, Hi. exists rest; reflexivity. }
    destruct (optimize_scales rest s1 save moved' timgs')
      as [[trs2 s2] r2] eqn:Er.
    intros H; injection H as <- <- <-.
    destruct (IH _ _ _ _ _ _ _ Er) as ([rest' Hpre] & Hall).
    simpl. rewrite Hs, Hi.
    split.
    + exists rest'. rewrite Hpre at 1. reflexivity.
    + intros v Hv. rewrite (Hall v Hv). reflexivity.
Qed.

(** X5.  The scales of a run are the pairs of [zip(scales, iterations)], in
    order and from the first: the scales that left a trace are a front part of
    the zip, and all of it when the run returns.  A scale or a budget beyond
    the length of the shorter list is never run. *)
Theorem scales_run_in_zip_order
    (self : AffineRegistration R image opt_state) (save : bool) :
  (exists rest,
      combine (scales (base self)) (iterations (base self))
      = schedule_of (fst (fst (optimize self save))) ++ rest) /\
  (forall v, snd (optimize self save) = Ok v ->
             schedule_of (fst (fst (optimize self save)))
             = combine (scales (base self)) (iterations (base self))) /\
  length (fst (fst (optimize self save)))
  <= Nat.min (length (scales (base self))) (length (iterations (base self))).
Proof.
  unfold optimize.
  destruct (optimize_scales _ _ _ _ _) as [[trs s1] r1] eqn:E.
  destruct (optimize_scales_schedule _ _ _ _ _ E) as ([rest Hpre] & Hall).
  simpl. split; [exists rest; exact Hpre|]. split.
  - intros v Hv. destruct r1 as [imgs|e]; [|discriminate].
    apply (Hall imgs); reflexivity.
  - rewrite <- length_combine, Hpre, length_app.
    unfold schedule_of. rewrite length_map. lia.
Qed.

End ScheduleFacts.

(** ** The convergence test, continued *)

Section ConvergenceMore.
Context {R : Type} {SR : Scalar R}.
Context {image kernel : Type} {IO : ImageOps image kernel}.
Context {opt_state : Type} {SS : Session (R := R) (image := image) opt_state}.
Context {GL : Globals}.

Lemma convergence_test_other_mode mode tol max_iters c p cur :
  mode <> "atol"%string -> mode <> "rtol"%string ->
  convergence_test mode tol max_iters c p cur = Ok (c, false).
Proof.
  intros H1 H2. unfold convergence_test.
  destruct (String.eqb_spec mode "atol"); [contradiction|].
  destruct (String.eqb_spec mode "rtol"); [contradiction|].
  reflexivity.
Qed.

Lemma scale_loop_other_mode iters :
  forall (self : AffineRegistration R image opt_state) homo fd loc evs self' r,
    tolerance_mode (base self) <> "atol"%string ->
    tolerance_mode (base self) <> "rtol"%string ->
    scale_loop iters self homo fd loc = (evs, self', r) ->
    Forall (fun t : Spec.test_record =>
              let '(c, _, _, c', b) := t in
              c = tol_ctr loc /\ c' = tol_ctr loc /\ b = false)
           (Spec.tests_of evs) /\
    (forall loc', r = Ok loc' -> length (Spec.tests_of evs) = iters).
Proof.
  induction iters as [|k IH]; intros self homo fd loc evs self' r H1 H2; simpl.
  - intros H; injection H as <- <- <-. split; [constructor | reflexivity].
  - destruct (iteration self homo fd loc) as [[evs1 self1] r1] eqn:E1.
    pose proof (iteration_tests _ _ _ _ E1) as T1.
    pose proof (iteration_same_session _ _ _ _ E1) as (Hb & _).
    destruct r1 as [[loc1 b]|e].
    + destruct T1 as (cur & Hts & Hct & _).
      rewrite (convergence_test_other_mode _ _ _ _ _ H1 H2) in Hct.
      injection Hct as Hc <-.
      destruct (scale_loop k self1 homo fd loc1) as [[evs2 self2] r2] eqn:E2.
      intros H; injection H as <- <- <-.
      destruct (IH self1 homo fd loc1 evs2 self2 r2) as (Hall & Hlen);
        try congruence.
      rewrite tests_of_app, Hts. simpl. split.
      * constructor; [repeat split; congruence|].
        rewrite <- Hc in Hall. exact Hall.
      * intros loc' Hr. rewrite (Hlen loc' Hr). reflexivity.
    + intros H; injection H as <- <- <-. rewrite T1.
      split; [constructor | discriminate].
Qed.

(** X6.  With a [tolerance_mode] that is neither 'atol' nor 'rtol' the loop
    has no convergence test at all: in every scale the counter stays at 0, no
    iteration stops the scale, and a scale uses its whole budget (unless an
    exception ended the run in it). *)
Theorem other_tolerance_mode_never_stops
    (self : AffineRegistration R image opt_state) (save : bool) :
  tolerance_mode (base self) <> "atol"%string ->
  tolerance_mode (base self) <> "rtol"%string ->
  Forall (fun st =>
            Forall (fun t : Spec.test_record =>
                      let '(c, _, _, c', b) := t in
                      c = 0%Z /\ c' = 0%Z /\ b = false)
                   (Spec.tests_of (st_events st)) /\
            (length (Spec.tests_of (st_events st)) = Z.to_nat (st_iters st) \/
             exists e front,
               snd (optimize self save) = Raise e /\
               fst (fst (optimize self save)) = front ++ [st]))
         (fst (fst (optimize self save))).
Proof.
  intros H1 H2.
  destruct (optimize self save) as [[trs self'] r] eqn:Hopt; simpl.
  apply Forall_forall. intros st Hst.
  destruct (optimize_traces _ _ Hopt) as [_ Htr].
  destruct (Htr st Hst) as (sk & mk & sk' & rk & (Hb & _) & _ & Hbody & Hret).
  destruct (scale_body_trace _ _ _ _ Hbody)
    as (_ & _ & _ & _ & _ & homo & r' & _ & Hloop & Hrk).
  rewrite <- Hb in H1, H2.
  destruct (scale_loop_other_mode _ _ _ _ _ H1 H2 Hloop) as (Hall & Hlen).
  split; [exact Hall|].
  destruct r' as [loc'|e].
  - left. apply (Hlen loc'); reflexivity.
  - right. destruct (Hret e Hrk) as (-> & front & ->).
    exists e, front. split; reflexivity.
Qed.

Lemma float_sub_nan_l (y : pyfloat) : float_sub S754_nan y = S754_nan.
Proof. reflexivity. Qed.

Lemma float_sub_nan_r (x : pyfloat) : float_sub x S754_nan = S754_nan.
Proof. destruct x; reflexivity. Qed.

Lemma float_truediv_nan (x y q : pyfloat) :
  x = S754_nan \/ y = S754_nan ->
  float_truediv x y = Ok q -> q = S754_nan.
Proof.
  unfold float_truediv. intros [-> | ->].
  - destruct (float_is_zero y); [discriminate|].
    intros H; injection H as <-. reflexivity.
  - simpl. intros H; injection H as <-. destruct x; reflexivity.
Qed.

(** A test that saw a NaN, as the previous or as the current loss, and
    returned, did not count it as convergence. *)
Lemma convergence_test_nan mode tol max_iters c p cur c' b :
  p = S754_nan \/ cur = S754_nan ->
  convergence_test mode tol max_iters c p cur = Ok (c', b) ->
  b = false /\
  (mode = "atol"%string \/ mode = "rtol"%string -> c' = 0%Z).
Proof.
  intros Hnan. unfold convergence_test.
  assert (Hsub : float_sub p cur = S754_nan).
  { destruct Hnan as [-> | ->];
      [apply float_sub_nan_l | apply float_sub_nan_r]. }
  rewrite Hsub.
  destruct (String.eqb_spec mode "atol") as [->|Hna].
  - rewrite float_lt_nan. cbv iota. intros H; injection H as <- <-. auto.
  - destruct (String.eqb_spec mode "rtol") as [->|Hne].
    + destruct (float_truediv S754_nan p) as [q|e] eqn:Eq; [|discriminate].
      apply float_truediv_nan in Eq; [|left; reflexivity]. subst q.
      cbn [Py.bind]. rewrite float_lt_nan. cbv iota.
      intros H; injection H as <- <-. auto.
    + intros H; injection H as <- <-. split; [reflexivity|].
      intros [Ha|Hr]; contradiction.
Qed.

(** X7.  A NaN loss is never taken for convergence.  Every test of every run
    whose previous or current loss is NaN leaves the loop running, and in the
    modes atol and rtol puts the counter back to 0: a comparison with NaN is
    false.  As the current loss becomes the previous one, the test after it
    does the same. *)
Theorem nan_loss_never_stops
    (self : AffineRegistration R image opt_state) (save : bool) :
  Forall (fun st =>
            Forall (fun ev =>
                      match ev with
                      | Test c p cur c' b =>
                          p = S754_nan \/ cur = S754_nan ->
                          b = false /\
                          (tolerance_mode (base self) = "atol"%string \/
                           tolerance_mode (base self) = "rtol"%string ->
                           c' = 0%Z)
                      | _ => True
                      end)
                   (st_events st))
         (fst (fst (optimize self save))).
Proof.
  destruct (optimize self save) as [[trs self'] r] eqn:Hopt; simpl.
  apply Forall_forall. intros st Hst.
  destruct (optimize_events _ _ Hopt st Hst) as (homo & _ & Hev).
  eapply Forall_impl; [|exact Hev].
  intros [param m|param m coords moved|c p cur c' b] Hok; simpl; auto.
  intros Hnan. simpl in Hok.
  exact (convergence_test_nan _ _ _ _ Hnan Hok).
Qed.

(** From a counter [c], a stop takes at least [max_iters - c + 1] tests. *)
Lemma counter_run_patience mode tol max_iters c p ts :
  Spec.counter_run mode tol max_iters c p ts ->
  (0 <= c)%Z ->
  existsb Spec.stopped ts = true ->
  (max_iters - c + 1 <= Z.of_nat (length ts))%Z.
Proof.
  induction 1 as [c p|c p cur b rest Hbl Hrest Hrun IH]; intros Hc Hex.
  - discriminate.
  - cbn [existsb] in Hex. unfold Spec.stopped at 1 in Hex. cbn [snd] in Hex.
    cbn [length]. rewrite Nat2Z.inj_succ.
    destruct ((if b then c + 1 else 0) >? max_iters)%Z eqn:Egt.
    + destruct b; lia.
    + cbn [orb] in Hex.
      assert (Hc' : (0 <= (if b then c + 1 else 0))%Z) by (destruct b; lia).
      specialize (IH Hc' Hex). destruct b; lia.
Qed.

(** X8.  A scale cannot stop early before it has made [max_tolerance_iters +
    2] iterations: the first test, against a previous loss of +infinity, puts
    the counter to 0, and each later test adds at most one.  So a budget of at
    most [max_tolerance_iters + 1] is always used in full by a run that
    returns. *)
Theorem early_stop_takes_patience
    (self : AffineRegistration R image opt_state) (save : bool) :
  tolerance_mode (base self) = "atol"%string \/
  tolerance_mode (base self) = "rtol"%string ->
  (0 <= max_tolerance_iters (base self))%Z ->
  Forall (fun st =>
            existsb Spec.stopped (Spec.tests_of (st_events st)) = true ->
            (max_tolerance_iters (base self) + 2
             <= Z.of_nat (length (Spec.tests_of (st_events st))))%Z /\
            (max_tolerance_iters (base self) + 2 <= st_iters st)%Z)
         (fst (fst (optimize self save))).
Proof.
  intros Hmode Hmax.
  destruct (optimize self save) as [[trs self'] r] eqn:Hopt; simpl.
  apply Forall_forall. intros st Hst.
  destruct (optimize_traces _ _ Hopt) as [_ Htr].
  destruct (Htr st Hst) as (sk & mk & sk' & rk & (Hb & _) & _ & Hbody & Hret).
  destruct (scale_body_trace _ _ _ _ Hbody)
    as (_ & _ & _ & _ & _ & homo & r' & _ & Hloop & Hrk).
  rewrite <- Hb in Hmode, Hmax |- *.
  destruct (scale_loop_tests _ Hmode Hmax _ _ _ _
              eq_refl eq_refl eq_refl Hloop) as (Hrun & Hlen & _).
  simpl in Hrun. intros Hstop.
  assert (Hfirst : (max_tolerance_iters (base sk) + 2
                    <= Z.of_nat (length (Spec.tests_of (st_events st))))%Z).
  { remember (Spec.tests_of (st_events st)) as ts eqn:Ets.
    remember 0%Z as c0 eqn:Ec0. remember np_inf as p0 eqn:Ep0.
    destruct Hrun as [c p|c p cur b rest Hbl Hrest Hrun'].
    - discriminate Hstop.
    - subst c p. rewrite below_tolerance_first in Hbl. injection Hbl as <-.
      cbv iota in Hstop, Hrun'.
      cbn [existsb] in Hstop. unfold Spec.stopped at 1 in Hstop.
      cbn [snd] in Hstop.
      replace (0 >? max_tolerance_iters (base sk))%Z with false in Hstop
        by (symmetry; lia).
      cbn [orb] in Hstop.
      pose proof (counter_run_patience Hrun' (Z.le_refl 0) Hstop) as Hp'.
      cbn [length]. rewrite Nat2Z.inj_succ. lia. }
  split; [exact Hfirst | lia].
Qed.

End ConvergenceMore.

(** ** The events of a scale, and the images a run returns *)

Section EventsMore.
Context {R : Type} {SR : Scalar R}.
Context {image kernel : Type} {IO : ImageOps image kernel}.
Context {opt_state : Type} {SS : Session (R := R) (image := image) opt_state}.
Context {GL : Globals}.

(** An iteration that returns left a read, a sample and a test; one that
    raises left a front part of these. *)
Lemma iteration_shape (self : AffineRegistration R image opt_state)
    homo fd loc evs self' r :
  iteration self homo fd loc = (evs, self', r) ->
  match r with
  | Ok (loc', _) =>
      exists param m coords moved c p cur c' b,
        evs = [Read param m; Sample param m coords moved; Test c p cur c' b] /\
        moved_image loc' = Some moved
  | Raise _ =>
      evs = [] \/
      (exists param m, evs = [Read param m]) \/
      (exists param m coords moved,
          evs = [Read param m; Sample param m coords moved])
  end.
Proof.
  unfold iteration.
  destruct (get_affine_matrix self) as [m|e].
  2:{ intros H; injection H as <- <- <-. left; reflexivity. }
  destruct (Py.bind _ _) as [c|e].
  2:{ intros H; injection H as <- <- <-. right; left. eauto. }
  destruct (optimizer_step _ _ _) as [vals opt].
  destruct (convergence_test _ _ _ _ _ _) as [[c' b]|e];
    intros H; injection H as <- <- <-.
  - do 9 eexists. split; reflexivity.
  - right; right. eauto.
Qed.

Lemma scale_loop_shape iters :
  forall (self : AffineRegistration R image opt_state) homo fd loc evs self' r,
    scale_loop iters self homo fd loc = (evs, self', r) ->
    iterations_of evs /\ length (reads_of evs) <= iters /\
    (forall loc', r = Ok loc' ->
       moved_image loc' = match Spec.last_moved evs with
                          | Some img => Some img
                          | None => moved_image loc
                          end).
Proof.
  induction iters as [|k IH]; intros self homo fd loc evs self' r; simpl.
  - intros H; injection H as <- <- <-.
    split; [constructor|]. split; [simpl; lia|].
    intros loc' H; injection H as <-. reflexivity.
  - destruct (iteration self homo fd loc) as [[evs1 self1] r1] eqn:E1.
    pose proof (iteration_shape _ _ _ _ E1) as S1.
    destruct r1 as [[loc1 b]|e].
    + destruct S1 as (pa & m & co & mv & c & p & cur & c' & b' & -> & Hmv).
      destruct b.
      * intros H; injection H as <- <- <-.
        split; [apply iters_next; constructor|]. split; [simpl; lia|].
        intros loc' H; injection H as <-. simpl. exact Hmv.
      * destruct (scale_loop k self1 homo fd loc1) as [[evs2 self2] r2] eqn:E2.
        intros H; injection H as <- <- <-.
        destruct (IH _ _ _ _ _ _ _ E2) as (Hit & Hlen & Hmoved).
        split; [apply iters_next; exact Hit|].
        split; [simpl; lia|].
        intros loc' Hr. rewrite (Hmoved loc' Hr).
        simpl. rewrite Hmv.
        destruct (Spec.last_moved evs2); reflexivity.
    + intros H; injection H as <- <- <-.
      split.
      * destruct S1 as [-> | [(pa & m & ->) | (pa & m & co & mv & ->)]];
          constructor.
      * split; [|discriminate].
        destruct S1 as [-> | [(pa & m & ->) | (pa & m & co & mv & ->)]];
          simpl; lia.
Qed.

Lemma iterations_of_counts (evs : list (event R image)) :
  iterations_of evs ->
  length (Spec.tests_of evs) <= length (filter Spec.is_sample evs) /\
  length (filter Spec.is_sample evs) <= length (reads_of evs).
Proof. induction 1; simpl; lia. Qed.

(** X9.  The events of every scale of every run are iterations in order: a
    read of the matrix, then a call of the resampler with the parameter and
    the matrix just read, then a convergence test; only an exception cuts the
    last one short.  The matrix is never read, and the moving image never
    resampled, more often than the budget of the scale says. *)
Theorem scale_events_are_iterations
    (self : AffineRegistration R image opt_state) (save : bool) :
  Forall (fun st =>
            iterations_of (st_events st) /\
            length (Spec.tests_of (st_events st))
            <= length (filter Spec.is_sample (st_events st)) /\
            length (filter Spec.is_sample (st_events st))
            <= length (reads_of (st_events st)) /\
            length (reads_of (st_events st)) <= Z.to_nat (st_iters st))
         (fst (fst (optimize self save))).
Proof.
  destruct (optimize self save) as [[trs self'] r] eqn:Hopt; simpl.
  apply Forall_forall. intros st Hst.
  destruct (optimize_traces _ _ Hopt) as [_ Htr].
  destruct (Htr st Hst) as (sk & mk & sk' & rk & _ & _ & Hbody & _).
  destruct (scale_body_trace _ _ _ _ Hbody)
    as (_ & _ & _ & _ & _ & homo & r' & _ & Hloop & _).
  destruct (scale_loop_shape _ _ _ _ _ Hloop) as (Hit & Hlen & _).
  destruct (iterations_of_counts Hit) as [H1 H2].
  repeat split; assumption.
Qed.

Lemma scale_body_moved (self : AffineRegistration R image opt_state)
    sc it moved st self' moved' :
  scale_body self sc it moved = (Some st, self', Ok moved') ->
  moved' = match Spec.last_moved (st_events st) with
           | Some img => Some img
           | None => moved
           end.
Proof.
  intros Hbody.
  destruct (scale_body_trace _ _ _ _ Hbody)
    as (_ & _ & _ & _ & _ & homo & r' & _ & Hloop & Hr).
  destruct r' as [loc'|e]; [|discriminate].
  injection Hr as ->.
  destruct (scale_loop_shape _ _ _ _ _ Hloop) as (_ & _ & Hmoved).
  apply (Hmoved loc'); reflexivity.
Qed.

Lemma optimize_scales_carried schedule :
  forall (self : AffineRegistration R image opt_state) moved timgs
         trs self' imgs,
    optimize_scales schedule self true moved timgs = (trs, self', Ok imgs) ->
    map Some imgs = map Some timgs ++ carried moved trs.
Proof.
  induction schedule as [|[sc it] rest IH];
    intros self moved timgs trs self' imgs; simpl.
  - intros H; injection H as <- _ <-. rewrite app_nil_r. reflexivity.
  - destruct (scale_body self sc it moved) as [[tr s1] [moved'|e]] eqn:Eb;
      [|discriminate].
    destruct (scale_body_ok_trace _ _ _ _ Eb) as [st ->].
    pose proof (scale_body_moved _ _ _ _ Eb) as Hmv.
    destruct moved' as [img|]; [|discriminate].
    destruct (optimize_scales rest s1 true (Some img) (timgs ++ [img]))
      as [[trs2 s2] r2] eqn:Er.
    intros H; injection H as <- _ ->.
    rewrite (IH _ _ _ _ _ _ Er), map_app. simpl.
    rewrite <- Hmv, <- app_assoc. reflexivity.
Qed.

(** X10.  When a run that was asked for the intermediate results returns, it
    returns one image for each scale: the image of the last call of the
    resampler up to the end of that scale.  For a scale without an iteration
    that is the image of the scale before it, once more. *)
Theorem returned_images_are_latest_samples
    (self : AffineRegistration R image opt_state) :
  match snd (optimize self true) with
  | Ok (PyImages imgs) =>
      map Some imgs = carried None (fst (fst (optimize self true)))
  | Ok _ => False
  | Raise _ => True
  end.
Proof.
  unfold optimize.
  destruct (optimize_scales _ _ _ _ _) as [[trs s1] [imgs|e]] eqn:E; simpl;
    [|exact I].
  apply (optimize_scales_carried _ _ _ _ E).
Qed.

Lemma scale_body_empty (self : AffineRegistration R image opt_state)
    sc it moved :
  well_shaped self -> sc <> 0%Z -> (it <= 0)%Z ->
  exists st,
    scale_body self sc it moved = (Some st, self, Ok moved) /\
    st_scale st = sc /\ st_iters st = it /\ st_events st = [].
Proof.
  intros (Ha & Hr & Ht & Hp & Hg) Hne Hit. unfold scale_body.
  destruct (size_down_ok
              (skipn 2 (img_shape (arrays (fixed_images (base self))))) Hne)
    as (sz & Esz & Hlen).
  rewrite Esz.
  destruct (Hg sz Hlen) as (sp & Hgrid).
  pose proof Hgrid as Hhomo0. apply cat_ones_last_shape in Hhomo0.
  edestruct einsum_ntd_ok as (homo & Eh & Hhomo); [exact Ht | exact Hhomo0 |].
  rewrite Eh.
  replace (Z.to_nat it) with 0 by lia. simpl.
  eexists. split; [reflexivity|]. repeat split.
Qed.

(** X11.  Asked for the intermediate results, a run whose first scale has a
    budget of no iteration does not return: at the end of that scale
    [moved_image] was never bound, and appending it raises UnboundLocalError.
    The scale left no event and the registration is as it was. *)
Theorem save_with_empty_first_scale_raises
    (self : AffineRegistration R image opt_state) sc it ss its :
  well_shaped self ->
  scales (base self) = sc :: ss ->
  iterations (base self) = it :: its ->
  sc <> 0%Z -> (it <= 0)%Z ->
  exists st,
    optimize self true
    = ([st], self, Raise (UnboundLocalError "moved_image")) /\
    st_events st = [].
Proof.
  intros Hws Hs Hi Hne Hit. unfold optimize. rewrite Hs, Hi.
  cbn [combine optimize_scales].
  destruct (scale_body_empty None Hws Hne Hit) as (st & Eb & _ & _ & Hev).
  rewrite Eb. exists st. split; [reflexivity | exact Hev].
Qed.

Lemma size_down_zero (fixed_size : list Z) :
  fixed_size <> [] -> size_down fixed_size 0 = Raise ZeroDivisionError.
Proof.
  destruct fixed_size as [|s l]; [contradiction|]. intros _. reflexivity.
Qed.

(** X12.  On an image with at least one spatial axis a scale factor of 0
    cannot be run: the target size divides by it.  No scale of any run has the
    factor 0, and a schedule that starts with it raises ZeroDivisionError
    before anything else happens. *)
Theorem zero_scale_factor_raises
    (self : AffineRegistration R image opt_state) (save : bool) :
  skipn 2 (img_shape (arrays (fixed_images (base self)))) <> [] ->
  Forall (fun st => st_scale st <> 0%Z) (fst (fst (optimize self save))) /\
  (forall it ss its,
      scales (base self) = 0%Z :: ss -> iterations (base self) = it :: its ->
      optimize self save = ([], self, Raise ZeroDivisionError)).
Proof.
  intros Hsp. split.
  - destruct (optimize self save) as [[trs self'] r] eqn:Hopt; simpl.
    apply Forall_forall. intros st Hst.
    destruct (optimize_traces _ _ Hopt) as [_ Htr].
    destruct (Htr st Hst) as (sk & mk & sk' & rk & (Hb & _) & _ & Hbody & _).
    destruct (scale_body_trace _ _ _ _ Hbody) as (_ & _ & Hsz & _).
    cbv zeta in Hsz. rewrite Hb in Hsz. intros Hz. rewrite Hz in Hsz.
    rewrite (size_down_zero Hsp) in Hsz. discriminate.
  - intros it ss its Hs Hi. unfold optimize. rewrite Hs, Hi.
    cbn [combine optimize_scales]. unfold scale_body.
    rewrite (size_down_zero Hsp). reflexivity.
Qed.

End EventsMore.

(* ===================================================================== *)
(** * More properties of the image utilities *)
(* ===================================================================== *)

Section FieldsMore.
Context {R : Type} {SR : Scalar R} {GS : Resampler R}.

(** X14.  The last extent of the field is looked at before anything else: a
    field without axes raises IndexError, and a field whose last extent is
    neither 2 nor 3 raises ValueError, for every grid and every step count,
    also those for which the factor [1.0/2**n] could not be computed. *)
Theorem scaling_and_squaring_invalid_dimension (u grid : tensor R) (n : nat) :
  (shape u = [] -> scaling_and_squaring u grid n = Raise IndexError) /\
  (shape u <> [] -> last (shape u) 0 <> 3 -> last (shape u) 0 <> 2 ->
   scaling_and_squaring u grid n = Raise (ValueError "Invalid dimension")).
Proof.
  unfold scaling_and_squaring. split.
  - intros ->. reflexivity.
  - intros Hne H3 H2. destruct (shape u) as [|s shp] eqn:Es; [contradiction|].
    destruct (Nat.eqb_spec (last (s :: shp) 0) 3); [contradiction|].
    destruct (Nat.eqb_spec (last (s :: shp) 0) 2); [contradiction|].
    reflexivity.
Qed.

Lemma scale_factor_0 : scale_factor 0 = Ok (float_lit 1).
Proof. vm_compute. reflexivity. Qed.

(** X15.  Without a squaring step the result is the field times 1.0: the grid
    is not looked at and the resampler is not called. *)
Theorem scaling_and_squaring_no_step (u grid : tensor R) :
  last (shape u) 0 = 2 \/ last (shape u) 0 = 3 ->
  scaling_and_squaring u grid 0 = Ok (scale (float_lit 1) u).
Proof.
  intros Hd. unfold scaling_and_squaring.
  destruct (shape u) as [|s shp] eqn:Es.
  - simpl in Hd. destruct Hd; discriminate.
  - rewrite scale_factor_0.
    destruct Hd as [-> | ->]; reflexivity.
Qed.

(** X16.  The number of axes is checked by [permute] alone, in the first
    squaring step: a field with last extent 3 and other than five axes, or
    last extent 2 and other than four, raises RuntimeError there for every
    step count from 1 to 1023. *)
Theorem scaling_and_squaring_wrong_rank (u grid : tensor R) (n : nat) :
  1 <= n < 1024 ->
  (last (shape u) 0 = 3 /\ length (shape u) <> 5) \/
  (last (shape u) 0 = 2 /\ length (shape u) <> 4) ->
  scaling_and_squaring u grid n
  = Raise (RuntimeError "permute(): number of dims don't match in permute").
Proof.
  intros [Hn1 Hn2] Hd.
  destruct (scale_factor_ok Hn2) as (c & Ec & _).
  unfold scaling_and_squaring.
  destruct (shape u) as [|s shp] eqn:Es.
  - simpl in Hd. destruct Hd as [[H _]|[H _]]; discriminate.
  - rewrite Ec. cbn [Py.bind].
    destruct n as [|k]; [lia|].
    destruct Hd as [[-> Hlen] | [-> Hlen]]; cbn [Nat.eqb iterate];
      unfold squaring_step, permute; cbn [shape scale]; rewrite Es;
      cbn [length] in *.
    + replace (5 =? S (length shp)) with false
        by (symmetry; apply Nat.eqb_neq; lia).
      reflexivity.
    + replace (4 =? S (length shp)) with false
        by (symmetry; apply Nat.eqb_neq; lia).
      reflexivity.
Qed.

(** One squaring step keeps the shape of the field. *)
Lemma squaring_step_shape (to_img from_img : list nat) (grid v : tensor R)
    b c sp :
  Spec.resamples_in_place ->
  shape v = b :: sp ++ [c] -> c = length sp -> shape grid = shape v ->
  length to_img = length (shape v) -> is_permutation to_img = true ->
  map (fun p => nth p (shape v) 0) to_img = b :: c :: sp ->
  length from_img = length (b :: c :: sp) -> is_permutation from_img = true ->
  map (fun p => nth p (b :: c :: sp) 0) from_img = shape v ->
  exists v', squaring_step to_img from_img grid v = Ok v' /\
             shape v' = shape v.
Proof.
  intros Hshape Hv Hc Hg Hl1 Hp1 Hm1 Hl2 Hp2 Hm2.
  unfold squaring_step.
  destruct (permute_ok to_img v Hl1 Hp1) as [vimg Evimg].
  destruct (permute_inv _ _ Evimg) as (_ & _ & Hsimg & _).
  rewrite Evimg; cbn [Py.bind].
  destruct (add_ok v grid (eq_sym Hg)) as [g Eg].
  destruct (add_inv _ _ Eg) as (_ & Hsg & _).
  rewrite Eg; cbn [Py.bind].
  rewrite Hm1 in Hsimg.
  destruct (Hshape vimg g b c sp Hsimg) as (s & Es & Hss).
  { rewrite Hsg, Hv, Hc. reflexivity. }
  rewrite Es; cbn [Py.bind].
  destruct (permute_ok from_img s) as [s' Es'];
    [rewrite Hss; exact Hl2 | exact Hp2 |].
  destruct (permute_inv _ _ Es') as (_ & _ & Hss' & _).
  rewrite Es'; cbn [Py.bind].
  rewrite Hss, Hm2 in Hss'.
  destruct (add_ok v s' (eq_sym Hss')) as [v' Ev'].
  destruct (add_inv _ _ Ev') as (_ & Hsv' & _).
  exists v'. split; [exact Ev' | exact Hsv'].
Qed.

(** X17.  For every velocity field of shape [B, D, H, W, 3] or [B, H, W, 2],
    zero or not, every grid of the shape of the field and every step count
    from 0 to 1023, [scaling_and_squaring] returns a field of the shape of its
    input, given a resampler that keeps the extent of what it samples. *)
Theorem scaling_and_squaring_keeps_shape (u grid : tensor R) (n : nat) :
  Spec.resamples_in_place ->
  n < 1024 ->
  Spec.field_shape (shape u) -> shape grid = shape u ->
  exists v, scaling_and_squaring u grid n = Ok v /\ shape v = shape u.
Proof.
  intros Hshape Hn Hfield Hg.
  destruct (scale_factor_ok Hn) as (c & Ec & _).
  unfold scaling_and_squaring.
  destruct Hfield as [(b & d & h & w & Hu) | (b & h & w & Hu)];
    rewrite Hu; cbn [last Nat.eqb]; rewrite Ec; cbn [Py.bind].
  - destruct (@iterate_invariant R (fun v => shape v = shape u)
                (squaring_step [0; 4; 1; 2; 3] [0; 2; 3; 4; 1] grid))
      with (n := n) (v := scale c u) as (v & Ev & Hv).
    + intros v Hv.
      destruct (@squaring_step_shape [0; 4; 1; 2; 3] [0; 2; 3; 4; 1] grid v
                  b 3 [d; h; w] Hshape)
        as (v' & Ev' & Hv');
        try (rewrite Hv, Hu; reflexivity); try reflexivity;
        [congruence |].
      exists v'. split; [exact Ev' | congruence].
    + reflexivity.
    + exists v. split; [exact Ev | congruence].
  - destruct (@iterate_invariant R (fun v => shape v = shape u)
                (squaring_step [0; 3; 1; 2] [0; 2; 3; 1] grid))
      with (n := n) (v := scale c u) as (v & Ev & Hv).
    + intros v Hv.
      destruct (@squaring_step_shape [0; 3; 1; 2] [0; 2; 3; 1] grid v
                  b 2 [h; w] Hshape)
        as (v' & Ev' & Hv');
        try (rewrite Hv, Hu; reflexivity); try reflexivity;
        [congruence |].
      exists v'. split; [exact Ev' | congruence].
    + reflexivity.
    + exists v. split; [exact Ev | congruence].
Qed.

End FieldsMore.

(** ** [downsample] and [apply_gaussian] *)

Import ImageUtilsRest.

Lemma float_eqb_eq (x y : pyfloat) : float_eqb x y = true -> x = y.
Proof.
  destruct x as [a|a| |a m e], y as [b|b| |b m' e']; simpl;
    try discriminate; try reflexivity.
  - intros H. apply eqb_prop in H. congruence.
  - intros H. apply eqb_prop in H. congruence.
  - rewrite !andb_true_iff, Pos.eqb_eq, Z.eqb_eq.
    intros [[H1 H2] H3]. apply eqb_prop in H1. congruence.
Qed.

Lemma Zseq_In lo n z :
  In z (Zseq lo n) <-> (lo <= z < lo + Z.of_nat n)%Z.
Proof.
  unfold Zseq. rewrite in_map_iff. split.
  - intros (i & <- & Hi). apply in_seq in Hi. lia.
  - intros H. exists (Z.to_nat (z - lo)). split; [lia|].
    apply in_seq. lia.
Qed.

(** An extent of at most 1024 is a float, and a zero only when it is 0. *)
Lemma float_of_int_extent (z : Z) :
  (0 <= z <= 1024)%Z ->
  exists f, float_of_int z = Ok f /\ float_is_zero f = (z =? 0)%Z.
Proof.
  intros Hz.
  assert (Hall : forallb (fun z => match float_of_int z with
                                   | Ok f => Bool.eqb (float_is_zero f)
                                               (z =? 0)%Z
                                   | Raise _ => false
                                   end) (Zseq 0 1025) = true)
    by (vm_compute; reflexivity).
  rewrite forallb_forall in Hall.
  specialize (Hall z). rewrite Zseq_In in Hall.
  destruct (float_of_int z) as [f|e]; [|discriminate Hall; lia].
  exists f. split; [reflexivity|]. apply eqb_prop. apply Hall. lia.
Qed.

(** Half the factor, exactly: for an extent that is [k] times the target
    extent, the quotient [0.5 * orig / size] is the float [0.5 * k]. *)
Lemma infer_sigma_integer_factor (k s : Z) :
  (1 <= k)%Z -> (1 <= s)%Z -> (k * s <= 1024)%Z ->
  infer_sigma (k * s) s = Ok (half_of k).
Proof.
  intros Hk Hs Hks.
  assert (Hall :
            forallb (fun s =>
              forallb (fun k =>
                match infer_sigma (k * s) s with
                | Ok q => float_eqb q (half_of k)
                | Raise _ => false
                end) (Zseq 1 (Z.to_nat (1024 / s))))
              (Zseq 1 1024) = true)
    by (vm_compute; reflexivity).
  rewrite forallb_forall in Hall.
  assert (Hin : In s (Zseq 1 1024)) by (apply Zseq_In; nia).
  specialize (Hall s Hin). rewrite forallb_forall in Hall.
  assert (Hin' : In k (Zseq 1 (Z.to_nat (1024 / s)))).
  { apply Zseq_In.
    assert (k <= 1024 / s)%Z by (apply Z.div_le_lower_bound; lia).
    lia. }
  specialize (Hall k Hin').
  destruct (infer_sigma (k * s) s) as [q|e]; [|discriminate].
  apply float_eqb_eq in Hall. congruence.
Qed.

Lemma infer_sigma_outcome (o s : Z) :
  (0 <= o <= 1024)%Z -> (0 <= s <= 1024)%Z ->
  (s = 0%Z -> infer_sigma o s = Raise ZeroDivisionError) /\
  (s <> 0%Z -> exists q, infer_sigma o s = Ok q).
Proof.
  intros Ho Hs. unfold infer_sigma.
  destruct (float_of_int_extent Ho) as (fo & -> & _).
  destruct (float_of_int_extent Hs) as (fs & -> & Hz).
  cbn [Py.bind]. unfold float_truediv. rewrite Hz. split.
  - intros ->. reflexivity.
  - intros Hne. destruct (Z.eqb_spec s 0); [contradiction|]. eauto.
Qed.

(** The sigmas are inferred from the left: the first target extent that is
    0 raises ZeroDivisionError, a missing target extent raises IndexError,
    and otherwise there is one sigma for each spatial axis. *)
Lemma infer_sigmas_outcome (orig_size : list Z) :
  forall size,
    Forall (fun o => 0 <= o <= 1024)%Z orig_size ->
    Forall (fun s => 0 <= s <= 1024)%Z size ->
    match infer_sigmas orig_size size with
    | Ok sigma =>
        length sigma = length orig_size /\
        length orig_size <= length size /\
        ~ In 0%Z (firstn (length orig_size) size)
    | Raise ZeroDivisionError => In 0%Z (firstn (length orig_size) size)
    | Raise IndexError =>
        length size < length orig_size /\ ~ In 0%Z size
    | Raise _ => False
    end.
Proof.
  induction orig_size as [|o os IH]; intros size Ho Hs; cbn [infer_sigmas].
  - simpl. split; [reflexivity|]. split; [lia | tauto].
  - destruct size as [|s ss].
    + simpl. split; [lia | tauto].
    + inversion Ho as [|? ? Ho1 Hos]; subst.
      inversion Hs as [|? ? Hs1 Hss]; subst.
      destruct (infer_sigma_outcome Ho1 Hs1) as [Hzero Hok].
      destruct (Z.eq_dec s 0) as [->|Hne].
      * rewrite (Hzero eq_refl). simpl. left; reflexivity.
      * destruct (Hok Hne) as [q ->]. cbn [Py.bind].
        specialize (IH ss Hos Hss).
        destruct (infer_sigmas os ss) as [sigma|e]; cbn [Py.bind length firstn].
        { destruct IH as (H1 & H2 & H3). split; [lia|]. split; [lia|].
          intros [H|H]; [congruence | contradiction]. }
        { destruct e; try contradiction.
          - right; exact IH.
          - destruct IH as [H1 H2]. split; [lia|].
            intros [H|H]; [congruence | contradiction]. }
Qed.

Section DownsampleMore.
Context {image kernel : Type} {IO : ImageOps image kernel}.

(** X19.  What [downsample] does when it infers the sigmas itself (neither
    sigma nor kernels given), on an image and target extents of at most 1024.
    A target extent of 0 among those of the spatial axes raises
    ZeroDivisionError; too few target extents, none of them 0, raise
    IndexError; with one nonzero target extent for each spatial axis the image
    is filtered with one kernel for each axis, made from the float32 value of
    the inferred sigma, and the filtered image is interpolated to the target
    size. *)
Theorem downsample_inferred_outcome (image_ : image) (size : list Z)
    (mode : string) :
  Forall (fun o => 0 <= o <= 1024)%Z (skipn 2 (img_shape image_)) ->
  Forall (fun s => 0 <= s <= 1024)%Z size ->
  (In 0%Z (firstn (length (skipn 2 (img_shape image_))) size) ->
   downsample image_ size mode None None = Raise ZeroDivisionError) /\
  (length size < length (skipn 2 (img_shape image_)) -> ~ In 0%Z size ->
   downsample image_ size mode None None = Raise IndexError) /\
  (length size = length (skipn 2 (img_shape image_)) -> ~ In 0%Z size ->
   exists sigma,
     infer_sigmas (skipn 2 (img_shape image_)) size = Ok sigma /\
     length sigma = length size /\
     downsample image_ size mode None None
     = Ok (interpolate
             (separable_filtering image_
                (map gaussian_1d (map to_float32 sigma)))
             size mode)).
Proof.
  intros Ho Hs.
  pose proof (infer_sigmas_outcome Ho Hs) as Hout.
  unfold downsample.
  destruct (infer_sigmas (skipn 2 (img_shape image_)) size) as [sigma|e].
  - destruct Hout as (H1 & H2 & H3). split; [|split].
    + intros Hin. contradiction.
    + intros Hlt _. lia.
    + intros Hlen Hno. exists sigma. split; [reflexivity|].
      split; [congruence | reflexivity].
  - destruct e; try contradiction.
    + split; [reflexivity|]. split.
      * intros _ Hno. exfalso. apply Hno.
        rewrite <- (firstn_skipn (length (skipn 2 (img_shape image_))) size).
        apply in_or_app. left. exact Hout.
      * intros _ Hno. exfalso. apply Hno.
        rewrite <- (firstn_skipn (length (skipn 2 (img_shape image_))) size).
        apply in_or_app. left. exact Hout.
    + destruct Hout as [Hlt Hno]. split; [|split].
      * intros Hin. exfalso. apply Hno.
        rewrite <- (firstn_skipn (length (skipn 2 (img_shape image_))) size).
        apply in_or_app. left. exact Hin.
      * reflexivity.
      * intros Hlen. lia.
Qed.

Lemma infer_sigmas_integer_factor (factors : list (Z * Z)) :
  Forall (fun ks => 1 <= fst ks /\ 1 <= snd ks /\ fst ks * snd ks <= 1024)%Z
         factors ->
  infer_sigmas (map (fun ks => fst ks * snd ks)%Z factors) (map snd factors)
  = Ok (map (fun ks => half_of (fst ks)) factors).
Proof.
  induction 1 as [|[k s] l (Hk & Hs & Hks) _ IH]; cbn [map infer_sigmas];
    [reflexivity|].
  cbn [fst snd] in *.
  rewrite (infer_sigma_integer_factor Hk Hs Hks). cbn [Py.bind].
  rewrite IH. reflexivity.
Qed.

(** X20.  Downsampling by integer factors: when each spatial extent of the
    image (at most 1024) is [k] times its target extent, the sigma
    [downsample] infers for that axis is exactly the float [0.5 * k], whatever
    the extent; the image is filtered with the kernels of these sigmas, as
    float32 values, and interpolated to the target size. *)
Theorem downsample_integer_factor (image_ : image) (b c : Z)
    (factors : list (Z * Z)) (mode : string) :
  img_shape image_ = b :: c :: map (fun ks => fst ks * snd ks)%Z factors ->
  Forall (fun ks => 1 <= fst ks /\ 1 <= snd ks /\ fst ks * snd ks <= 1024)%Z
         factors ->
  downsample image_ (map snd factors) mode None None
  = Ok (interpolate
          (separable_filtering image_
             (map (fun ks => gaussian_1d (to_float32 (half_of (fst ks))))
                  factors))
          (map snd factors) mode).
Proof.
  intros Hshape Hf. unfold downsample. rewrite Hshape. cbn [skipn].
  rewrite (infer_sigmas_integer_factor Hf). cbn [Py.bind].
  rewrite !map_map. reflexivity.
Qed.

(** X21.  [downsample] with sigmas given is [apply_gaussian] on their float32
    values at truncation 2, followed by the interpolation; and with the
    kernels given that [apply_gaussian] makes for some sigmas at some
    truncation, it is [apply_gaussian] at that truncation followed by the
    interpolation, its own sigma argument unused.  [g] is [gaussian_1d] at any
    truncation. *)
Theorem downsample_is_apply_gaussian_then_interpolate
    (g : pyfloat -> pyfloat -> kernel) (image_ : image) (size : list Z)
    (mode : string) (sigma : list pyfloat) :
  (forall s, g s (float_lit 2) = gaussian_1d s) ->
  downsample image_ size mode (Some sigma) None
  = Ok (interpolate
          (apply_gaussian g image_ (map to_float32 sigma) (float_lit 2))
          size mode) /\
  forall truncated other,
    downsample image_ size mode other
      (Some (map (fun s => g s truncated) sigma))
    = Ok (interpolate (apply_gaussian g image_ sigma truncated) size mode).
Proof.
  intros Hg. unfold downsample, apply_gaussian. cbn [Py.bind]. split.
  - do 3 f_equal. apply map_ext. intros s. symmetry. apply Hg.
  - intros truncated other. reflexivity.
Qed.

End DownsampleMore.

(** ** The values of [image_gradient] *)

Section GradientValues.
Context {R : Type} {SR : Scalar R} {GS : Resampler R}.

Lemma conv_unfold nd (input weight : tensor R) padding b cin sp cout ks out :
  shape input = b :: cin :: sp -> shape weight = cout :: cin :: ks ->
  length sp = nd -> length padding = nd ->
  conv_out_shape sp padding ks = Some out ->
  exists t,
    conv nd input weight padding = Ok t /\ shape t = b :: cout :: out /\
    forall n co pos,
      elem t (n :: co :: pos)
      = sum_over (seq 0 cin) (fun ci =>
          sum_over (all_indices ks) (fun off =>
            match padded_index sp padding pos off with
            | Some src => Rmul (elem weight (co :: ci :: off))
                               (elem input (n :: ci :: src))
            | None => R0
            end)).
Proof.
  intros Hi Hw Hs Hp Ho. unfold conv. rewrite Hi, Hw, Hs, Hp, Ho.
  rewrite !Nat.eqb_refl. simpl. eexists. split; [reflexivity|].
  split; reflexivity.
Qed.

Ltac taps :=
  repeat (apply Forall2_cons;
          [solve [left; split; reflexivity | right; split; reflexivity]|]);
  apply Forall2_nil.

(** Three taps -1, 0, 1 around a point, summed from the left. *)
Lemma three_taps (s x : nat) (at_ : nat -> R) :
  unital_arithmetic R -> x < s ->
  Radd (Radd (Radd R0
                (if (1 <=? x + 0) && (x + 0 - 1 <? s)
                 then Rmul (of_float (float_lit (-1))) (at_ (x + 0 - 1))
                 else R0))
             (if (1 <=? x + 1) && (x + 1 - 1 <? s)
              then Rmul R0 (at_ (x + 1 - 1)) else R0))
       (if (1 <=? x + 2) && (x + 2 - 1 <? s)
        then Rmul R1 (at_ (x + 2 - 1)) else R0)
  = central s x at_.
Proof.
  intros (Hl & Hr & Hz & Ho) Hx. unfold central.
  rewrite Hl, Ho.
  replace (x + 0) with x by lia. replace (x + 2 - 1) with (x + 1) by lia.
  replace ((1 <=? x + 1) && (x + 1 - 1 <? s)) with true
    by (symmetry; apply andb_true_iff; split;
        [apply Nat.leb_le | apply Nat.ltb_lt]; lia).
  rewrite Hz, Hr.
  replace (1 <=? x + 2) with true by (symmetry; apply Nat.leb_le; lia).
  replace (x - 1 <? s) with true by (symmetry; apply Nat.ltb_lt; lia).
  rewrite andb_true_r. cbn [andb]. reflexivity.
Qed.

Lemma match_if_some {A B} (c : bool) (a : A) (F : A -> B) (d : B) :
  match (if c then Some a else None) with
  | Some src => F src
  | None => d
  end = if c then F a else d.
Proof. destruct c; reflexivity. Qed.

Ltac untouched_axis y H :=
  change (0 <=? y + 0) with true;
  rewrite (Nat.add_0_r y), (Nat.sub_0_r y);
  apply Nat.ltb_lt in H; rewrite H; cbn [andb].

Lemma padded_index_2_last h w y x o :
  y < h ->
  padded_index [h; w] [0; 1] [y; x] [0; o]
  = if (1 <=? x + o) && (x + o - 1 <? w) then Some [y; x + o - 1] else None.
Proof.
  intros Hy. cbn [padded_index]. untouched_axis y Hy.
  destruct ((1 <=? x + o) && (x + o - 1 <? w)); reflexivity.
Qed.

Lemma padded_index_2_first h w y x o :
  x < w ->
  padded_index [h; w] [1; 0] [y; x] [o; 0]
  = if (1 <=? y + o) && (y + o - 1 <? h) then Some [y + o - 1; x] else None.
Proof.
  intros Hx. cbn [padded_index]. untouched_axis x Hx.
  destruct ((1 <=? y + o) && (y + o - 1 <? h)); reflexivity.
Qed.

Lemma padded_index_3_last d h w z y x o :
  z < d -> y < h ->
  padded_index [d; h; w] [0; 0; 1] [z; y; x] [0; 0; o]
  = if (1 <=? x + o) && (x + o - 1 <? w) then Some [z; y; x + o - 1]
    else None.
Proof.
  intros Hz Hy. cbn [padded_index]. untouched_axis z Hz. untouched_axis y Hy.
  destruct ((1 <=? x + o) && (x + o - 1 <? w)); reflexivity.
Qed.

Lemma padded_index_3_mid d h w z y x o :
  z < d -> x < w ->
  padded_index [d; h; w] [0; 1; 0] [z; y; x] [0; o; 0]
  = if (1 <=? y + o) && (y + o - 1 <? h) then Some [z; y + o - 1; x]
    else None.
Proof.
  intros Hz Hx. cbn [padded_index]. untouched_axis z Hz. untouched_axis x Hx.
  destruct ((1 <=? y + o) && (y + o - 1 <? h)); reflexivity.
Qed.

Lemma padded_index_3_first d h w z y x o :
  y < h -> x < w ->
  padded_index [d; h; w] [1; 0; 0] [z; y; x] [o; 0; 0]
  = if (1 <=? z + o) && (z + o - 1 <? d) then Some [z + o - 1; y; x]
    else None.
Proof.
  intros Hy Hx. cbn [padded_index]. untouched_axis y Hy. untouched_axis x Hx.
  destruct ((1 <=? z + o) && (z + o - 1 <? d)); reflexivity.
Qed.



End GradientValues.

(** ** The identity transform *)

Section IdentityFacts.
Context {R : Type} {SR : Scalar R}.
Context {image kernel : Type} {IO : ImageOps image kernel}.
Context {opt_state : Type} {SS : Session (R := R) (image := image) opt_state}.
Context {GL : Globals}.

(** A row of an identity matrix picks one term of the sum. *)
Lemma sum_upto_delta (t j : nat) (a : nat -> R) :
  unital_arithmetic R ->
  sum_upto t (fun k => Rmul (if j =? k then R1 else R0) (a k))
  = if j <? t then a j else R0.
Proof.
  intros (Hl & Hr & Hz & Ho).
  induction t as [|t IH]; [reflexivity|].
  rewrite sum_upto_S, IH.
  destruct (Nat.ltb_spec j t) as [Hlt|Hge].
  - replace (j =? t) with false by (symmetry; apply Nat.eqb_neq; lia).
    replace (j <? S t) with true by (symmetry; apply Nat.ltb_lt; lia).
    rewrite Hz. apply Hr.
  - destruct (Nat.eqb_spec j t) as [->|Hne].
    + replace (t <? S t) with true by (symmetry; apply Nat.ltb_lt; lia).
      rewrite Ho. apply Hl.
    + replace (j <? S t) with false by (symmetry; apply Nat.ltb_ge; lia).
      rewrite Hz. apply Hl.
Qed.

(** The product with a batch of identity matrices changes nothing. *)
Lemma einsum_ntd_identity (m x out : tensor R) n t :
  unital_arithmetic R -> identity_batch n t m ->
  einsum_ntd m x = Ok out -> tensor_eq out x.
Proof.
  intros Hlaws [Hm Hid] E.
  destruct (einsum_ntd_inv _ _ E)
    as (n' & t' & d & rest & Hm' & Hx & Hne & Hd & Hout & Eo).
  rewrite Hm in Hm'. injection Hm' as <- <- <-.
  assert (Hshape : shape out = shape x).
  { rewrite Hout, Hx, <- Hd. rewrite <- app_removelast_last by exact Hne.
    reflexivity. }
  split; [exact Hshape|].
  intros idx Hin. rewrite Eo.
  rewrite Hshape, Hx in Hin.
  assert (Hlen : length idx = S (length rest)).
  { apply in_range_length in Hin. exact Hin. }
  assert (Hlast : last idx 0 < t).
  { rewrite <- Hd.
    replace (last rest 0) with (last (n :: rest) 0)
      by (destruct rest; [contradiction | reflexivity]).
    apply in_range_last; [discriminate | exact Hin]. }
  assert (Hhd : hd 0 idx < n).
  { destruct idx as [|i idx]; [discriminate|]. simpl in Hin |- *.
    apply andb_true_iff in Hin. destruct Hin as [Hi _].
    apply Nat.ltb_lt in Hi. exact Hi. }
  rewrite (@sum_upto_ext R SR t
             (fun k => Rmul (elem m [hd 0 idx; last idx 0; k])
                            (elem x (removelast idx ++ [k])))
             (fun k => Rmul (if last idx 0 =? k then R1 else R0)
                            (elem x (removelast idx ++ [k])))).
  2:{ intros k Hk. rewrite (Hid _ _ _ Hhd Hlast Hk). reflexivity. }
  rewrite (sum_upto_delta _ _ (fun k => elem x (removelast idx ++ [k])) Hlaws).
  apply Nat.ltb_lt in Hlast. rewrite Hlast.
  rewrite <- app_removelast_last by (destruct idx; discriminate).
  reflexivity.
Qed.

Lemma tensor_eq_trans (a b c : tensor R) :
  tensor_eq a b -> tensor_eq b c -> tensor_eq a c.
Proof.
  intros [S1 E1] [S2 E2]. split; [congruence|].
  intros idx Hin. rewrite E1 by exact Hin. apply E2. rewrite <- S1. exact Hin.
Qed.

(** Dropping the coordinate that was appended gives the grid back. *)
Lemma drop_last_cat_ones_last (grid : tensor R) :
  shape grid <> [] -> tensor_eq (drop_last (cat_ones_last grid)) grid.
Proof.
  intros Hne. split.
  - simpl. rewrite removelast_last, last_last.
    replace (last (shape grid) 0 + 1 - 1) with (last (shape grid) 0) by lia.
    symmetry. apply app_removelast_last. exact Hne.
  - simpl. rewrite removelast_last, last_last.
    replace (last (shape grid) 0 + 1 - 1) with (last (shape grid) 0) by lia.
    rewrite <- app_removelast_last by exact Hne.
    intros idx Hin.
    apply in_range_last in Hin; [|exact Hne]. apply Nat.ltb_lt in Hin.
    rewrite Hin. reflexivity.
Qed.


End IdentityFacts.

(* ===================================================================== *)
(** * The code at work, continued *)
(* ===================================================================== *)

Import Cases.

(** ** Construction *)

Lemma optimizer_name_decides_witness :
  AbstractRegistration_init [2; 1]%Z [3; 2]%Z fixed moving (S754_zero false)
    10%Z "atol"%string = Ok (base (built "atol"%string)) /\
  AffineRegistration_init (opt_state := pyfloat) [2; 1]%Z [3; 2]%Z fixed
    moving "LBFGS"%string tenth (S754_zero false) (S754_zero false) 10%Z
    "atol"%string None
  = Raise (ValueError "Optimizer not supported").
Proof.
  split; [reflexivity|].
  destruct (@optimizer_name_decides spec_float float32 image pyfloat session
              [2; 1]%Z [3; 2]%Z fixed moving "LBFGS"%string tenth
              (S754_zero false) (S754_zero false) 10%Z "atol"%string None
              (base (built "atol"%string))
              (eq_refl (Ok (base (built "atol"%string))))) as (_ & _ & H).
  apply H; discriminate.
Defined.

Lemma default_matrix_is_identity_witness :
  registration "atol"%string = Ok (built "atol"%string) /\
  exists m, get_affine_matrix (built "atol"%string) = Ok m /\
            identity_batch 1 3 m.
Proof.
  split; [reflexivity|].
  apply (@default_matrix_is_identity spec_float float32 image pyfloat session
           [2; 1]%Z [3; 2]%Z fixed moving "SGD"%string tenth
           (S754_zero false) (S754_zero false) 10%Z "atol"%string
           (built "atol"%string) (registration_built "atol"%string)).
Defined.


(** ** The loop *)

Lemma built_with_well_shaped sc it mode : well_shaped (built_with sc it mode).
Proof.
  unfold well_shaped; simpl.
  repeat (split; [reflexivity|]).
  intros size Hlen. exists (map Z.to_nat size).
  rewrite length_map, Hlen. reflexivity.
Qed.

Lemma other_tolerance_mode_never_stops_witness :
  tolerance_mode (base (built "none"%string)) <> "atol"%string /\
  tolerance_mode (base (built "none"%string)) <> "rtol"%string /\
  Forall (fun st =>
            Forall (fun t : Spec.test_record => snd t = false)
                   (Spec.tests_of (st_events st)))
         (fst (fst (optimize (built "none"%string) false))).
Proof.
  split; [discriminate|]. split; [discriminate|].
  eapply Forall_impl;
    [|apply (other_tolerance_mode_never_stops (built "none"%string) false);
      discriminate].
  intros st [H _]. eapply Forall_impl; [|exact H].
  intros [[[[c p] cur] c'] b] (_ & _ & Hb). exact Hb.
Defined.

Lemma early_stop_takes_patience_witness :
  (tolerance_mode (base (built "atol"%string)) = "atol"%string \/
   tolerance_mode (base (built "atol"%string)) = "rtol"%string) /\
  (0 <= max_tolerance_iters (base (built "atol"%string)))%Z /\
  Forall (fun st =>
            existsb Spec.stopped (Spec.tests_of (st_events st)) = true ->
            (12 <= st_iters st)%Z)
         (fst (fst (optimize (built "atol"%string) false))).
Proof.
  split; [left; reflexivity|]. split; [discriminate|].
  eapply Forall_impl;
    [|apply (early_stop_takes_patience (built "atol"%string) false);
      [left; reflexivity | discriminate]].
  intros st H Hstop. destruct (H Hstop) as [_ H2]. exact H2.
Defined.

Lemma save_with_empty_first_scale_raises_witness :
  well_shaped (built_with [2; 1]%Z [0; 2]%Z "atol"%string) /\
  (2 <> 0)%Z /\ (0 <= 0)%Z /\
  snd (optimize (built_with [2; 1]%Z [0; 2]%Z "atol"%string) true)
  = Raise (UnboundLocalError "moved_image").
Proof.
  split; [apply built_with_well_shaped|].
  split; [discriminate|]. split; [discriminate|].
  destruct (@save_with_empty_first_scale_raises spec_float _ image kernel
              image_ops pyfloat session globals
              (built_with [2; 1]%Z [0; 2]%Z "atol"%string) 2%Z 0%Z
              [1%Z] [2%Z]
              (built_with_well_shaped _ _ _) eq_refl eq_refl)
    as (st & H & _); [discriminate | discriminate |].
  rewrite H. reflexivity.
Defined.

Lemma zero_scale_factor_raises_witness :
  skipn 2 (img_shape
             (arrays (fixed_images
                        (base (built_with [0; 1]%Z [3; 2]%Z "atol"%string)))))
  <> [] /\
  optimize (built_with [0; 1]%Z [3; 2]%Z "atol"%string) false
  = ([], built_with [0; 1]%Z [3; 2]%Z "atol"%string,
     Raise ZeroDivisionError).
Proof.
  split; [discriminate|].
  destruct (@zero_scale_factor_raises spec_float _ image kernel image_ops
              pyfloat session globals
              (built_with [0; 1]%Z [3; 2]%Z "atol"%string) false)
    as [_ H]; [discriminate|].
  apply (H 3%Z [1%Z] [2%Z]); reflexivity.
Defined.

(** The integers are unital. *)
Lemma exact_Z_unital : unital_arithmetic Z.
Proof.
  unfold unital_arithmetic.
  change (@R0 Z exact_Z) with 0%Z. change (@R1 Z exact_Z) with 1%Z.
  change (@Radd Z exact_Z) with Z.add. change (@Rmul Z exact_Z) with Z.mul.
  repeat split; intros; lia.
Qed.

Lemma zidentity_is_identity : identity_batch 1 3 zidentity.
Proof.
  split; [reflexivity|]. intros b i j _ _ _. reflexivity.
Qed.


(** ** Fields *)

Lemma scaling_and_squaring_no_step_witness :
  (last (shape ones_field) 0 = 2 \/ last (shape ones_field) 0 = 3) /\
  scaling_and_squaring ones_field (zero_field [7]) 0
  = Ok (scale (float_lit 1) ones_field).
Proof.
  split; [left; reflexivity|].
  apply (@scaling_and_squaring_no_step spec_float float32 resampler
           ones_field (zero_field [7])).
  left; reflexivity.
Defined.

Lemma scaling_and_squaring_wrong_rank_witness :
  1 <= 6 < 1024 /\
  (last (shape flat_field) 0 = 3 /\ length (shape flat_field) <> 5) /\
  scaling_and_squaring flat_field (zero_field [5; 3]) 6
  = Raise (RuntimeError "permute(): number of dims don't match in permute").
Proof.
  assert (Hn : 1 <= 6 < 1024) by lia.
  assert (Hd : last (shape flat_field) 0 = 3 /\ length (shape flat_field) <> 5)
    by (split; [reflexivity | discriminate]).
  split; [exact Hn|]. split; [exact Hd|].
  apply (@scaling_and_squaring_wrong_rank spec_float float32 resampler
           flat_field (zero_field [5; 3]) 6 Hn).
  left; exact Hd.
Defined.

Lemma scaling_and_squaring_keeps_shape_witness :
  Spec.resamples_in_place (R := spec_float) /\
  6 < 1024 /\
  Spec.field_shape (shape ones_field) /\
  shape (identity_grid [1; 2; 4; 4]%Z) = shape ones_field /\
  exists v,
    scaling_and_squaring ones_field (identity_grid [1; 2; 4; 4]%Z) 6 = Ok v /\
    shape v = [1; 4; 4; 2].
Proof.
  assert (Hn : 6 < 1024) by lia.
  assert (Hf : Spec.field_shape (shape ones_field))
    by (right; exists 1, 4, 4; reflexivity).
  split; [exact resampler_in_place|].
  split; [exact Hn|]. split; [exact Hf|]. split; [reflexivity|].
  apply (@scaling_and_squaring_keeps_shape spec_float float32 resampler
           ones_field (identity_grid [1; 2; 4; 4]%Z) 6
           resampler_in_place Hn Hf eq_refl).
Defined.

(** ** Downsampling *)

Lemma downsample_inferred_outcome_witness :
  Forall (fun o => 0 <= o <= 1024)%Z (skipn 2 (img_shape square_image)) /\
  Forall (fun s => 0 <= s <= 1024)%Z [8; 0]%Z /\
  downsample square_image [8; 0]%Z "bilinear" None None
  = Raise ZeroDivisionError /\
  downsample square_image [8]%Z "bilinear" None None = Raise IndexError.
Proof.
  assert (Ho : Forall (fun o => 0 <= o <= 1024)%Z
                      (skipn 2 (img_shape square_image)))
    by (repeat constructor; discriminate).
  assert (Hs : Forall (fun s => 0 <= s <= 1024)%Z [8; 0]%Z)
    by (repeat constructor; discriminate).
  assert (Hs' : Forall (fun s => 0 <= s <= 1024)%Z [8]%Z)
    by (repeat constructor; discriminate).
  split; [exact Ho|]. split; [exact Hs|]. split.
  - destruct (@downsample_inferred_outcome image kernel image_ops
                square_image [8; 0]%Z "bilinear"%string Ho Hs) as (H & _).
    apply H. right; left; reflexivity.
  - destruct (@downsample_inferred_outcome image kernel image_ops
                square_image [8]%Z "bilinear"%string Ho Hs') as (_ & H & _).
    apply H; [repeat constructor | intros [H0|[]]; discriminate].
Defined.

Lemma downsample_integer_factor_witness :
  img_shape oblong_image
  = 1%Z :: 1%Z :: map (fun ks => fst ks * snd ks)%Z [(3, 4); (2, 4)]%Z /\
  Forall (fun ks => 1 <= fst ks /\ 1 <= snd ks /\ fst ks * snd ks <= 1024)%Z
         [(3, 4); (2, 4)]%Z /\
  downsample oblong_image [4; 4]%Z "bilinear" None None
  = Ok (Interpolate
          (SeparableFiltering oblong_image
             [Gaussian1d (to_float32 (half_of 3));
              Gaussian1d (to_float32 (half_of 2))])
          [4; 4]%Z "bilinear").
Proof.
  assert (Hf : Forall (fun ks => 1 <= fst ks /\ 1 <= snd ks /\
                                 fst ks * snd ks <= 1024)%Z
                      [(3, 4); (2, 4)]%Z)
    by (repeat constructor; discriminate).
  split; [reflexivity|]. split; [exact Hf|].
  apply (@downsample_integer_factor image kernel image_ops oblong_image
           1%Z 1%Z [(3, 4); (2, 4)]%Z "bilinear"%string eq_refl Hf).
Defined.

Lemma downsample_is_apply_gaussian_then_interpolate_witness :
  (forall s, (fun s' _ => Gaussian1d s') s (float_lit 2) = gaussian_1d s) /\
  downsample square_image [8; 8]%Z "bilinear" (Some [tenth; tenth]) None
  = Ok (interpolate
          (apply_gaussian (fun s' _ => Gaussian1d s') square_image
             (map to_float32 [tenth; tenth]) (float_lit 2))
          [8; 8]%Z "bilinear").
Proof.
  split; [reflexivity|].
  apply (@downsample_is_apply_gaussian_then_interpolate image kernel
           image_ops (fun s' _ => Gaussian1d s') square_image [8; 8]%Z
           "bilinear"%string [tenth; tenth]).
  reflexivity.
Defined.

(** ** Gradients in integers *)



(* ===================================================================== *)
(** * Edge cases *)
(* ===================================================================== *)

Section EdgeCases.
Context {R : Type} {SR : Scalar R}.
Context {image kernel : Type} {IO : ImageOps image kernel}.
Context {opt_state : Type} {SS : Session (R := R) (image := image) opt_state}.
Context {GL : Globals}.

Lemma size_down_negative (fixed_size : list Z) (scale_ : Z) :
  (scale_ < 0)%Z -> (0 <= MIN_IMG_SIZE)%Z ->
  Forall (fun s => (0 <= s)%Z) fixed_size ->
  size_down fixed_size scale_ = Ok (map (fun _ => MIN_IMG_SIZE) fixed_size).
Proof.
  intros Hc Hmin. unfold size_down.
  induction 1 as [|s l Hs _ IH]; cbn [mapM map]; [reflexivity|].
  unfold int_of_truediv at 1.
  destruct (Z.eqb_spec scale_ 0) as [|_]; [lia|].
  cbn [Py.bind]. rewrite IH.
  assert (Hq : (Z.quot s scale_ <= 0)%Z).
  { replace scale_ with (- - scale_)%Z by lia.
    rewrite Z.quot_opp_r by lia.
    assert (0 <= Z.quot s (- scale_))%Z by (apply Z.quot_pos; lia).
    lia. }
  rewrite Z.max_r by lia. reflexivity.
Qed.

(** X25.  A negative scale factor is run like any other: for an image with
    extents that are not negative, and a smallest size that is not negative,
    every target extent of such a scale is [MIN_IMG_SIZE]. *)
Theorem negative_scale_gives_smallest_size
    (self : AffineRegistration R image opt_state) (save : bool) :
  (0 <= MIN_IMG_SIZE)%Z ->
  Forall (fun s => (0 <= s)%Z)
         (skipn 2 (img_shape (arrays (fixed_images (base self))))) ->
  Forall (fun st =>
            (st_scale st < 0)%Z ->
            st_size_down st
            = map (fun _ => MIN_IMG_SIZE)
                  (skipn 2 (img_shape (arrays (fixed_images (base self))))))
         (fst (fst (optimize self save))).
Proof.
  intros Hmin Hext.
  destruct (optimize self save) as [[trs self'] r] eqn:Hopt; simpl.
  apply Forall_forall. intros st Hst Hneg.
  destruct (optimize_traces _ _ Hopt) as [_ Htr].
  destruct (Htr st Hst) as (sk & mk & sk' & rk & (Hb & _) & _ & Hbody & _).
  destruct (scale_body_trace _ _ _ _ Hbody) as (_ & _ & Hsz & _).
  cbv zeta in Hsz. rewrite Hb in Hsz.
  rewrite (size_down_negative Hneg Hmin Hext) in Hsz.
  injection Hsz as <-. reflexivity.
Qed.

(** X26.  With no scale or no budget at all nothing is run: the call leaves no
    trace and the registration as it was, and returns the empty list, or None
    when intermediate results were not asked for. *)
Theorem empty_schedule_runs_nothing
    (self : AffineRegistration R image opt_state) (save : bool) :
  scales (base self) = [] \/ iterations (base self) = [] ->
  optimize self save
  = ([], self, Ok (if save then PyImages [] else PyNone)).
Proof.
  intros H. unfold optimize.
  assert (Hc : combine (scales (base self)) (iterations (base self)) = []).
  { destruct H as [-> | ->]; [reflexivity|].
    destruct (scales (base self)); reflexivity. }
  rewrite Hc. simpl. destruct save; reflexivity.
Qed.

Lemma optimize_scales_without_save schedule :
  forall (self : AffineRegistration R image opt_state) moved timgs timgs'
         trs self' imgs,
    optimize_scales schedule self true moved timgs = (trs, self', Ok imgs) ->
    optimize_scales schedule self false moved timgs' = (trs, self', Ok timgs').
Proof.
  induction schedule as [|[sc it] rest IH];
    intros self moved timgs timgs' trs self' imgs; simpl.
  - intros H; injection H as <- <- _. reflexivity.
  - destruct (scale_body self sc it moved) as [[tr s1] [moved'|e]];
      [|discriminate].
    destruct moved' as [img|]; [|discriminate].
    destruct (optimize_scales rest s1 true (Some img) (timgs ++ [img]))
      as [[trs2 s2] [imgs2|e]] eqn:Er; [|discriminate].
    intros H; injection H as <- <- _.
    rewrite (IH _ _ _ timgs' _ _ _ Er). reflexivity.
Qed.

(** X27.  Asking for the intermediate results changes nothing but what is
    returned: when the run that keeps them returns, the run that does not keep
    them goes through the same scales and events, leaves the same
    registration, and returns None. *)
Theorem save_transformed_changes_only_the_return
    (self : AffineRegistration R image opt_state) :
  match snd (optimize self true) with
  | Ok _ =>
      optimize self false
      = (fst (fst (optimize self true)), snd (fst (optimize self true)),
         Ok PyNone)
  | Raise _ => True
  end.
Proof.
  unfold optimize.
  destruct (optimize_scales _ self true None [])
    as [[trs s1] [imgs|e]] eqn:E; simpl; [|exact I].
  rewrite (optimize_scales_without_save _ _ _ _ [] E). reflexivity.
Qed.

End EdgeCases.

Section GradientEdges.
Context {R : Type} {SR : Scalar R}.

(** No kernel of the gradient fits an axis of extent 0. *)
Lemma conv_out_shape_empty (sp ps ks : list nat) :
  Forall2 (fun p k => (p = 0 /\ k = 1) \/ (p = 1 /\ k = 3)) ps ks ->
  length sp = length ps -> In 0 sp ->
  conv_out_shape sp ps ks = None.
Proof.
  intros Hpk. revert sp.
  induction Hpk as [|p k ps ks Hpk _ IH]; intros [|s sp] Hlen Hin;
    cbn [conv_out_shape length] in *; try discriminate; try contradiction.
  destruct Hin as [->|Hin].
  - replace ((1 <=? k) && (k <=? 0 + 2 * p)) with false; [reflexivity|].
    symmetry. apply andb_false_iff. right. apply Nat.leb_gt.
    destruct Hpk as [[-> ->]|[-> ->]]; lia.
  - rewrite IH by (lia || assumption).
    destruct ((1 <=? k) && (k <=? s + 2 * p)); reflexivity.
Qed.

Ltac taps :=
  repeat (apply Forall2_cons;
          [solve [left; split; reflexivity | right; split; reflexivity]|]);
  apply Forall2_nil.

(** X24.  The shapes [image_gradient] does not take.  A tensor with fewer than
    two axes has no channel axis to look at and raises IndexError; no channel
    at all is refused like several channels, with NotImplementedError; and an
    image of one channel and two or three spatial axes, one of them of extent
    0, raises the RuntimeError of the convolution, whose kernel does not fit. *)
Theorem image_gradient_degenerate_shapes (image_ : tensor R) :
  (length (shape image_) < 2 -> image_gradient image_ = Raise IndexError) /\
  (forall b sp,
      shape image_ = b :: 0 :: sp ->
      image_gradient image_
      = Raise (NotImplementedError "Multichannel images not supported yet")) /\
  (forall b sp,
      shape image_ = b :: 1 :: sp -> length sp = 2 \/ length sp = 3 ->
      In 0 sp ->
      image_gradient image_
      = Raise (RuntimeError
                 "Kernel size can't be greater than actual input size")).
Proof.
  unfold image_gradient. split; [|split].
  - intros Hlen. destruct (shape image_) as [|b [|c sp]]; simpl in *;
      solve [reflexivity | lia].
  - intros b sp Hs. rewrite Hs. reflexivity.
  - intros b sp Hs Hlen Hin. rewrite Hs. cbn [nth_error Nat.eqb].
    unfold image_gradient_singlechannel. rewrite Hs.
    cbn [length Nat.sub]. rewrite Nat.sub_0_r.
    destruct Hlen as [Hlen | Hlen]; rewrite Hlen; cbn [Nat.eqb].
    + unfold conv2d, conv at 1. rewrite Hs.
      cbn [shape unsqueeze0 FloatTensor2 central_difference length hd].
      rewrite Hlen. cbn [Nat.eqb andb length].
      rewrite conv_out_shape_empty; [reflexivity | taps | exact Hlen | exact Hin].
    + unfold conv3d, conv at 1. rewrite Hs.
      cbn [shape unsqueeze0 FloatTensor2 central_difference length hd].
      rewrite Hlen. cbn [Nat.eqb andb length].
      rewrite conv_out_shape_empty; [reflexivity | taps | exact Hlen | exact Hin].
Qed.

End GradientEdges.

Lemma negative_scale_gives_smallest_size_witness :
  (0 <= MIN_IMG_SIZE)%Z /\
  Forall (fun s => (0 <= s)%Z) [16; 16]%Z /\
  Forall (fun st => (st_scale st < 0)%Z -> st_size_down st = [8; 8]%Z)
         (fst (fst (optimize
                      (built_with [-2; 1]%Z [3; 2]%Z "atol"%string) false))).
Proof.
  assert (H1 : (0 <= MIN_IMG_SIZE)%Z) by discriminate.
  assert (H2 : Forall (fun s => (0 <= s)%Z) [16; 16]%Z)
    by (repeat constructor; discriminate).
  split; [exact H1|]. split; [exact H2|].
  apply (@negative_scale_gives_smallest_size spec_float float32 image kernel
           image_ops pyfloat session globals
           (built_with [-2; 1]%Z [3; 2]%Z "atol"%string) false H1 H2).
Defined.

Lemma empty_schedule_runs_nothing_witness :
  (scales (base (built_with [] [3; 2]%Z "atol"%string)) = [] \/
   iterations (base (built_with [] [3; 2]%Z "atol"%string)) = []) /\
  optimize (built_with [] [3; 2]%Z "atol"%string) true
  = ([], built_with [] [3; 2]%Z "atol"%string, Ok (PyImages [])).
Proof.
  split; [left; reflexivity|].
  apply (@empty_schedule_runs_nothing spec_float float32 image kernel
           image_ops pyfloat session globals
           (built_with [] [3; 2]%Z "atol"%string) true).
  left; reflexivity.
Defined.

(* ===================================================================== *)
(** * Beyond the floats *)
(* ===================================================================== *)

Lemma iter_pos_nat {A} (f : A -> A) (p : positive) (x : A) :
  iter_pos f p x = Nat.iter (Pos.to_nat p) f x.
Proof.
  revert x. induction p as [p IH|p IH|]; intros x; cbn [iter_pos].
  - rewrite !IH, Pos2Nat.inj_xI, <- Nat.iter_succ_r, <- Nat.iter_add.
    f_equal. lia.
  - rewrite !IH, Pos2Nat.inj_xO, <- Nat.iter_add. f_equal. lia.
  - reflexivity.
Qed.

Lemma digits2_pos_shift (n : nat) :
  digits2_pos (shift_nat n 1) = Pos.of_succ_nat n.
Proof.
  induction n as [|n IH]; [reflexivity|].
  cbn [shift_nat nat_rect digits2_pos Pos.of_succ_nat].
  change (nat_rect (fun _ => positive) 1%positive (fun _ => xO) n)
    with (shift_nat n 1).
  rewrite IH. reflexivity.
Qed.

Lemma shr_1_shift (k j : nat) :
  Nat.iter k shr_1
    (Build_shr_record (Zpos (shift_nat (k + j) 1)) false false)
  = Build_shr_record (Zpos (shift_nat j 1)) false false.
Proof.
  induction k as [|k IH]; [reflexivity|].
  rewrite Nat.iter_succ_r. exact IH.
Qed.

Lemma float_of_int_overflow (n : nat) :
  1024 <= n -> float_of_int (2 ^ Z.of_nat n) = Raise OverflowError.
Proof.
  intros Hn. rewrite <- two_power_nat_equiv. unfold two_power_nat.
  unfold float_of_int, binary_normalize, binary_round.
  rewrite digits2_pos_shift.
  unfold fexp, emin, prec64, emax64, shl_align.
  replace (Z.max (Z.pos (Pos.of_succ_nat n) + 0 - 53) (3 - 1024 - 53) - 0)%Z
    with (Z.pos (Pos.of_nat (n - 52))) by lia.
  unfold binary_round_aux, shr_fexp, Zdigits2 at 1.
  rewrite digits2_pos_shift.
  unfold fexp, emin, shr at 1, shr_record_of_loc at 1.
  replace (Z.max (Z.pos (Pos.of_succ_nat n) + 0 - 53) (3 - 1024 - 53) - 0)%Z
    with (Z.pos (Pos.of_nat (n - 52))) by lia.
  rewrite iter_pos_nat.
  replace (Pos.to_nat (Pos.of_nat (n - 52))) with (n - 52) by lia.
  change (shr_record_of_loc (Z.pos (shift_nat n 1)) loc_Exact)
    with (Build_shr_record (Z.pos (shift_nat n 1)) false false).
  pose proof (shr_1_shift (n - 52) 52) as Hs.
  replace (n - 52 + 52) with n in Hs by lia.
  rewrite Hs.
  cbn [shr_m loc_of_shr_record round_nearest_even shr_record_of_loc].
  change (Zdigits2 (Z.pos (shift_nat 52 1))) with 53%Z.
  replace (IntDef.Z.max (53 + (0 + Z.pos (Pos.of_nat (n - 52))) - 53)
             (3 - 1024 - 53) - (0 + Z.pos (Pos.of_nat (n - 52))))%Z
    with 0%Z by lia.
  cbn [shr shr_m].
  replace (0 + Z.pos (Pos.of_nat (n - 52)) <=? 1024 - 53)%Z with false
    by (symmetry; apply Z.leb_gt; lia).
  reflexivity.
Qed.

Section FieldsOverflow.
Context {R : Type} {SR : Scalar R} {GS : Resampler R}.

(** X18.  From 1024 squaring steps on, no field of a valid last extent is
    returned, whatever the field and the grid: the power [2**n] is beyond the
    floats and the division that makes the factor raises OverflowError. *)
Theorem scaling_and_squaring_overflow (u grid : tensor R) (n : nat) :
  1024 <= n ->
  last (shape u) 0 = 2 \/ last (shape u) 0 = 3 ->
  scaling_and_squaring u grid n = Raise OverflowError.
Proof.
  intros Hn Hd. unfold scaling_and_squaring, scale_factor.
  rewrite (float_of_int_overflow Hn). cbn [Py.bind].
  destruct (shape u) as [|s shp] eqn:Es.
  - simpl in Hd. destruct Hd; discriminate.
  - destruct Hd as [-> | ->]; reflexivity.
Qed.

End FieldsOverflow.

Lemma scaling_and_squaring_overflow_witness :
  1024 <= 2000 /\
  (last (shape ones_field) 0 = 2 \/ last (shape ones_field) 0 = 3) /\
  scaling_and_squaring ones_field (identity_grid [1; 2; 4; 4]%Z) 2000
  = Raise OverflowError.
Proof.
  assert (Hn : 1024 <= 2000) by lia.
  split; [exact Hn|]. split; [left; reflexivity|].
  apply (@scaling_and_squaring_overflow spec_float float32 resampler
           ones_field (identity_grid [1; 2; 4; 4]%Z) 2000 Hn).
  left; reflexivity.
Defined.
